(** * Penny: chunking, embedding orchestration, ranking and ingestion

    A shallow embedding of the core of the Penny content service:
    - [src/lib/ai/embeddings.ts]: [chunkText], [detectSections],
      [chunkDocument], [batchGenerateEmbeddings],
      [prepareTextForEmbedding], [findMostSimilar];
    - the content repository ([create], [update], [updateStatus],
      [findById], [searchByEmbedding], [createChunks], [deleteChunks],
      [findChunksByContentId]);
    - the content service ([processImage], [processUrl],
      [retryFailedContent]), the handler [handleRetryUrl] and
      [extractYouTubeId];
    - [src/utils/error.ts]: [getErrorMessage], [getSafeErrorMessage].

    Conventions of the model:
    - JavaScript strings are sequences of UTF-16 code units, [list N];
    - JavaScript numbers that hold positions, sizes and counts are [Z] (the
      integral values; fractional sizes are left out), the numbers of an
      embedding and the similarities computed in JavaScript are rationals,
      [Q]; the batch size of [batchGenerateEmbeddings] is any number: whole,
      a double with a fraction, infinite or NaN;
    - a value of an [integer] column that the code computes in SQL stays in
      the range of the column, or the statement fails; a [double precision]
      value that the vector store computes is a rational or NaN, ordered as
      Postgres orders it;
    - a loop that the source does not bound runs on fuel, and returns [None]
      when the fuel runs out before the loop ends;
    - a call that may throw returns a [Result]; an error is kept as the
      message of its [Error] object;
    - the database is a value passed along: the [contents] table is a map
      from its primary key, the [content_chunks] table a list of rows;
      [new Date()] is a parameter;
    - the collaborators of the service (extraction, image analysis, blob
      storage, the embedding provider) and the faults of the database are
      fields of an environment over which the theorems quantify; so is the
      vector store, with the errors it raises. *)

From Stdlib Require Import ZArith QArith Qround Qabs Lqa DecimalNat.
From stdpp Require Import base list gmap strings sorting.

Local Open Scope Z_scope.

(** ** JavaScript strings *)

Module Js.

Abbreviation text := (list N).

Definition code (a : Ascii.ascii) : N := Ascii.N_of_ascii a.

Definition of_string (s : string) : text :=
  map code (String.list_ascii_of_string s).

Definition length (s : text) : Z := Z.of_nat (List.length s).

(** [\s] of a regular expression and the characters removed by
    [String.prototype.trim]: WhiteSpace and LineTerminator. *)
Definition isSpace (c : N) : bool :=
  ((9 <=? c) && (c <=? 13) || (c =? 32) || (c =? 160) || (c =? 5760)
   || (8192 <=? c) && (c <=? 8202) || (c =? 8232) || (c =? 8233)
   || (c =? 8239) || (c =? 8287) || (c =? 12288) || (c =? 65279))%N.

Definition space : N := 32%N.
Definition newline : N := 10%N.

Fixpoint dropSpaces (s : text) : text :=
  match s with
  | c :: s' => if isSpace c then dropSpaces s' else s
  | [] => []
  end.

(** [s.trim()] *)
Definition trim (s : text) : text :=
  rev (dropSpaces (rev (dropSpaces s))).

(** [s.replace(/\s+/g, ' ')]: every maximal run of white space becomes one
    space; a white-space character is emitted (as a space) exactly when it
    closes its run. *)
Fixpoint collapseSpaces (s : text) : text :=
  match s with
  | [] => []
  | c :: s' =>
      if isSpace c then
        match s' with
        | c' :: _ => if isSpace c' then collapseSpaces s'
                     else space :: collapseSpaces s'
        | [] => [space]
        end
      else c :: collapseSpaces s'
  end.

Definition clamp (s : text) (n : Z) : nat :=
  Z.to_nat (Z.min (Z.max n 0) (length s)).

(** [s.substring(a, b)]: both indices are clamped to [0, s.length] and
    swapped when [a > b]. *)
Definition substring (s : text) (a b : Z) : text :=
  let a' := clamp s a in
  let b' := clamp s b in
  take (Nat.max a' b' - Nat.min a' b') (drop (Nat.min a' b') s).

(** [s.substring(a)] *)
Definition substringFrom (s : text) (a : Z) : text :=
  drop (clamp s a) s.

Fixpoint startsWith (s pat : text) : bool :=
  match pat, s with
  | [], _ => true
  | p :: pat', c :: s' => (p =? c)%N && startsWith s' pat'
  | _ :: _, [] => false
  end.

Fixpoint lastIndexOfFrom (s pat : text) (i best : Z) : Z :=
  match s with
  | [] => if startsWith [] pat then i else best
  | _ :: s' =>
      lastIndexOfFrom s' pat (i + 1) (if startsWith s pat then i else best)
  end.

(** [s.lastIndexOf(pat)]: the greatest index at which [pat] occurs, or -1. *)
Definition lastIndexOf (s pat : text) : Z := lastIndexOfFrom s pat 0 (-1).

(** [s.split('\n')] *)
Fixpoint splitLines (s : text) : list text :=
  match s with
  | [] => [[]]
  | c :: s' =>
      if (c =? newline)%N then [] :: splitLines s'
      else match splitLines s' with
           | l :: ls => (c :: l) :: ls
           | [] => [[c]]
           end
  end.

(** No two adjacent white-space characters. *)
Fixpoint noDoubleSpace (s : text) : Prop :=
  match s with
  | c :: s' =>
      match s' with
      | c' :: _ => isSpace c = false \/ isSpace c' = false
      | [] => True
      end /\ noDoubleSpace s'
  | [] => True
  end.

(** [s.includes(pat)] *)
Fixpoint includes (s pat : text) : bool :=
  startsWith s pat
  || match s with
     | _ :: s' => includes s' pat
     | [] => false
     end.

(** [l.join(sep)] *)
Fixpoint join (sep : text) (l : list text) : text :=
  match l with
  | [] => []
  | [x] => x
  | x :: l' => x ++ sep ++ join sep l'
  end.

(** [x < y] on rationals. *)
Definition Qltb (x y : Q) : bool := negb (Qle_bool y x).

(** [l.slice(a, b)]: a negative index counts from the end. *)
Definition sliceIndex (len i : Z) : Z :=
  if i <? 0 then Z.max (len + i) 0 else Z.min i len.

Definition slice {A : Type} (l : list A) (a b : Z) : list A :=
  let len := Z.of_nat (List.length l) in
  let a' := sliceIndex len a in
  let b' := sliceIndex len b in
  take (Z.to_nat (b' - a')) (drop (Z.to_nat a') l).

(** The outcome of a call that may throw: a value, or the message of the
    error thrown. *)
Inductive Result (A : Type) :=
| Ok (a : A)
| Err (message : text).
Arguments Ok {A} a.
Arguments Err {A} message.

#[global] Instance Result_fmap : FMap Result :=
  fun A B f r =>
    match r with
    | Ok a => Ok (f a)
    | Err e => Err e
    end.

End Js.

(** ** The chunker ([chunkText]) *)

Module Chunker.
Import Js.

Record TextChunk := mkChunk {
  content : text;
  chunkIndex : Z;
  startOffset : Z;
  endOffset : Z;
  section : option text
}.

(** State of the [while] loop of [chunkText]. *)
Record LoopState := mkLoop {
  chunks : list TextChunk;
  currentPosition : Z;
  nextIndex : Z
}.

(** [Math.max(...boundaries)] on a non-empty array. *)
Definition maxOf (b : Z) (bs : list Z) : Z := fold_left Z.max bs b.

(** The cut point of one chunk: the tentative end, moved back to just after
    the last sentence boundary found in the last 200 characters. *)
Definition findEnd (cleanedText : text) (maxChunkSize pos : Z) : Z :=
  let endPosition := Z.min (pos + maxChunkSize) (length cleanedText) in
  if endPosition <? length cleanedText then
    let searchStart := Z.max pos (endPosition - 200) in
    let searchText := substring cleanedText searchStart endPosition in
    let lastPeriod := lastIndexOf searchText (of_string ". ") in
    let lastExclamation := lastIndexOf searchText (of_string "! ") in
    let lastQuestion := lastIndexOf searchText (of_string "? ") in
    let lastNewline := lastIndexOf searchText [newline] in
    let boundaries :=
      map (fun p => searchStart + p + 1)
          (filter (fun p => 0 < p)
             [lastPeriod; lastExclamation; lastQuestion; lastNewline]) in
    match boundaries with
    | b :: bs => maxOf b bs
    | [] => endPosition
    end
  else endPosition.

(** One iteration of the loop body. *)
Definition chunkStep (cleanedText : text) (maxChunkSize overlapSize : Z)
    (st : LoopState) : LoopState :=
  let pos := currentPosition st in
  let endPosition := findEnd cleanedText maxChunkSize pos in
  let chunkContent := trim (substring cleanedText pos endPosition) in
  let pushed :=
    if 0 <? length chunkContent then
      mkLoop (chunks st ++ [mkChunk chunkContent (nextIndex st) pos endPosition None])
             pos (nextIndex st + 1)
    else st in
  let next := endPosition - overlapSize in
  (* [chunks[chunks.length - 1]?.startOffset] is [undefined] on an empty
     array, and [next <= undefined] is false *)
  let stuck :=
    match last (chunks pushed) with
    | Some c => next <=? startOffset c
    | None => false
    end in
  mkLoop (chunks pushed) (if stuck then endPosition else next) (nextIndex pushed).

(** The [while] loop, with fuel: [None] when the fuel runs out before the
    loop condition fails. *)
Fixpoint chunkLoop (fuel : nat) (cleanedText : text)
    (maxChunkSize overlapSize : Z) (st : LoopState) : option (list TextChunk) :=
  if currentPosition st <? length cleanedText then
    match fuel with
    | O => None
    | S fuel' =>
        chunkLoop fuel' cleanedText maxChunkSize overlapSize
          (chunkStep cleanedText maxChunkSize overlapSize st)
    end
  else Some (chunks st).

Definition cleanText (t : text) : text := trim (collapseSpaces t).

Definition chunkText (fuel : nat) (t : text) (maxChunkSize overlapSize : Z)
    : option (list TextChunk) :=
  if length (trim t) =? 0 then Some []
  else
    let cleanedText := cleanText t in
    if length cleanedText <=? maxChunkSize then
      Some [mkChunk cleanedText 0 0 (length cleanedText) None]
    else
      chunkLoop fuel cleanedText maxChunkSize overlapSize (mkLoop [] 0 0).

(** *** Properties of a chunk sequence *)

Definition validSpan (c : TextChunk) : bool := startOffset c <? endOffset c.

(** Each chunk starts no later than the end of the one before it. *)
Fixpoint noGap (prevEnd : Z) (cs : list TextChunk) : bool :=
  match cs with
  | [] => true
  | c :: cs' => (startOffset c <=? prevEnd) && noGap (endOffset c) cs'
  end.

Definition lastEnd (cs : list TextChunk) : option Z := endOffset <$> last cs.

(** The spans start at 0, leave no gap and end at [n]. *)
Definition coversUpTo (n : Z) (cs : list TextChunk) : bool :=
  match cs with
  | [] => false
  | c :: cs' =>
      (startOffset c =? 0) && noGap (endOffset c) cs'
      && bool_decide (lastEnd cs = Some n)
  end.

(** *** The loop invariant of [chunkText] *)

(** A chunk cut from [s]: a non-empty span inside [s] whose content is the
    trimmed piece of [s] between its offsets. *)
Definition chunkOf (s : text) (c : TextChunk) : Prop :=
  0 <= startOffset c < endOffset c /\ endOffset c <= length s
  /\ content c = trim (substring s (startOffset c) (endOffset c))
  /\ content c <> [] /\ section c = None.

Record Inv (s : text) (st : LoopState) : Prop := {
  inv_chunks : Forall (chunkOf s) (chunks st);
  inv_noGap : noGap 0 (chunks st) = true;
  inv_pos : match last (chunks st) with
            | None => currentPosition st = 0
            | Some c => startOffset c < currentPosition st <= endOffset c
            end;
  inv_index : map chunkIndex (chunks st)
              = map Z.of_nat (seq 0 (List.length (chunks st)));
  inv_next : nextIndex st = Z.of_nat (List.length (chunks st))
}.

(** The chunk pushed by the iteration that starts in [st]. *)
Definition pieceAt (s : text) (maxChunkSize : Z) (st : LoopState) : TextChunk :=
  let pos := currentPosition st in
  let e := findEnd s maxChunkSize pos in
  mkChunk (trim (substring s pos e)) (nextIndex st) pos e None.

(** The result of a loop that has run to its end. *)
Definition chunked (s : text) (cs : list TextChunk) : Prop :=
  Forall (chunkOf s) cs
  /\ coversUpTo (length s) cs = true
  /\ map chunkIndex cs = map Z.of_nat (seq 0 (List.length cs)).

(** The defaults of the [options] argument. *)
Definition defaultMaxChunkSize : Z := 1000.
Definition defaultOverlapSize : Z := 100.

(** *** Sample inputs *)

Definition doubleSpaced : text := of_string "a  b".
Definition spacedWords : text := of_string "aaaa  bbbb cccc dddd".
Definition twoLetters : text := of_string "a b".

End Chunker.

(** ** Regular expressions

    A backtracking matcher for the fragment of JavaScript regular
    expressions used by [SECTION_PATTERNS]: character classes, sequence,
    alternation, greedy bounded repetition, capturing groups and the
    multiline anchors. *)

Module Regex.
Import Js.

Inductive re :=
| Chr (p : N -> bool)
| Seq (a b : re)
| Alt (a b : re)
| Rep (a : re) (lo : nat) (hi : option nat)
| Group (i : nat) (a : re)
| Bol
| Eol
| Eps.

(** A position in the subject: the character before it, the characters
    after it, and the captures so far ([None] is [undefined]). *)
Record MState := mkM {
  before : option N;
  rest : text;
  caps : nat -> option text
}.

Definition isLineTerminator (c : N) : bool :=
  ((c =? 10) || (c =? 13) || (c =? 8232) || (c =? 8233))%N.

Definition atLineStart (st : MState) : bool :=
  match before st with
  | None => true
  | Some c => isLineTerminator c
  end.

Definition atLineEnd (st : MState) : bool :=
  match rest st with
  | [] => true
  | c :: _ => isLineTerminator c
  end.

Definition consumed (st st' : MState) : text :=
  take (List.length (rest st) - List.length (rest st')) (rest st).

Definition setCap (i : nat) (v : text) (st : MState) : MState :=
  mkM (before st) (rest st)
      (fun j => if Nat.eqb i j then Some v else caps st j).

Definition underMax (hi : option nat) (n : nat) : bool :=
  match hi with
  | Some h => Nat.ltb n h
  | None => true
  end.

(** [run r st k]: match [r] at [st], then continue with [k]; alternatives
    are tried in the order of a backtracking matcher (left branch first,
    one more iteration first). An iteration that consumes nothing is
    refused, so the repetition ends. *)
Fixpoint run (r : re) (st : MState) (k : MState -> option MState)
    : option MState :=
  match r with
  | Chr p =>
      match rest st with
      | c :: s' => if p c then k (mkM (Some c) s' (caps st)) else None
      | [] => None
      end
  | Seq a b => run a st (fun st' => run b st' k)
  | Alt a b =>
      match run a st k with
      | Some m => Some m
      | None => run b st k
      end
  | Rep a lo hi =>
      (fix iter (fuel n : nat) (st : MState) {struct fuel} : option MState :=
         let stop := if Nat.leb lo n then k st else None in
         match fuel with
         | O => stop
         | S fuel' =>
             if underMax hi n then
               match run a st (fun st' =>
                       if Nat.ltb (List.length (rest st')) (List.length (rest st))
                       then iter fuel' (S n) st' else None) with
               | Some m => Some m
               | None => stop
               end
             else stop
         end) (S (List.length (rest st))) O st
  | Group i a => run a st (fun st' => k (setCap i (consumed st st') st'))
  | Bol => if atLineStart st then k st else None
  | Eol => if atLineEnd st then k st else None
  | Eps => k st
  end.

Fixpoint execFrom (r : re) (prev : option N) (s : text) : option MState :=
  match run r (mkM prev s (fun _ => None)) Some with
  | Some m => Some m
  | None =>
      match s with
      | c :: s' => execFrom r (Some c) s'
      | [] => None
      end
  end.

(** [pattern.exec(s)] with [lastIndex = 0]: the captures of the leftmost
    match. *)
Definition exec (r : re) (s : text) : option (nat -> option text) :=
  caps <$> execFrom r None s.

(** *** Building blocks *)

Definition seqs (rs : list re) (last : re) : re := foldr Seq last rs.
Definition plus (a : re) : re := Rep a 1 None.
Definition star (a : re) : re := Rep a 0 None.
Definition opt (a : re) : re := Rep a 0 (Some 1%nat).

Definition isUpper (c : N) : bool := ((65 <=? c) && (c <=? 90))%N.
Definition isDigit (c : N) : bool := ((48 <=? c) && (c <=? 57))%N.
Definition toLower (c : N) : N := if isUpper c then (c + 32)%N else c.

(** A letter under the [i] flag. *)
Definition ichar (a : Ascii.ascii) : re :=
  Chr (fun c => N.eqb (toLower c) (toLower (code a))).
Definition oneOf (l : string) : N -> bool :=
  fun c => existsb (N.eqb c) (of_string l).
Definition char (l : string) : re := Chr (oneOf l).
Definition ioneOf (l : string) : N -> bool :=
  fun c => existsb (N.eqb (toLower c)) (map toLower (of_string l)).

Fixpoint iword_aux (l : list Ascii.ascii) : re :=
  match l with
  | [] => Eps
  | [a] => ichar a
  | a :: l' => Seq (ichar a) (iword_aux l')
  end.
(** A word under the [i] flag. *)
Definition iword (w : string) : re := iword_aux (String.list_ascii_of_string w).

Definition alts (r : re) (rs : list re) : re := fold_left Alt rs r.

Definition digit : re := Chr isDigit.
Definition ws : re := Chr isSpace.
Definition dot : re := Chr (fun c => negb (isLineTerminator c)).

End Regex.

(** ** The section detector ([detectSections]) *)

Module Sections.
Import Js Regex.

Record DocumentSection := mkSection {
  title : text;
  content : text;
  startOffset : Z;
  endOffset : Z
}.

(** [(\d+|[ivxlcdm]+|one|two|three|four|five|six|seven|eight|nine|ten)] *)
Definition numeral : re :=
  alts (plus digit)
    [plus (Chr (ioneOf "ivxlcdm")); iword "one"; iword "two"; iword "three";
     iword "four"; iword "five"; iword "six"; iword "seven"; iword "eight";
     iword "nine"; iword "ten"].

(** [^(keyword)\s+(number)[:\s\-]*] followed by the optional group 3 on
    [.*] and by [$] *)
Definition keywordHeading (keyword number : re) : re :=
  seqs [Bol; Group 1 keyword; plus ws; Group 2 number;
        star (Chr (fun c => oneOf ":-" c || isSpace c));
        opt (Group 3 (star dot))] Eol.

Definition SECTION_PATTERNS : list re :=
  [ (* /^(#{1,6})\s+(.+)$/gm *)
    seqs [Bol; Group 1 (Rep (char "#") 1 (Some 6%nat)); plus ws;
          Group 2 (plus dot)] Eol;
    (* chapter|chapitre, flags gim *)
    keywordHeading (Alt (iword "chapter") (iword "chapitre")) numeral;
    (* part, flags gim *)
    keywordHeading (iword "part") numeral;
    (* section with the number [\d.]+, flags gim *)
    keywordHeading (iword "section")
      (plus (Chr (fun c => isDigit c || oneOf "." c)));
    (* /^(\d+(?:\.\d+){0,})\s+([A-Z][^\n]+)$/gm *)
    seqs [Bol; Group 1 (Seq (plus digit) (star (Seq (char ".") (plus digit))));
          plus ws;
          Group 2 (Seq (Chr isUpper) (plus (Chr (fun c => negb (c =? newline)%N))))]
         Eol;
    (* /^([A-Z][A-Z\s]{4,50})$/gm *)
    seqs [Bol; Group 1 (Seq (Chr isUpper)
                          (Rep (Chr (fun c => isUpper c || isSpace c)) 4 (Some 50%nat)))]
         Eol ].

Inductive Heading :=
| NoHeading
| IsHeading (headingTitle : text)
| HeadingTypeError.

(** The first matching pattern decides; the title is taken from its
    captures. Reading [match[2].trim()] when group 2 is [undefined] throws a
    [TypeError]. *)
Definition headingOf (m : nat -> option text) (trimmed : text) : Heading :=
  if startsWith trimmed (of_string "#") then
    match m 2%nat with
    | Some g2 => IsHeading (trim g2)
    | None => HeadingTypeError
    end
  else
    match m 3%nat with
    | Some (c :: g3) =>
        IsHeading (trim (default [] (m 1%nat) ++ of_string " "
                         ++ default [] (m 2%nat) ++ of_string ": " ++ c :: g3))
    | _ => IsHeading trimmed
    end.

Fixpoint firstMatch (patterns : list re) (trimmed : text) : Heading :=
  match patterns with
  | [] => NoHeading
  | r :: patterns' =>
      match exec r trimmed with
      | Some m => headingOf m trimmed
      | None => firstMatch patterns' trimmed
      end
  end.

Definition matchHeading (line : text) : Heading :=
  firstMatch SECTION_PATTERNS (trim line).

Record DetectState := mkDetect {
  sections : list DocumentSection;
  currentSection : option DocumentSection;
  currentOffset : Z
}.

(** Closing the open section: it is kept when its trimmed content is not
    empty. *)
Definition closeSection (t : text) (st : DetectState) (lineStart : Z)
    : list DocumentSection :=
  match currentSection st with
  | Some cur =>
      let body := trim (substring t (startOffset cur) lineStart) in
      if 0 <? length body
      then sections st ++ [mkSection (title cur) body (startOffset cur) lineStart]
      else sections st
  | None => sections st
  end.

(** One iteration of the [for] loop over the lines; [None] when the
    iteration throws. *)
Definition lineStep (t : text) (st : DetectState) (line : text)
    : option DetectState :=
  let lineStart := currentOffset st in
  let lineEnd := currentOffset st + length line in
  match matchHeading line with
  | HeadingTypeError => None
  | NoHeading => Some (mkDetect (sections st) (currentSection st) (lineEnd + 1))
  | IsHeading headingTitle =>
      Some (mkDetect (closeSection t st lineStart)
              (Some (mkSection headingTitle [] lineStart (length t)))
              (lineEnd + 1))
  end.

Fixpoint lineLoop (t : text) (st : DetectState) (lines : list text)
    : option DetectState :=
  match lines with
  | [] => Some st
  | line :: lines' =>
      match lineStep t st line with
      | Some st' => lineLoop t st' lines'
      | None => None
      end
  end.

Definition finish (t : text) (st : DetectState) : list DocumentSection :=
  let withLast :=
    match currentSection st with
    | Some cur =>
        let body := trim (substringFrom t (startOffset cur)) in
        if 0 <? length body
        then sections st ++ [mkSection (title cur) body (startOffset cur) (endOffset cur)]
        else sections st
    | None => sections st
    end in
  match withLast with
  | [] => [mkSection (of_string "Document") (trim t) 0 (length t)]
  | _ => withLast
  end.

Definition typeError : text :=
  of_string "Cannot read properties of undefined (reading 'trim')".

(** [detectSections(text)] *)
Definition detectSections (t : text) : Result (list DocumentSection) :=
  match lineLoop t (mkDetect [] None 0) (splitLines t) with
  | Some st => Ok (finish t st)
  | None => Err typeError
  end.

(** *** Structure-aware chunking ([chunkDocument]) *)

(** The chunks of one section, re-based to the document and tagged with
    the section title. *)
Definition rebase (sec : DocumentSection) (globalChunkIndex : Z)
    (sectionChunks : list Chunker.TextChunk) : list Chunker.TextChunk :=
  imap (fun i chunk =>
          Chunker.mkChunk (Chunker.content chunk)
            (globalChunkIndex + Z.of_nat i)
            (startOffset sec + Chunker.startOffset chunk)
            (startOffset sec + Chunker.endOffset chunk)
            (Some (title sec)))
       sectionChunks.

Fixpoint chunkSections (fuel : nat) (maxChunkSize overlapSize : Z)
    (secs : list DocumentSection) (allChunks : list Chunker.TextChunk)
    : option (list Chunker.TextChunk) :=
  match secs with
  | [] => Some allChunks
  | sec :: secs' =>
      match Chunker.chunkText fuel (content sec) maxChunkSize overlapSize with
      | Some sectionChunks =>
          chunkSections fuel maxChunkSize overlapSize secs'
            (allChunks
             ++ rebase sec (Z.of_nat (List.length allChunks)) sectionChunks)
      | None => None
      end
  end.

(** [chunkDocument(text, options)]; [None] when the fuel given to each
    [chunkText] loop runs out. *)
Definition chunkDocument (fuel : nat) (t : text)
    (maxChunkSize overlapSize : Z) (preserveSections : bool)
    : option (Result (list Chunker.TextChunk)) :=
  if length (trim t) =? 0 then Some (Ok [])
  else if length t <=? maxChunkSize then
    Some (Ok [Chunker.mkChunk (trim t) 0 0 (length t) None])
  else if preserveSections then
    match detectSections t with
    | Ok secs => Ok <$> chunkSections fuel maxChunkSize overlapSize secs []
    | Err e => Some (Err e)
    end
  else Ok <$> Chunker.chunkText fuel t maxChunkSize overlapSize.

Definition defaultDocumentChunkSize : Z := 2000.
Definition defaultDocumentOverlap : Z := 200.

(** *** What the specification asks of the sections *)

(** Each section ends where the next one starts. *)
Fixpoint contiguous (prevEnd : Z) (secs : list DocumentSection) : bool :=
  match secs with
  | [] => true
  | sec :: secs' => (startOffset sec =? prevEnd) && contiguous (endOffset sec) secs'
  end.

(** The sections follow each other without gap and end at [n]. *)
Definition contiguousTo (n : Z) (secs : list DocumentSection) : bool :=
  match secs with
  | [] => false
  | sec :: secs' =>
      contiguous (endOffset sec) secs'
      && bool_decide (endOffset <$> last secs = Some n)
  end.

(** The sections start at 0, follow each other without gap and end at the
    end of the text. *)
Definition coversText (t : text) (secs : list DocumentSection) : bool :=
  match secs with
  | [] => false
  | sec :: _ => (startOffset sec =? 0) && contiguousTo (length t) secs
  end.

(** *** The loop invariant of [detectSections] *)

Definition chainOk (secs : list DocumentSection) : Prop :=
  match secs with
  | [] => True
  | sec :: secs' => contiguous (endOffset sec) secs' = true
  end.

(** The open section starts where the last closed one ends, at a heading
    line that is not blank and lies before the current offset. *)
Definition openOk (t : text) (st : DetectState) : Prop :=
  match currentSection st with
  | None => sections st = []
  | Some cur =>
      endOffset cur = length t
      /\ match last (sections st) with
         | Some l => endOffset l = startOffset cur
         | None => True
         end
      /\ exists pre line rest,
           t = pre ++ line ++ rest
           /\ startOffset cur = length pre
           /\ forallb isSpace line = false
           /\ length pre + length line <= currentOffset st
  end.

(** *** Sample inputs *)

(** A line of text, then a heading and its body. *)
Definition withPreamble : text :=
  of_string "intro" ++ [newline] ++ of_string "# Title" ++ [newline]
  ++ of_string "body".

(** One line, holding a carriage return: ["#x"], then ["HELLO WORLD"]. *)
Definition hashThenCaps : text :=
  of_string "#x" ++ [13%N] ++ of_string "HELLO WORLD".

End Sections.

(** ** The embedding orchestrator ([batchGenerateEmbeddings]) *)

Module Embeddings.
Import Js.

(** A JavaScript number: a whole number, a double with a fractional part,
    an infinity or NaN. The whole numbers are idealised: all of them are
    numbers, and their sums and products are exact. Zero is the positive
    one. *)
Inductive JsNumber :=
| Num (z : Z)
| Frac (q : Q)
| PosInfinity
| NegInfinity
| NaN.

(** [floor (log2 a)] for [0 < a]. *)
Definition exponentOf (a : Q) : Z :=
  let k := Z.log2 (Qnum a) - Z.log2 (Z.pos (Qden a)) in
  if Qle_bool (Qpower 2 k) a then k else k - 1.

(** The nearest whole number, a tie going to the even one. *)
Definition roundHalfEven (a : Q) : Z :=
  let f := Qfloor a in
  let r := (a - inject_Z f)%Q in
  if Qltb r (1 # 2) then f
  else if Qltb (1 # 2) r then f + 1
  else if Z.even f then f else f + 1.

(** The number that stores the exact result [x] of an operation: [x]
    itself when it is whole, else the nearest double (53 significant bits,
    exponents from -1022 on, a tie going to the even significand, an
    infinity from [2^1024] on). *)
Definition ofQ (x : Q) : JsNumber :=
  let x := Qred x in
  if (Qden x =? 1)%positive then Num (Qnum x)
  else
    let a := Qabs x in
    let e := Z.max (exponentOf a) (-1022) in
    let m := roundHalfEven (a * Qpower 2 (52 - e)) in
    let r := Qred (inject_Z m * Qpower 2 (e - 52)) in
    if Qle_bool (Qpower 2 1024) r
    then (if Qle_bool 0 x then PosInfinity else NegInfinity)
    else if (Qden r =? 1)%positive then Num (Z.sgn (Qnum x) * Qnum r)
    else Frac (if Qle_bool 0 x then r else Qred (- r)).

(** [Math.ceil(n)] *)
Definition ceilNumber (n : JsNumber) : JsNumber :=
  match n with
  | Frac q => Num (Qceiling q)
  | _ => n
  end.

(** [Math.ceil(len / batchSize)] for a length [len]. For a whole
    [batchSize] the rounding of the quotient does not reach the next whole
    number, and the ceiling is the one of the exact quotient. *)
Definition ceilDiv (len : Z) (batchSize : JsNumber) : JsNumber :=
  match batchSize with
  | Num b =>
      if b =? 0 then (if len =? 0 then NaN else PosInfinity)
      else Num (- ((- len) / b))
  | Frac q => ceilNumber (ofQ (inject_Z len / q))
  | PosInfinity | NegInfinity => Num 0
  | NaN => NaN
  end.

(** [i < n] for the counter [i] of the loop. *)
Definition ltNumber (i : Z) (n : JsNumber) : bool :=
  match n with
  | Num z => i <? z
  | Frac q => Qltb (inject_Z i) q
  | PosInfinity => true
  | NegInfinity | NaN => false
  end.

(** [i * n] for the counter [i] of the loop. *)
Definition mulNumber (i : Z) (n : JsNumber) : JsNumber :=
  match n with
  | Num z => Num (i * z)
  | Frac q => ofQ (inject_Z i * q)
  | PosInfinity =>
      if i =? 0 then NaN else if 0 <? i then PosInfinity else NegInfinity
  | NegInfinity =>
      if i =? 0 then NaN else if 0 <? i then NegInfinity else PosInfinity
  | NaN => NaN
  end.

(** [a + b] *)
Definition addNumber (a b : JsNumber) : JsNumber :=
  match a, b with
  | NaN, _ | _, NaN => NaN
  | PosInfinity, NegInfinity | NegInfinity, PosInfinity => NaN
  | PosInfinity, _ | _, PosInfinity => PosInfinity
  | NegInfinity, _ | _, NegInfinity => NegInfinity
  | Num x, Num y => Num (x + y)
  | Num x, Frac y => ofQ (inject_Z x + y)
  | Frac x, Num y => ofQ (x + inject_Z y)
  | Frac x, Frac y => ofQ (x + y)
  end.

(** [Math.min(n, len)] for a length [len]. *)
Definition minNumber (n : JsNumber) (len : Z) : JsNumber :=
  match n with
  | Num z => Num (Z.min z len)
  | Frac q => if Qltb q (inject_Z len) then Frac q else Num len
  | PosInfinity => Num len
  | NegInfinity => NegInfinity
  | NaN => NaN
  end.

(** [q] without its fraction. *)
Definition truncate (q : Q) : Z := Z.quot (Qnum q) (Z.pos (Qden q)).

(** The index that an argument of [slice] stands for in a list of [len]
    elements: the number loses its fraction, NaN is 0, and a negative
    index counts from the end. *)
Definition sliceIndexOf (len : Z) (n : JsNumber) : Z :=
  match n with
  | Num z => sliceIndex len z
  | Frac q => sliceIndex len (truncate q)
  | PosInfinity => len
  | NegInfinity | NaN => 0
  end.

(** [l.slice(a, b)] for numbers [a] and [b]. *)
Definition sliceNumber {A : Type} (l : list A) (a b : JsNumber) : list A :=
  let len := Z.of_nat (List.length l) in
  let a' := sliceIndexOf len a in
  let b' := sliceIndexOf len b in
  take (Z.to_nat (b' - a')) (drop (Z.to_nat a') l).

Section Batch.
Context {Vec : Type}.
(** [generateEmbeddings(texts, { maxParallelCalls })], the per-batch
    capability. *)
Variable generateEmbeddings : list text -> Z -> Result (list Vec).

(** The [for] loop; [None] when the fuel runs out before the loop ends. The
    progress callback and the pause between batches have no part in the
    result and are left out. *)
Fixpoint batchLoop (fuel : nat) (texts : list text) (batchSize : JsNumber)
    (i : Z) (allEmbeddings : list Vec) : option (Result (list Vec)) :=
  let len := Z.of_nat (List.length texts) in
  if ltNumber i (ceilDiv len batchSize) then
    match fuel with
    | O => None
    | S fuel' =>
        let start := mulNumber i batchSize in
        let end_ := minNumber (addNumber start batchSize) len in
        let batch := sliceNumber texts start end_ in
        match generateEmbeddings batch 5 with
        | Err e => Some (Err e)
        | Ok embeddings =>
            batchLoop fuel' texts batchSize (i + 1) (allEmbeddings ++ embeddings)
        end
    end
  else Some (Ok allEmbeddings).

Definition batchGenerateEmbeddings (fuel : nat) (texts : list text)
    (batchSize : JsNumber) : option (Result (list Vec)) :=
  batchLoop fuel texts batchSize 0 [].

(** What the specification asks of [embed_many]: one vector per text, in
    the order of the texts. *)
Definition embedManySpec (embed : text -> Vec) (texts : list text) : list Vec :=
  map embed texts.

End Batch.

(** [batchSize = 100], the size when the options give none. *)
Definition defaultBatchSize : JsNumber := Num 100.

(** A sample capability: the "vector" of a text is its length. *)
Definition lengthEmbedder (texts : list text) (maxParallelCalls : Z)
    : Result (list Z) :=
  Ok (map length texts).

End Embeddings.

(** ** The content repository *)

Module Repository.
Import Js.

Inductive ContentType := Image | Webpage | Youtube | Document.
Inductive ContentStatus := Pending | Processing | Completed | Failed.

#[global] Instance ContentType_eq_dec : EqDecision ContentType.
Proof. solve_decision. Defined.
#[global] Instance ContentStatus_eq_dec : EqDecision ContentStatus.
Proof. solve_decision. Defined.

(** Values of the [jsonb] metadata column. *)
#[warnings="-register-all"]
Inductive Json :=
| JString (s : text)
| JNumber (z : Z)
| JArray (l : list Json).

Abbreviation Metadata := (list (text * Json)).

(** An embedding, [number[]]; the numbers are idealised as rationals. *)
Abbreviation Vector := (list Q).

(** A row of the [contents] table ([Content]). *)
Module Content.
Record t := mk {
  id : text;
  type : ContentType;
  url : option text;
  fileUrl : option text;
  title : text;
  description : text;
  contentPreview : option text;
  imageUrl : option text;
  status : ContentStatus;
  errorMessage : option text;
  processingAttempts : Z;
  metadata : option Metadata;
  createdAt : Z;
  updatedAt : Z;
  completedAt : option Z
}.
End Content.

(** The values of an insert ([NewContent]): a column with a default may be
    left out ([None]); a nullable column left out is null. *)
Module NewContent.
Record t := mk {
  id : text;
  type : ContentType;
  url : option text;
  fileUrl : option text;
  title : text;
  description : text;
  contentPreview : option text;
  imageUrl : option text;
  status : option ContentStatus;
  errorMessage : option text;
  processingAttempts : option Z;
  metadata : option Metadata;
  createdAt : option Z;
  updatedAt : option Z;
  completedAt : option Z
}.
End NewContent.

(** The columns an update sets ([Partial<Omit<NewContent, 'id'>>]): [None]
    leaves the column as it is; for a nullable column [Some None] sets it
    to null. *)
Module ContentPatch.
Record t := mk {
  type : option ContentType;
  url : option (option text);
  fileUrl : option (option text);
  title : option text;
  description : option text;
  contentPreview : option (option text);
  imageUrl : option (option text);
  status : option ContentStatus;
  errorMessage : option (option text);
  processingAttempts : option Z;
  metadata : option (option Metadata);
  createdAt : option Z;
  completedAt : option (option Z)
}.
End ContentPatch.

(** A row of the [content_chunks] table ([ContentChunk]); its id
    [`chunk_${contentId}_${index}`] is kept as the pair it is built from. *)
Module ContentChunk.
Record t := mk {
  id : text * nat;
  contentId : text;
  content : text;
  embedding : option Vector;
  chunkIndex : Z;
  startOffset : option Z;
  endOffset : option Z;
  section : option text;
  createdAt : Z
}.
End ContentChunk.

(** The values of one chunk to insert
    ([Omit<NewContentChunk, 'id' | 'contentId'>]). *)
Module ChunkData.
Record t := mk {
  chunkIndex : Z;
  content : text;
  embedding : option Vector;
  startOffset : option Z;
  endOffset : option Z;
  section : option text
}.
End ChunkData.

Record Db := mkDb {
  contents : gmap text Content.t;
  contentChunks : list ContentChunk.t
}.

Definition uniqueViolation : text :=
  of_string "duplicate key value violates unique constraint".
Definition foreignKeyViolation : text :=
  of_string "insert or update on table violates foreign key constraint".
Definition negativeLimit : text := of_string "LIMIT must not be negative".

(** [create(data)]: the insert fails when the primary key is taken. *)
Definition create (now : Z) (data : NewContent.t) (db : Db)
    : Result (Content.t * Db) :=
  match contents db !! NewContent.id data with
  | Some _ => Err uniqueViolation
  | None =>
      let row :=
        Content.mk (NewContent.id data) (NewContent.type data)
          (NewContent.url data) (NewContent.fileUrl data)
          (NewContent.title data) (NewContent.description data)
          (NewContent.contentPreview data) (NewContent.imageUrl data)
          (default Pending (NewContent.status data))
          (NewContent.errorMessage data)
          (default 0 (NewContent.processingAttempts data))
          (Some (default [] (NewContent.metadata data)))
          (default now (NewContent.createdAt data))
          (default now (NewContent.updatedAt data))
          (NewContent.completedAt data) in
      Ok (row, mkDb (<[NewContent.id data := row]> (contents db)) (contentChunks db))
  end.

(** [.set({ ...data, updatedAt: new Date() })] on one row. *)
Definition applyPatch (now : Z) (data : ContentPatch.t) (c : Content.t)
    : Content.t :=
  Content.mk (Content.id c)
    (default (Content.type c) (ContentPatch.type data))
    (default (Content.url c) (ContentPatch.url data))
    (default (Content.fileUrl c) (ContentPatch.fileUrl data))
    (default (Content.title c) (ContentPatch.title data))
    (default (Content.description c) (ContentPatch.description data))
    (default (Content.contentPreview c) (ContentPatch.contentPreview data))
    (default (Content.imageUrl c) (ContentPatch.imageUrl data))
    (default (Content.status c) (ContentPatch.status data))
    (default (Content.errorMessage c) (ContentPatch.errorMessage data))
    (default (Content.processingAttempts c) (ContentPatch.processingAttempts data))
    (default (Content.metadata c) (ContentPatch.metadata data))
    (default (Content.createdAt c) (ContentPatch.createdAt data))
    now
    (default (Content.completedAt c) (ContentPatch.completedAt data)).

(** [update(id, data)] *)
Definition update (now : Z) (id : text) (data : ContentPatch.t) (db : Db)
    : option Content.t * Db :=
  (applyPatch now data <$> contents db !! id,
   mkDb (alter (applyPatch now data) id (contents db)) (contentChunks db)).

(** [errorMessage || null]: the empty string is falsy. *)
Definition orNull (errorMessage : option text) : option text :=
  match errorMessage with
  | Some (c :: m) => Some (c :: m)
  | _ => None
  end.

(** The largest value of an [integer] column. *)
Definition int4Max : Z := 2147483647.
Definition integerOutOfRange : text := of_string "integer out of range".

(** The [SET] clause of [updateStatus] on one row. The column
    [processing_attempts] is an [integer]: when [processing_attempts + 1]
    leaves its range the statement fails with ['integer out of range']. *)
Definition setStatus (now : Z) (status : ContentStatus)
    (errorMessage : option text) (c : Content.t) : Result Content.t :=
  if int4Max <? Content.processingAttempts c + 1 then Err integerOutOfRange
  else
    Ok (Content.mk (Content.id c) (Content.type c) (Content.url c)
          (Content.fileUrl c) (Content.title c) (Content.description c)
          (Content.contentPreview c) (Content.imageUrl c)
          status
          (orNull errorMessage)
          (Content.processingAttempts c + 1)
          (Content.metadata c) (Content.createdAt c)
          now
          (if decide (status = Completed) then Some now else None)).

(** [updateStatus(id, status, errorMessage?)]: the row with the id, if
    there is one, is set; a statement that fails changes nothing. *)
Definition updateStatus (now : Z) (id : text) (status : ContentStatus)
    (errorMessage : option text) (db : Db) : Result Db :=
  match contents db !! id with
  | Some c =>
      match setStatus now status errorMessage c with
      | Ok c' => Ok (mkDb (<[id := c']> (contents db)) (contentChunks db))
      | Err e => Err e
      end
  | None => Ok db
  end.

(** [findById(id)] *)
Definition findById (id : text) (db : Db) : option Content.t :=
  contents db !! id.

(** [deleteChunks(contentId)] *)
Definition deleteChunks (contentId : text) (db : Db) : Db :=
  mkDb (contents db)
       (filter (fun r => ContentChunk.contentId r <> contentId) (contentChunks db)).

Definition chunkRows (now : Z) (contentId : text) (chunkData : list ChunkData.t)
    : list ContentChunk.t :=
  imap (fun index chunk =>
          ContentChunk.mk (contentId, index) contentId
            (ChunkData.content chunk) (ChunkData.embedding chunk)
            (ChunkData.chunkIndex chunk) (ChunkData.startOffset chunk)
            (ChunkData.endOffset chunk) (ChunkData.section chunk) now)
       chunkData.

(** [createChunks(contentId, chunkData)]: nothing is sent for an empty
    array; the insert fails when the content row is missing or a chunk id
    is taken. *)
Definition createChunks (now : Z) (contentId : text)
    (chunkData : list ChunkData.t) (db : Db)
    : Result (list ContentChunk.t * Db) :=
  match chunkData with
  | [] => Ok ([], db)
  | _ =>
      let rows := chunkRows now contentId chunkData in
      if bool_decide (contents db !! contentId = None)
      then Err foreignKeyViolation
      else if existsb (fun r => bool_decide
                        (ContentChunk.id r ∈ map ContentChunk.id (contentChunks db)))
                rows
      then Err uniqueViolation
      else Ok (rows, mkDb (contents db) (contentChunks db ++ rows))
  end.

(** *** Vector search ([searchByEmbedding]) *)

Inductive TypeFilter :=
| All
| Only (t : ContentType).

#[global] Instance Qle_decision (x y : Q) : Decision (x <= y)%Q :=
  match Qlt_le_dec y x with
  | left H => right (Qlt_not_le _ _ H)
  | right H => left H
  end.

(** A value of [double precision], what the distance operator returns: a
    number, idealised as a rational, or NaN. *)
Inductive Float8 :=
| Number (q : Q)
| NotANumber.

(** The order of [double precision] in Postgres: NaN equals itself and is
    above every number. *)
Definition ltFloat8 (x y : Float8) : bool :=
  match x, y with
  | Number a, Number b => Qltb a b
  | Number _, NotANumber => true
  | NotANumber, _ => false
  end.

Definition eqFloat8 (x y : Float8) : bool :=
  match x, y with
  | Number a, Number b => Qeq_bool a b
  | NotANumber, NotANumber => true
  | _, _ => false
  end.

Definition leFloat8 (x y : Float8) : Prop := ltFloat8 y x = false.

#[global] Instance leFloat8_decision (x y : Float8) : Decision (leFloat8 x y).
Proof. unfold leFloat8. apply _. Defined.

(** [1 - d] *)
Definition oneMinus (d : Float8) : Float8 :=
  match d with
  | Number q => Number (1 - q)
  | NotANumber => NotANumber
  end.

(** A row of the [ranked_chunks] common table expression, before [rn]. *)
Record RankedChunk := mkRanked {
  content_id : text;
  matched_chunk : text;
  matched_section : option text;
  similarity : Float8;
  distance : Float8
}.

(** A row of the result: the content row with the best chunk. *)
Record SearchResult := mkResult {
  item : Content.t;
  resultSimilarity : Float8;
  matchedChunk : text;
  matchedSection : option text
}.

Section Search.
(** The vector store. [castError]: the error, if there is one, with which
    it refuses the text of the query as a vector ([${embeddingStr}::vector];
    pgvector takes no vector without dimensions). [cosineDistance e q]:
    what [e <=> q] gives, a distance, NaN (pgvector: for a vector of norm
    zero), or the error the operator raises (pgvector: for vectors of
    different dimensions). *)
Variable castError : Vector -> option text.
Variable cosineDistance : Vector -> Vector -> Result Float8.

(** The [WHERE] clause of [ranked_chunks] on one row: the row is left out,
    kept, or makes the statement fail. The operator is not called on a null
    embedding. *)
Definition rankedRow (queryEmbedding : Vector) (threshold : Q)
    (c : ContentChunk.t) : Result (option RankedChunk) :=
  match ContentChunk.embedding c with
  | Some e =>
      match cosineDistance e queryEmbedding with
      | Ok d =>
          if ltFloat8 (Number threshold) (oneMinus d)
          then Ok (Some (mkRanked (ContentChunk.contentId c)
                           (ContentChunk.content c) (ContentChunk.section c)
                           (oneMinus d) d))
          else Ok None
      | Err e => Err e
      end
  | None => Ok None
  end.

(** The rows of [ranked_chunks], in storage order. *)
Fixpoint rankedRows (queryEmbedding : Vector) (threshold : Q)
    (chunks : list ContentChunk.t) : Result (list RankedChunk) :=
  match chunks with
  | [] => Ok []
  | c :: chunks' =>
      match rankedRow queryEmbedding threshold c with
      | Ok r =>
          match rankedRows queryEmbedding threshold chunks' with
          | Ok rows => Ok (match r with
                           | Some row => row :: rows
                           | None => rows
                           end)
          | Err e => Err e
          end
      | Err e => Err e
      end
  end.

Definition samePartition (a b : RankedChunk) : bool :=
  bool_decide (content_id a = content_id b).

(** [ROW_NUMBER() OVER (PARTITION BY content_id ORDER BY distance)] of the
    row [r] at position [i]: one more than the rows of its partition that
    come before it. SQL leaves the order among rows at the same distance
    open; the model keeps them in storage order. *)
Definition rowNumber (rows : list RankedChunk) (i : nat) (r : RankedChunk)
    : nat :=
  S (List.length (List.filter (fun r' => samePartition r' r
                                       && ltFloat8 (distance r') (distance r))
                    rows)
     + List.length (List.filter (fun r' => samePartition r' r
                                   && eqFloat8 (distance r') (distance r))
                 (take i rows))).

Definition rankedChunks (queryEmbedding : Vector) (threshold : Q)
    (chunks : list ContentChunk.t) : Result (list (RankedChunk * nat)) :=
  match rankedRows queryEmbedding threshold chunks with
  | Ok rows => Ok (imap (fun i r => (r, rowNumber rows i r)) rows)
  | Err e => Err e
  end.

Definition typeMatches (type : TypeFilter) (t : Content.t) : bool :=
  match type with
  | All => true
  | Only ty => bool_decide (Content.type t = ty)
  end.

(** [FROM ranked_chunks rc JOIN contents t ON t.id = rc.content_id WHERE
    rc.rn = 1 AND t.status = 'completed' AND t.type = type]: the row [t] is
    found through the primary key. *)
Definition joinRow (db : Db) (type : TypeFilter) (rc : RankedChunk * nat)
    : option SearchResult :=
  match contents db !! content_id rc.1 with
  | Some t =>
      if bool_decide (Content.id t = content_id rc.1)
         && Nat.eqb rc.2 1 && bool_decide (Content.status t = Completed)
         && typeMatches type t
      then Some (mkResult t (similarity rc.1) (matched_chunk rc.1)
                   (matched_section rc.1))
      else None
  | None => None
  end.

(** [ORDER BY rc.similarity DESC] *)
Definition bySimilarityDesc (a b : SearchResult) : Prop :=
  leFloat8 (resultSimilarity b) (resultSimilarity a).

#[global] Instance bySimilarityDesc_decision (a b : SearchResult) :
  Decision (bySimilarityDesc a b).
Proof. unfold bySimilarityDesc. apply _. Defined.

Definition searchByEmbedding (queryEmbedding : Vector) (limit : Z)
    (threshold : Q) (type : TypeFilter) (db : Db)
    : Result (list SearchResult) :=
  match castError queryEmbedding with
  | Some e => Err e
  | None =>
      match rankedChunks queryEmbedding threshold (contentChunks db) with
      | Ok ranked =>
          if limit <? 0 then Err negativeLimit
          else
            Ok (take (Z.to_nat limit)
                  (merge_sort bySimilarityDesc (omap (joinRow db type) ranked)))
      | Err e => Err e
      end
  end.

(** *** What the specification asks of the result *)

(** The chunk [c] has an embedding, and its similarity to the query is
    [s]. *)
Definition similarTo (queryEmbedding : Vector) (c : ContentChunk.t)
    (s : Float8) : Prop :=
  exists e d,
    ContentChunk.embedding c = Some e
    /\ cosineDistance e queryEmbedding = Ok d /\ s = oneMinus d.

(** The row pairs its item with the text and section of a chunk of that
    item whose similarity is above the threshold and is the highest among
    the similarities of the chunks of the item that have an embedding. *)
Definition bestChunk (queryEmbedding : Vector) (threshold : Q) (db : Db)
    (r : SearchResult) : Prop :=
  exists c,
    c ∈ contentChunks db
    /\ ContentChunk.contentId c = Content.id (item r)
    /\ similarTo queryEmbedding c (resultSimilarity r)
    /\ matchedChunk r = ContentChunk.content c
    /\ matchedSection r = ContentChunk.section c
    /\ ltFloat8 (Number threshold) (resultSimilarity r) = true
    /\ (forall s, resultSimilarity r = Number s -> (threshold < s)%Q)
    /\ forall c' s',
         c' ∈ contentChunks db ->
         ContentChunk.contentId c' = Content.id (item r) ->
         similarTo queryEmbedding c' (Number s') ->
         leFloat8 (Number s') (resultSimilarity r).

(** The item is a stored row, completed and of the type asked for. *)
Definition eligibleItem (type : TypeFilter) (db : Db) (t : Content.t) : Prop :=
  contents db !! Content.id t = Some t
  /\ Content.status t = Completed
  /\ typeMatches type t = true.

Definition eligible (type : TypeFilter) (db : Db) (r : SearchResult) : Prop :=
  eligibleItem type db (item r).

(** No item that should be in the result is missing from [rs] without
    cause: an eligible item with a chunk above the threshold is in [rs]
    unless [rs] is full, and then each row of [rs] is at least as similar
    as every chunk of the item. *)
Definition nothingMissing (queryEmbedding : Vector) (limit : Z)
    (threshold : Q) (type : TypeFilter) (db : Db) (rs : list SearchResult)
    : Prop :=
  forall t c s,
    eligibleItem type db t ->
    c ∈ contentChunks db ->
    ContentChunk.contentId c = Content.id t ->
    similarTo queryEmbedding c s ->
    ltFloat8 (Number threshold) s = true ->
    Content.id t ∈ map (fun r => Content.id (item r)) rs
    \/ (Z.of_nat (List.length rs) = limit
        /\ forall s', similarTo queryEmbedding c (Number s') ->
             Forall (fun r => leFloat8 (Number s') (resultSimilarity r)) rs).

(** The vector store answers: it takes the query, and the distance of the
    query to every embedding of the table is defined. *)
Definition storeAnswers (queryEmbedding : Vector) (db : Db) : Prop :=
  castError queryEmbedding = None
  /\ Forall (fun c => forall e, ContentChunk.embedding c = Some e ->
                        exists d, cosineDistance e queryEmbedding = Ok d)
       (contentChunks db).

End Search.

Definition defaultLimit : Z := 20.
Definition defaultThreshold : Q := 3 # 10.

End Repository.

(** ** The content service *)

Module Service.
Import Js Repository.

(** Calls that leave the process. *)
Inductive Event :=
| EvUploadImage
| EvAnalyzeImage
| EvExtractWeb (url : text)
| EvExtractYoutube (url : text)
| EvEmbedMany (texts : list text)
| EvCreate (id : text) (status : option ContentStatus)
| EvUpdate (id : text)
| EvUpdateStatus (id : text) (status : ContentStatus)
| EvFindById (id : text)
| EvDeleteChunks (id : text)
| EvCreateChunks (id : text).

(** The database, the number of statements sent to it so far, and the
    calls made so far. *)
Record World := mkWorld {
  db : Db;
  statements : nat;
  log : list Event
}.

Record ExtractedMetadata := mkExtractedMetadata {
  domain : text;
  favicon : option text;
  author : option text;
  channel : option text;
  videoId : option text
}.

(** [WebContent | YouTubeContent] *)
Record ExtractedContent := mkExtracted {
  extractedTitle : text;
  extractedDescription : text;
  extractedContent : text;
  thumbnail : option text;
  extractedMetadata : ExtractedMetadata
}.

Record ImageMetadata := mkImageMetadata {
  imageTitle : text;
  imageDescription : text;
  tags : list text
}.

Record ProcessImageInput := mkImageInput {
  buffer : list N;
  filename : text;
  contentType : text;
  context : option text
}.

Record ProcessImageOutput := mkImageOutput {
  success : bool;
  outContentId : text;
  outTitle : option text;
  error : option text
}.

Record ProcessUrlInput := mkUrlInput {
  inputUrl : text;
  userNote : option text
}.

Record ProcessUrlOutput := mkUrlOutput {
  urlContentId : text;
  urlType : ContentType;
  urlTitle : text;
  urlDescription : text;
  urlUrl : option text;
  urlImageUrl : option text;
  chunksCreated : Z
}.

(** What the service reaches outside itself: the clock, the id generator,
    the collaborators, and the faults of the database (the error with which
    it rejects its n-th statement, if it does). *)
Record Env := mkEnv {
  now : Z;
  nanoid : text;
  dbFault : nat -> option text;
  uploadImage : list N -> text -> Result text;
  analyze : list N -> text -> option text -> Result ImageMetadata;
  extractWeb : text -> Result ExtractedContent;
  extractYoutube : text -> Result ExtractedContent;
  embedMany : list text -> Z -> Result (list Vector)
}.

(** A computation that changes the world and returns or throws. *)
Definition M (A : Type) : Type := World -> Result A * World.

Definition ret {A : Type} (a : A) : M A := fun w => (Ok a, w).
Definition throw {A : Type} (message : text) : M A := fun w => (Err message, w).
Definition bind {A B : Type} (m : M A) (k : A -> M B) : M B :=
  fun w =>
    match m w with
    | (Ok a, w') => k a w'
    | (Err e, w') => (Err e, w')
    end.
(** [try { m } catch (error) { handler }] *)
Definition tryCatch {A : Type} (m : M A) (handler : text -> M A) : M A :=
  fun w =>
    match m w with
    | (Ok a, w') => (Ok a, w')
    | (Err e, w') => handler e w'
    end.

Declare Scope service_scope.
Delimit Scope service_scope with M.
Notation "'let!' x ':=' m 'in' k" := (bind m (fun x => k))
  (at level 10, x name, m at level 100, k at level 200) : service_scope.
Local Open Scope service_scope.

(** [`${a}${b}`] *)
Definition cat (l : list text) : text := concat l.

(** [a || b] on strings: the empty string is falsy. *)
Definition orElse (a b : text) : text :=
  match a with
  | [] => b
  | _ => a
  end.

(** [getErrorMessage(error)] for an [Error] with the given message. *)
Definition getErrorMessage (message : text) : text :=
  if 500 <? length message
  then substring message 0 500 ++ of_string "..."
  else message.

(** [SENSITIVE_PATTERNS] *)
Definition SENSITIVE_PATTERNS : list Regex.re :=
  [ Regex.iword "failed query:";
    Regex.iword "insert into";
    Regex.Seq (Regex.iword "select ")
      (Regex.Seq (Regex.star Regex.dot) (Regex.iword " from"));
    Regex.Seq (Regex.iword "update ")
      (Regex.Seq (Regex.star Regex.dot) (Regex.iword " set"));
    Regex.iword "delete from";
    Regex.iword "params:";
    Regex.iword "postgresql";
    Regex.iword "pg_";
    Regex.iword "connection refused";
    Regex.iword "econnrefused" ].

(** [getSafeErrorMessage(error)] *)
Definition getSafeErrorMessage (message : text) : text :=
  if existsb (fun pattern =>
                bool_decide (is_Some (Regex.exec pattern (getErrorMessage message))))
       SENSITIVE_PATTERNS
  then of_string "An internal error occurred. Please try again later."
  else getErrorMessage message.

(** What a route answers: the HTTP status and the body, either
    [successResponse(data)] or [errorResponse(error)]. *)
Record Response := mkResponse {
  httpStatus : Z;
  body : Result Z
}.

(** [webExtractionService.isYouTubeUrl(url)] *)
Definition isYouTubeUrl (url : text) : bool :=
  includes url (of_string "youtube.com/watch")
  || includes url (of_string "youtu.be/").

Definition toChunkData (embeddings : list Vector)
    (textChunks : list Chunker.TextChunk) : list ChunkData.t :=
  imap (fun i chunk =>
          ChunkData.mk (Chunker.chunkIndex chunk) (Chunker.content chunk)
            (embeddings !! i)
            (Some (Chunker.startOffset chunk)) (Some (Chunker.endOffset chunk))
            (Chunker.section chunk))
       textChunks.

Definition optField (name : string) (v : option text) : Metadata :=
  match v with
  | Some x => [(of_string name, JString x)]
  | None => []
  end.

Definition urlMetadata (m : ExtractedMetadata) : Metadata :=
  [(of_string "domain", JString (domain m))]
  ++ optField "favicon" (favicon m) ++ optField "author" (author m)
  ++ optField "channel" (channel m) ++ optField "videoId" (videoId m).

Definition newline1 : text := [newline].

(** The loops of [chunkText] get as much fuel as the text has characters
    (enough: [ServiceFacts.chunkTextDefault_spec] and
    [ServiceFacts.chunkDocumentDefault_spec]). *)
Definition fuelFor (t : text) : nat := List.length t.

(** [chunkText(fullText)] with the default options *)
Definition chunkTextDefault (fullText : text) : list Chunker.TextChunk :=
  default [] (Chunker.chunkText (fuelFor fullText) fullText
                Chunker.defaultMaxChunkSize Chunker.defaultOverlapSize).

(** [chunkDocument(fullText)] with the default options *)
Definition chunkDocumentDefault (fullText : text)
    : Result (list Chunker.TextChunk) :=
  default (Ok [])
    (Sections.chunkDocument (fuelFor fullText) fullText
       Sections.defaultDocumentChunkSize Sections.defaultDocumentOverlap true).

(** [fullText.length > 5000 ? chunkDocument(fullText) : chunkText(fullText)] *)
Definition chunkFullText (fullText : text) : M (list Chunker.TextChunk) :=
  if 5000 <? length fullText then
    match chunkDocumentDefault fullText with
    | Ok cs => ret cs
    | Err e => throw e
    end
  else ret (chunkTextDefault fullText).

Section WithEnv.
Variable env : Env.

(** One statement sent to the database. *)
Definition statement {A : Type} (ev : Event) (run : Db -> Result (A * Db))
    : M A :=
  fun w =>
    let sent := mkWorld (db w) (S (statements w)) (log w ++ [ev]) in
    match dbFault env (statements w) with
    | Some e => (Err e, sent)
    | None =>
        match run (db w) with
        | Ok (a, db') => (Ok a, mkWorld db' (S (statements w)) (log w ++ [ev]))
        | Err e => (Err e, sent)
        end
    end.

(** One call to a collaborator. *)
Definition call {A : Type} (ev : Event) (r : Result A) : M A :=
  fun w => (r, mkWorld (db w) (statements w) (log w ++ [ev])).

Definition createM (data : NewContent.t) : M Content.t :=
  statement (EvCreate (NewContent.id data) (NewContent.status data))
    (create (now env) data).

Definition updateM (id : text) (data : ContentPatch.t) : M (option Content.t) :=
  statement (EvUpdate id) (fun d => Ok (update (now env) id data d)).

Definition updateStatusM (id : text) (status : ContentStatus)
    (errorMessage : option text) : M unit :=
  statement (EvUpdateStatus id status)
    (fun d => match updateStatus (now env) id status errorMessage d with
              | Ok d' => Ok (tt, d')
              | Err e => Err e
              end).

Definition findByIdM (id : text) : M (option Content.t) :=
  statement (EvFindById id) (fun d => Ok (findById id d, d)).

Definition deleteChunksM (contentId : text) : M unit :=
  statement (EvDeleteChunks contentId) (fun d => Ok (tt, deleteChunks contentId d)).

(** [createChunks] sends nothing for an empty array. *)
Definition createChunksM (contentId : text) (chunkData : list ChunkData.t)
    : M (list ContentChunk.t) :=
  match chunkData with
  | [] => ret []
  | _ => statement (EvCreateChunks contentId)
           (createChunks (now env) contentId chunkData)
  end.

(** [generateEmbeddings(texts)]: the provider's error is wrapped. *)
Definition generateEmbeddings (texts : list text) : M (list Vector) :=
  tryCatch (call (EvEmbedMany texts) (embedMany env texts 5))
    (fun error =>
       throw (of_string "Failed to generate embeddings: " ++ getErrorMessage error)).

Definition extractContent (isYouTube : bool) (url : text) : M ExtractedContent :=
  if isYouTube then call (EvExtractYoutube url) (extractYoutube env url)
  else call (EvExtractWeb url) (extractWeb env url).

Definition newImageId : text := of_string "img_" ++ nanoid env.
Definition newUrlId : text := of_string "url_" ++ nanoid env.

(** The [try] block of [processImage]. *)
Definition processImageSteps (input : ProcessImageInput) : M ProcessImageOutput :=
  let contentId := newImageId in
  let! blobUrl := call EvUploadImage
                    (uploadImage env (buffer input) (contentType input)) in
  let! metadata := call EvAnalyzeImage
                     (analyze env (buffer input) (contentType input) (context input)) in
  let title := orElse (imageTitle metadata) (filename input) in
  let description := orElse (imageDescription metadata) (of_string "Image uploaded") in
  let! content := createM
    {| NewContent.id := contentId;
       NewContent.type := Image;
       NewContent.url := None;
       NewContent.fileUrl := None;
       NewContent.title := title;
       NewContent.description := description;
       NewContent.contentPreview := Some (substring description 0 500);
       NewContent.imageUrl := Some blobUrl;
       NewContent.status := Some Completed;
       NewContent.errorMessage := None;
       NewContent.processingAttempts := None;
       NewContent.metadata :=
         Some ([(of_string "tags", JArray (map JString (tags metadata)))]
               ++ optField "context" (context input)
               ++ [(of_string "originalFilename", JString (filename input));
                   (of_string "fileSize", JNumber (length (buffer input)))]);
       NewContent.createdAt := None;
       NewContent.updatedAt := None;
       NewContent.completedAt := None |} in
  let textForEmbedding :=
    cat [title; newline1; description; newline1;
         join (of_string " ") (tags metadata)] in
  let textChunks := chunkTextDefault textForEmbedding in
  let! embeddings := generateEmbeddings (map Chunker.content textChunks) in
  let! _ := createChunksM contentId (toChunkData embeddings textChunks) in
  ret (mkImageOutput true contentId (Some (Content.title content)) None).

Definition failedImageRecord (input : ProcessImageInput) (errorMsg : text)
    : NewContent.t :=
  {| NewContent.id := newImageId;
     NewContent.type := Image;
     NewContent.url := None;
     NewContent.fileUrl := None;
     NewContent.title := filename input;
     NewContent.description := of_string "Failed to process";
     NewContent.contentPreview := None;
     NewContent.imageUrl := None;
     NewContent.status := Some Failed;
     NewContent.errorMessage := Some errorMsg;
     NewContent.processingAttempts := None;
     NewContent.metadata :=
       Some [(of_string "originalFilename", JString (filename input))];
     NewContent.createdAt := None;
     NewContent.updatedAt := None;
     NewContent.completedAt := None |}.

(** The inner [try]/[catch] of a [catch] block: the failure record is
    written, and an error of that write is logged and dropped. *)
Definition recordFailure (record : NewContent.t) : M unit :=
  tryCatch (let! _ := createM record in ret tt) (fun recordError => ret tt).

(** [processImage(input)] *)
Definition processImage (input : ProcessImageInput) : M ProcessImageOutput :=
  tryCatch (processImageSteps input)
    (fun error =>
       let errorMsg := getErrorMessage error in
       let! _ := recordFailure (failedImageRecord input errorMsg) in
       ret (mkImageOutput false newImageId None (Some errorMsg))).

Definition failedUrlRecord (isYouTube : bool) (url errorMsg : text)
    : NewContent.t :=
  {| NewContent.id := newUrlId;
     NewContent.type := if isYouTube then Youtube else Webpage;
     NewContent.url := Some url;
     NewContent.fileUrl := None;
     NewContent.title := of_string "Failed to process";
     NewContent.description := of_string "Content extraction failed";
     NewContent.contentPreview := None;
     NewContent.imageUrl := None;
     NewContent.status := Some Failed;
     NewContent.errorMessage := Some errorMsg;
     NewContent.processingAttempts := None;
     NewContent.metadata := Some [];
     NewContent.createdAt := None;
     NewContent.updatedAt := None;
     NewContent.completedAt := None |}.

(** The text of a page that is chunked: the user's note, when there is one,
    then title, description and content, one per line. *)
Definition fullTextOf (userNote : option text) (title description content : text)
    : text :=
  let body := cat [title; newline1; description; newline1; content] in
  match userNote with
  | Some (c :: note) => cat [c :: note; newline1; body]
  | _ => body
  end.

(** The [try] block of [processUrl]. *)
Definition processUrlSteps (input : ProcessUrlInput) : M ProcessUrlOutput :=
  let contentId := newUrlId in
  let isYouTube := isYouTubeUrl (inputUrl input) in
  let! extracted := extractContent isYouTube (inputUrl input) in
  let title := orElse (extractedTitle extracted) (of_string "Untitled") in
  let description := extractedDescription extracted in
  let! content := createM
    {| NewContent.id := contentId;
       NewContent.type := if isYouTube then Youtube else Webpage;
       NewContent.url := Some (inputUrl input);
       NewContent.fileUrl := None;
       NewContent.title := title;
       NewContent.description := description;
       NewContent.contentPreview :=
         Some (substring (extractedContent extracted) 0 500);
       NewContent.imageUrl := thumbnail extracted;
       NewContent.status := Some Completed;
       NewContent.errorMessage := None;
       NewContent.processingAttempts := None;
       NewContent.metadata := Some (urlMetadata (extractedMetadata extracted));
       NewContent.createdAt := None;
       NewContent.updatedAt := None;
       NewContent.completedAt := None |} in
  let fullText :=
    fullTextOf (userNote input) title description
      (extractedContent extracted) in
  let! textChunks := chunkFullText fullText in
  let! embeddings := generateEmbeddings (map Chunker.content textChunks) in
  let! _ := createChunksM contentId (toChunkData embeddings textChunks) in
  ret (mkUrlOutput (Content.id content) (Content.type content)
         (Content.title content) (Content.description content)
         (Content.url content) (Content.imageUrl content)
         (Z.of_nat (List.length textChunks))).

(** [processUrl(input)] *)
Definition processUrl (input : ProcessUrlInput) : M ProcessUrlOutput :=
  tryCatch (processUrlSteps input)
    (fun error =>
       let errorMsg := getErrorMessage error in
       let! _ := recordFailure
                   (failedUrlRecord (isYouTubeUrl (inputUrl input))
                      (inputUrl input) errorMsg) in
       throw (of_string "Failed to process URL: " ++ errorMsg)).

(** The part of [retryFailedContent] inside its [try] block. *)
Definition retryPipeline (contentId url : text) : M Z :=
  let isYouTube := isYouTubeUrl url in
  let! extracted := extractContent isYouTube url in
  let! _ := updateM contentId
    {| ContentPatch.type := None;
       ContentPatch.url := None;
       ContentPatch.fileUrl := None;
       ContentPatch.title := Some (extractedTitle extracted);
       ContentPatch.description := Some (extractedDescription extracted);
       ContentPatch.contentPreview :=
         Some (Some (substring (extractedContent extracted) 0 500));
       ContentPatch.imageUrl := Some (thumbnail extracted);
       ContentPatch.status := Some Completed;
       ContentPatch.errorMessage := Some None;
       ContentPatch.processingAttempts := None;
       ContentPatch.metadata :=
         Some (Some (urlMetadata (extractedMetadata extracted)));
       ContentPatch.createdAt := None;
       ContentPatch.completedAt := None |} in
  let! _ := deleteChunksM contentId in
  let fullText :=
    fullTextOf None (extractedTitle extracted)
      (extractedDescription extracted) (extractedContent extracted) in
  let! textChunks := chunkFullText fullText in
  let! embeddings := generateEmbeddings (map Chunker.content textChunks) in
  let! _ := createChunksM contentId (toChunkData embeddings textChunks) in
  ret (Z.of_nat (List.length textChunks)).

(** [!content.url] is false exactly for a non-empty string. *)
Definition sourceUrl (content : Content.t) : option text :=
  match Content.url content with
  | Some (c :: u) => Some (c :: u)
  | _ => None
  end.

(** The [catch] block of [retryFailedContent]. *)
Definition retryFailed (contentId : text) (error : text) : M Z :=
  let errorMsg := getErrorMessage error in
  let! _ := updateStatusM contentId Failed (Some errorMsg) in
  throw (of_string "Failed to retry content: " ++ errorMsg).

(** What [retryFailedContent] does with the row it has looked up. *)
Definition retryFound (contentId : text) (found : option Content.t) : M Z :=
  match found with
  | None => throw (of_string "Content not found")
  | Some content =>
      if negb (bool_decide (Content.status content = Failed))
      then throw (of_string "Content is not in failed state")
      else
        match bool_decide (Content.type content = Image), sourceUrl content with
        | false, Some url =>
            let! _ := updateStatusM contentId Processing None in
            tryCatch (retryPipeline contentId url) (retryFailed contentId)
        | _, _ => throw (of_string "Image content requires re-upload to retry")
        end
  end.

(** [retryFailedContent(contentId)] *)
Definition retryFailedContent (contentId : text) : M Z :=
  let! found := findByIdM contentId in
  retryFound contentId found.

(** The [catch] block of the retry inside the route. *)
Definition routeRetryFailed (id : text) (error : text) : M Response :=
  let! _ := updateStatusM id Failed (Some (getErrorMessage error)) in
  ret (mkResponse 500 (Err (getSafeErrorMessage error))).

(** What the retry route does with the row it has looked up. *)
Definition routeFound (id : text) (found : option Content.t) : M Response :=
  match found with
  | None => ret (mkResponse 404 (Err (of_string "Content not found")))
  | Some content =>
      if negb (bool_decide (Content.status content = Failed))
      then ret (mkResponse 400 (Err (of_string "Content is not in failed state")))
      else
        match bool_decide (Content.type content = Image), sourceUrl content with
        | false, Some url =>
            let! _ := updateStatusM id Processing None in
            tryCatch
              (let! chunksCreated := retryPipeline id url in
               ret (mkResponse 200 (Ok chunksCreated)))
              (routeRetryFailed id)
        | _, _ =>
            ret (mkResponse 200
                   (Err (of_string "Image content requires re-upload to retry")))
        end
  end.

(** The outer [catch] block of a route. *)
Definition routeError (error : text) : M Response :=
  ret (mkResponse 500 (Err (getSafeErrorMessage error))).

(** The retry route of the URL controller ([POST /retry/:id]), which
    carries its own copy of the retry. *)
Definition retryRoute (id : text) : M Response :=
  tryCatch (let! found := findByIdM id in routeFound id found) routeError.

End WithEnv.

(** *** Observations on a run *)

(** The calls made between the worlds [w] and [w']. *)
Definition newEvents (w w' : World) : list Event :=
  drop (List.length (log w)) (log w').

Definition isExtraction (ev : Event) : bool :=
  match ev with
  | EvExtractWeb _ | EvExtractYoutube _ => true
  | _ => false
  end.

(** The content was fetched again between [w] and [w']. *)
Definition reprocessed (w w' : World) : bool :=
  existsb isExtraction (newEvents w w').

(** When a retry is permitted, in the words of the specification: the item
    exists, its status is failed, it is not an image and has a source URL. *)
Definition retryPermitted (found : option Content.t) : bool :=
  match found with
  | Some content =>
      bool_decide (Content.status content = Failed)
      && negb (bool_decide (Content.type content = Image))
      && match Content.url content with
         | Some url => negb (bool_decide (url = []))
         | None => false
         end
  | None => false
  end.

(** The HTTP status with which the retry route turns a retry down. *)
Definition rejectionStatus (found : option Content.t) : Z :=
  match found with
  | None => 404
  | Some content =>
      if bool_decide (Content.status content = Failed) then 200 else 400
  end.

(** The error of a retry that is not permitted. *)
Definition rejection (found : option Content.t) : text :=
  match found with
  | None => of_string "Content not found"
  | Some content =>
      if bool_decide (Content.status content = Failed)
      then of_string "Image content requires re-upload to retry"
      else of_string "Content is not in failed state"
  end.

(** Every completed item has its completion time. *)
Definition completedHaveTimestamp (d : Db) : Prop :=
  map_Forall (fun _ c => Content.status c = Completed ->
                         is_Some (Content.completedAt c)) (contents d).

End Service.

(** ** Sample data *)

Module Samples.
Import Js Repository Service.

Definition failedPage : Content.t :=
  Content.mk (of_string "url_1") Webpage (Some (of_string "https://example.com/a"))
    None (of_string "Failed to process") (of_string "Content extraction failed")
    None None Failed (Some (of_string "timeout")) 2 (Some []) 10 10 None.

Definition oneFailedPage : Db :=
  mkDb {[ of_string "url_1" := failedPage ]} [].

(** The same item after 2147483647 attempts. *)
Definition wornPage : Content.t :=
  Content.mk (of_string "url_1") Webpage (Some (of_string "https://example.com/a"))
    None (of_string "Failed to process") (of_string "Content extraction failed")
    None None Failed (Some (of_string "timeout")) 2147483647 (Some []) 10 10
    None.

Definition oneWornPage : Db :=
  mkDb {[ of_string "url_1" := wornPage ]} [].

Definition emptyWorld : World := mkWorld (mkDb ∅ []) 0 [].

Definition page : ExtractedContent :=
  mkExtracted (of_string "A page") (of_string "About things")
    (of_string "Hello world. This is a test.") None
    (mkExtractedMetadata (of_string "example.com") None None None None).

Definition picture : ImageMetadata :=
  mkImageMetadata (of_string "A cat") (of_string "A cat on a mat")
    [of_string "cat"; of_string "mat"].

(** Every collaborator answers and the database takes every statement. *)
Definition fairWeather : Env :=
  mkEnv 1000 (of_string "abc") (fun _ => None)
    (fun _ _ => Ok (of_string "https://blob/1.png"))
    (fun _ _ _ => Ok picture)
    (fun _ => Ok page)
    (fun _ => Ok page)
    (fun texts _ => Ok (map (fun t => [inject_Z (length t)]) texts)).

(** The embedding provider fails. *)
Definition providerDown : Env :=
  mkEnv 1000 (of_string "abc") (fun _ => None)
    (fun _ _ => Ok (of_string "https://blob/1.png"))
    (fun _ _ _ => Ok picture)
    (fun _ => Ok page)
    (fun _ => Ok page)
    (fun _ _ => Err (of_string "quota exceeded")).

(** The page cannot be fetched. *)
Definition siteDown : Env :=
  mkEnv 1000 (of_string "abc") (fun _ => None)
    (fun _ _ => Ok (of_string "https://blob/1.png"))
    (fun _ _ _ => Err (of_string "vision model unavailable"))
    (fun _ => Err (of_string "fetch failed"))
    (fun _ => Err (of_string "fetch failed"))
    (fun texts _ => Ok (map (fun t => [inject_Z (length t)]) texts)).

(** The page cannot be fetched, and the database rejects every statement
    after the first two. *)
Definition siteDownThenDbDown : Env :=
  mkEnv 1000 (of_string "abc")
    (fun n => if Nat.ltb n 2 then None else Some (of_string "connection refused"))
    (fun _ _ => Ok (of_string "https://blob/1.png"))
    (fun _ _ _ => Err (of_string "vision model unavailable"))
    (fun _ => Err (of_string "fetch failed"))
    (fun _ => Err (of_string "fetch failed"))
    (fun texts _ => Ok (map (fun t => [inject_Z (length t)]) texts)).

Definition examplePage : ProcessUrlInput :=
  mkUrlInput (of_string "https://example.com/a") None.

Definition exampleImage : ProcessImageInput :=
  mkImageInput [1%N; 2%N; 3%N] (of_string "cat.png") (of_string "image/png") None.

Definition worldWithFailedPage : World := mkWorld oneFailedPage 0 [].

(** A vector store for examples. A query without dimensions is refused;
    vectors of different dimensions have no distance; an embedding holds,
    as its first number, its distance to every query, and a first number 0
    stands for a vector of norm zero, whose distance is not a number. *)
Definition noDimensions (q : Vector) : option text :=
  match q with
  | [] => Some (of_string "vector must have at least 1 dimension")
  | _ => None
  end.

Definition firstNumber (e q : Vector) : Result Float8 :=
  if negb (Nat.eqb (List.length e) (List.length q))
  then Err (of_string "different vector dimensions")
  else
    match e with
    | x :: _ => if Qeq_bool x 0 then Ok NotANumber else Ok (Number x)
    | [] => Ok NotANumber
    end.

Definition article (id : string) (type : ContentType) (status : ContentStatus)
    : Content.t :=
  Content.mk (of_string id) type None None (of_string "An article")
    (of_string "About things") None None status None 0 (Some []) 10 10 None.

Definition piece (id : string) (index : nat) (body : string)
    (embedding : option Vector) : ContentChunk.t :=
  ContentChunk.mk (of_string id, index) (of_string id) (of_string body)
    embedding (Z.of_nat index) None None None 10.

(** Item [a] has chunks of similarity 0.9 and 0.4, the image [b] one of
    0.95, and [c], which is still processing, one of 0.99. *)
Definition library : Db :=
  mkDb (<[of_string "a" := article "a" Webpage Completed]>
          (<[of_string "b" := article "b" Image Completed]>
             {[ of_string "c" := article "c" Webpage Processing ]}))
       [piece "a" 0 "weak" (Some [6 # 10]);
        piece "a" 1 "strong" (Some [1 # 10]);
        piece "a" 2 "pending" None;
        piece "b" 0 "picture" (Some [5 # 100]);
        piece "c" 0 "draft" (Some [1 # 100])].

End Samples.

(** ** The shape of the chunks of [chunkText] *)

Module ChunkShape.
Import Js Chunker.

(** A chunk as [chunkText] cuts it with the window [maxChunkSize]: its
    content is not empty, is trimmed and is no longer than its span, the span
    is no longer than the window, and the chunk carries no section. *)
Definition wellCut (maxChunkSize : Z) (c : TextChunk) : Prop :=
  content c <> [] /\ trim (content c) = content c
  /\ length (content c) <= endOffset c - startOffset c
  /\ endOffset c - startOffset c <= maxChunkSize
  /\ section c = None.

(** Each chunk starts after the start of the chunk before it, and at most
    [overlapSize] characters before the end of that chunk. *)
Fixpoint overlapsBy (overlapSize : Z) (cs : list TextChunk) : Prop :=
  match cs with
  | c :: cs' =>
      match cs' with
      | c' :: _ =>
          startOffset c < startOffset c'
          /\ endOffset c - overlapSize <= startOffset c' <= endOffset c
      | [] => True
      end /\ overlapsBy overlapSize cs'
  | [] => True
  end.

(** What the loop of [chunkText] keeps besides [Inv]. *)
Definition Shape (maxChunkSize overlapSize : Z) (st : LoopState) : Prop :=
  Forall (wellCut maxChunkSize) (chunks st)
  /\ overlapsBy overlapSize (chunks st)
  /\ match last (chunks st) with
     | Some c =>
         currentPosition st = endOffset c - overlapSize
         \/ currentPosition st = endOffset c
            /\ endOffset c - overlapSize <= startOffset c
     | None => True
     end.

(** A few short sentences. *)
Definition sentences : text :=
  of_string "One two. Three four. Five six. Seven eight.".

End ChunkShape.

(** ** Preparing a text for the embedding model ([prepareTextForEmbedding]) *)

Module Preparation.
Import Js.

(** [prepareTextForEmbedding(text, maxLength)], for an integral
    [maxLength]: on integers [lastPeriod > maxLength * 0.8] is
    [5 * lastPeriod > 4 * maxLength] (the product with the double nearest to
    0.8 rounds to [4 * maxLength / 5] when that is an integer, and lies
    strictly between two integers otherwise). *)
Definition prepareTextForEmbedding (t : text) (maxLength : Z) : text :=
  let cleaned := Chunker.cleanText t in
  if maxLength <? length cleaned then
    let cut := substring cleaned 0 maxLength in
    let lastPeriod := lastIndexOf cut (of_string ".") in
    if 4 * maxLength <? 5 * lastPeriod
    then substring cut 0 (lastPeriod + 1)
    else cut
  else cleaned.

Definition defaultMaxLength : Z := 10000.

Definition period : N := 46%N.

(** Two sentences, the first of which ends at the ninth of its characters. *)
Definition twoSentences : text := of_string "  One  two.   Three four five  ".

End Preparation.

(** ** Ranking candidates by similarity ([findMostSimilar]) *)

Module Ranking.
Import Js Repository.

(** [SimilarityMatch]; [index] is a position in the array of candidates. *)
Record SimilarityMatch := mkMatch {
  index : nat;
  similarity : Q
}.

Section FindMostSimilar.

(** [cosineSimilarity] of the [ai] package, which throws on vectors of
    different lengths; its value is idealised as a rational. *)
Variable cosineSimilarity : Vector -> Vector -> Result Q.

(** [calculateSimilarity(embedding1, embedding2)] *)
Definition calculateSimilarity (embedding1 embedding2 : Vector) : Result Q :=
  cosineSimilarity embedding1 embedding2.

(** [candidateEmbeddings.map((embedding, index) => ...)], from [index] on:
    the first call that throws ends the map. *)
Fixpoint similaritiesFrom (index : nat) (queryEmbedding : Vector)
    (candidateEmbeddings : list Vector) : Result (list SimilarityMatch) :=
  match candidateEmbeddings with
  | [] => Ok []
  | embedding :: rest =>
      match calculateSimilarity queryEmbedding embedding with
      | Ok s =>
          match similaritiesFrom (S index) queryEmbedding rest with
          | Ok l => Ok (mkMatch index s :: l)
          | Err e => Err e
          end
      | Err e => Err e
      end
  end.

(** [.sort((a, b) => b.similarity - a.similarity)]: the sort of an array is
    stable, so among equal similarities the earlier element stays first. An
    element is put in front of the first element that is not strictly more
    similar. *)
Fixpoint insertMatch (m : SimilarityMatch) (l : list SimilarityMatch)
    : list SimilarityMatch :=
  match l with
  | [] => [m]
  | x :: l' =>
      if Qltb (similarity m) (similarity x) then x :: insertMatch m l'
      else m :: x :: l'
  end.

Definition sortMatches (l : list SimilarityMatch) : list SimilarityMatch :=
  foldr insertMatch [] l.

(** [findMostSimilar(queryEmbedding, candidateEmbeddings, { topK, threshold })] *)
Definition findMostSimilar (queryEmbedding : Vector)
    (candidateEmbeddings : list Vector) (topK : Z) (threshold : Q)
    : Result (list SimilarityMatch) :=
  match similaritiesFrom 0 queryEmbedding candidateEmbeddings with
  | Ok similarities =>
      Ok (slice (sortMatches
                   (filter (fun m => (threshold <= similarity m)%Q) similarities))
            0 topK)
  | Err e => Err e
  end.

End FindMostSimilar.

Definition defaultTopK : Z := 5.
Definition defaultSimilarityThreshold : Q := 0.

(** A more similar match comes first; of two equally similar ones, the one
    with the smaller index. *)
Definition ranksBefore (a b : SimilarityMatch) : Prop :=
  (similarity b < similarity a)%Q
  \/ (similarity a == similarity b)%Q /\ (index a < index b)%nat.

(** What a returned match says about the candidates. *)
Definition matchOf (cosineSimilarity : Vector -> Vector -> Result Q)
    (queryEmbedding : Vector) (candidateEmbeddings : list Vector)
    (threshold : Q) (m : SimilarityMatch) : Prop :=
  exists embedding,
    candidateEmbeddings !! index m = Some embedding
    /\ cosineSimilarity queryEmbedding embedding = Ok (similarity m)
    /\ (threshold <= similarity m)%Q.

(** A similarity for examples: the first number of the candidate; an empty
    candidate is refused. *)
Definition firstOf (queryEmbedding embedding : Vector) : Result Q :=
  match embedding with
  | x :: _ => Ok x
  | [] => Err (of_string "Vectors must have the same length")
  end.

Definition fourCandidates : list Vector :=
  [[1 # 2]; [9 # 10]; [1 # 10]; [9 # 10]].

End Ranking.

(** ** The shape of the sections and of the chunks of a document *)

Module SectionShape.
Import Js Sections.

(** A section cut from [t]: its span lies inside [t] and its content is
    the trimmed piece of [t] between its offsets. *)
Definition sectionOf (t : text) (sec : DocumentSection) : Prop :=
  0 <= startOffset sec <= endOffset sec /\ endOffset sec <= length t
  /\ content sec = trim (substring t (startOffset sec) (endOffset sec)).

Definition goodSection (t : text) (sec : DocumentSection) : Prop :=
  sectionOf t sec /\ content sec <> [].

(** A chunk of [chunkDocument] that belongs to one of the sections [secs]:
    it carries the title of the section, is not empty and no longer than the
    window, and its span starts in the section and is no longer than the
    content of the section. *)
Definition chunkIn (maxChunkSize : Z) (secs : list DocumentSection)
    (c : Chunker.TextChunk) : Prop :=
  Chunker.content c <> []
  /\ length (Chunker.content c) <= maxChunkSize
  /\ exists sec,
       sec ∈ secs
       /\ Chunker.section c = Some (title sec)
       /\ startOffset sec <= Chunker.startOffset c
       /\ Chunker.startOffset c < Chunker.endOffset c
       /\ Chunker.endOffset c <= startOffset sec + length (content sec).

(** The chunks [group] are those of the section [sec] of the text [t]:
    they are the chunks that [chunkText] cuts from the content of the
    section, each with its offsets moved by the start of the section and
    tagged with its title; there is at least one. *)
Definition sectionGroup (t : text) (maxChunkSize overlapSize : Z)
    (sec : DocumentSection) (group : list Chunker.TextChunk) : Prop :=
  group <> []
  /\ Forall (chunkIn maxChunkSize [sec]) group
  /\ exists own,
       (forall fuel, (List.length t <= fuel)%nat ->
          Chunker.chunkText fuel (content sec) maxChunkSize overlapSize
          = Some own)
       /\ Forall2 (fun c o =>
                     Chunker.content c = Chunker.content o
                     /\ Chunker.startOffset c
                        = startOffset sec + Chunker.startOffset o
                     /\ Chunker.endOffset c
                        = startOffset sec + Chunker.endOffset o
                     /\ Chunker.section c = Some (title sec))
            group own.

(** A section that [chunkText] can take: its content is not blank and no
    longer than the text. *)
Definition chunkable (t : text) (sec : DocumentSection) : Prop :=
  trim (content sec) <> [] /\ length (content sec) <= length t.

(** No line of the text is a heading. *)
Definition noHeading (t : text) : Prop :=
  Forall (fun line => matchHeading line = NoHeading) (splitLines t).

(** Two lines without heading. *)
Definition twoPlainLines : text :=
  of_string "first line" ++ [newline] ++ of_string "second line".

(** A preamble and two headed sections. *)
Definition threeParts : text :=
  of_string "intro" ++ [newline] ++ of_string "# One" ++ [newline]
  ++ of_string "alpha beta. gamma delta." ++ [newline]
  ++ of_string "# Two" ++ [newline] ++ of_string "epsilon zeta. eta theta.".

End SectionShape.

(** ** Reading the chunks back, and the constraints of the schema *)

Module Queries.
Import Js Repository.

Definition byChunkIndex (a b : ContentChunk.t) : Prop :=
  ContentChunk.chunkIndex a <= ContentChunk.chunkIndex b.

#[global] Instance byChunkIndex_decision (a b : ContentChunk.t) :
  Decision (byChunkIndex a b).
Proof. unfold byChunkIndex. apply _. Defined.

(** [findChunksByContentId(contentId)]: the rows of the content, ordered
    by [chunk_index]. *)
Definition findChunksByContentId (contentId : text) (db : Db)
    : list ContentChunk.t :=
  merge_sort byChunkIndex
    (filter (fun r => ContentChunk.contentId r = contentId) (contentChunks db)).

(** The constraints of the schema, and how the repository builds a chunk
    id: the primary key of a content row is its [id]; the [content_id] of a
    chunk refers to a content row; the id of a chunk is built from its
    [content_id]; no two chunks share an id. *)
Definition consistent (db : Db) : Prop :=
  map_Forall (fun k c => Content.id c = k) (contents db)
  /\ Forall (fun r => is_Some (contents db !! ContentChunk.contentId r)
                      /\ (ContentChunk.id r).1 = ContentChunk.contentId r)
       (contentChunks db)
  /\ NoDup (map ContentChunk.id (contentChunks db)).

(** The row that [createChunks] builds from the element at [index]. *)
Definition rowOf (now : Z) (contentId : text) (index : nat)
    (chunk : ChunkData.t) : ContentChunk.t :=
  ContentChunk.mk (contentId, index) contentId
    (ChunkData.content chunk) (ChunkData.embedding chunk)
    (ChunkData.chunkIndex chunk) (ChunkData.startOffset chunk)
    (ChunkData.endOffset chunk) (ChunkData.section chunk) now.

(** *** The text of a chunk id *)

(** The decimal digits of a number, as [String(index)] writes them. *)
Fixpoint digits (d : Decimal.uint) : text :=
  match d with
  | Decimal.Nil => []
  | Decimal.D0 d' => 48%N :: digits d'
  | Decimal.D1 d' => 49%N :: digits d'
  | Decimal.D2 d' => 50%N :: digits d'
  | Decimal.D3 d' => 51%N :: digits d'
  | Decimal.D4 d' => 52%N :: digits d'
  | Decimal.D5 d' => 53%N :: digits d'
  | Decimal.D6 d' => 54%N :: digits d'
  | Decimal.D7 d' => 55%N :: digits d'
  | Decimal.D8 d' => 56%N :: digits d'
  | Decimal.D9 d' => 57%N :: digits d'
  end.

Definition decimal (n : nat) : text := digits (Nat.to_uint n).

Definition underscore : N := 95%N.

(** [`chunk_${contentId}_${index}`] *)
Definition chunkId (id : text * nat) : text :=
  of_string "chunk_" ++ id.1 ++ [underscore] ++ decimal id.2.

End Queries.

(** ** The pipelines step by step, and the retry handler *)

Module Routes.
Import Js Repository Service.
Local Open Scope service_scope.

Section WithEnv.
Variable env : Env.

(** The common end of [processUrl] and [retryFailedContent]: the text is
    chunked, the chunks are embedded and stored. *)
Definition chunkEmbedStore {B : Type} (contentId fullText : text)
    (k : list Chunker.TextChunk -> B) : M B :=
  let! textChunks := chunkFullText fullText in
  let! embeddings := generateEmbeddings env (map Chunker.content textChunks) in
  let! _ := createChunksM env contentId (toChunkData embeddings textChunks) in
  ret (k textChunks).

(** The columns that a retry sets once the content is extracted again. *)
Definition retryPatch (extracted : ExtractedContent) : ContentPatch.t :=
  {| ContentPatch.type := None;
     ContentPatch.url := None;
     ContentPatch.fileUrl := None;
     ContentPatch.title := Some (extractedTitle extracted);
     ContentPatch.description := Some (extractedDescription extracted);
     ContentPatch.contentPreview :=
       Some (Some (substring (extractedContent extracted) 0 500));
     ContentPatch.imageUrl := Some (thumbnail extracted);
     ContentPatch.status := Some Completed;
     ContentPatch.errorMessage := Some None;
     ContentPatch.processingAttempts := None;
     ContentPatch.metadata :=
       Some (Some (urlMetadata (extractedMetadata extracted)));
     ContentPatch.createdAt := None;
     ContentPatch.completedAt := None |}.

(** The extraction that the service runs on a URL, and the call it is. *)
Definition extraction (url : text) : Result ExtractedContent :=
  if isYouTubeUrl url then extractYoutube env url else extractWeb env url.

Definition extractionEvent (url : text) : Event :=
  if isYouTubeUrl url then EvExtractYoutube url else EvExtractWeb url.

(** The text of a retried item that is chunked. *)
Definition retryText (extracted : ExtractedContent) : text :=
  fullTextOf None (extractedTitle extracted)
    (extractedDescription extracted) (extractedContent extracted).

(** The text of a new page that is chunked. *)
Definition pageText (input : ProcessUrlInput) (extracted : ExtractedContent)
    : text :=
  fullTextOf (userNote input)
    (orElse (extractedTitle extracted) (of_string "Untitled"))
    (extractedDescription extracted) (extractedContent extracted).

(** The statement that stores the chunks: none is sent when there is no
    chunk. *)
Definition storeCalls (id : text) (cs : list Chunker.TextChunk) : list Event :=
  match cs with
  | [] => []
  | _ => [EvCreateChunks id]
  end.

(** The calls of a retry that goes through, in their order. *)
Definition retryCalls (id url : text) (cs : list Chunker.TextChunk)
    : list Event :=
  [EvFindById id; EvUpdateStatus id Processing; extractionEvent url;
   EvUpdate id; EvDeleteChunks id; EvEmbedMany (map Chunker.content cs)]
  ++ storeCalls id cs.

(** What a retry of the item [c] that returns [n] has done between the
    worlds [w] and [w'], in the words of the specification: the content was
    extracted again from the URL of the item, the chunks of the item were
    deleted, the text was chunked and embedded again, and the new chunks
    were stored; the row holds what was extracted. *)
Definition retried (id url : text) (c : Content.t) (w w' : World) (n : Z)
    : Prop :=
  exists c1 extracted cs vs,
    setStatus (now env) Processing None c = Ok c1
    /\ extraction url = Ok extracted
    /\ (chunkFullText (retryText extracted) w).1 = Ok cs
    /\ embedMany env (map Chunker.content cs) 5 = Ok vs
    /\ n = Z.of_nat (List.length cs)
    /\ newEvents w w' = retryCalls id url cs
    /\ contents (db w')
       = <[id := applyPatch (now env) (retryPatch extracted) c1]>
           (contents (db w))
    /\ contentChunks (db w')
       = filter (fun r => ContentChunk.contentId r <> id) (contentChunks (db w))
         ++ chunkRows (now env) id (toChunkData vs cs).

(** [handleRetryUrl], the handler of [POST /urls/retry/:id], with the id
    read from the request. Every error of the model is an [Error], so
    [errorMessage] is its message. *)
Definition handleRetryUrl (id : text) : M Response :=
  tryCatch
    (let! result := retryFailedContent env id in
     ret (mkResponse 200 (Ok result)))
    (fun error =>
       let errorMessage := error in
       if bool_decide (errorMessage = of_string "Content not found")
       then ret (mkResponse 404 (Err errorMessage))
       else if bool_decide (errorMessage = of_string "Content is not in failed state")
               || bool_decide (errorMessage
                               = of_string "Image content requires re-upload to retry")
       then ret (mkResponse 400 (Err errorMessage))
       else ret (mkResponse 500 (Err (getSafeErrorMessage error)))).

End WithEnv.

(** The database takes every statement. *)
Definition dbUp (env : Env) : Prop := forall n, dbFault env n = None.

(** A chunk that the service sends to the embedding model: it is not
    empty and has at most 2000 characters. *)
Definition embeddable (c : Chunker.TextChunk) : Prop :=
  Chunker.content c <> [] /\ length (Chunker.content c) <= 2000.

End Routes.

(** ** What a safe error message may hold *)

Module Sanitizer.
Import Js Regex.

(** The same letters, whatever their case. *)
Definition sameLetters (a b : text) : Prop := map toLower a = map toLower b.

(** [s] holds the word [w], in any letter case. *)
Definition holds (s : text) (w : string) : Prop :=
  exists pre mid post, s = pre ++ mid ++ post /\ sameLetters mid (of_string w).

(** [s] holds the word [a] and, later on the same line, the word [b]. *)
Definition holdsThen (s : text) (a b : string) : Prop :=
  exists pre wa mid wb post,
    s = pre ++ wa ++ mid ++ wb ++ post
    /\ sameLetters wa (of_string a) /\ sameLetters wb (of_string b)
    /\ Forall (fun c => isLineTerminator c = false) mid.

Definition genericMessage : text :=
  of_string "An internal error occurred. Please try again later.".

(** The words of [SENSITIVE_PATTERNS] that are matched as they stand. *)
Definition sensitiveWords : list string :=
  ["failed query:"; "insert into"; "delete from"; "params:"; "postgresql";
   "pg_"; "connection refused"; "econnrefused"]%string.

(** No pattern of [SENSITIVE_PATTERNS] is to be found in [s]. *)
Definition clean (s : text) : Prop :=
  Forall (fun w => ~ holds s w) sensitiveWords
  /\ ~ holdsThen s "select " " from"
  /\ ~ holdsThen s "update " " set".

End Sanitizer.

(** ** The repetition of the matcher, and the patterns of [extractYouTubeId] *)

Module Matching.
Import Js Regex.

(** The iteration that [run] performs for [Rep a lo hi], by its name. *)
Definition iterOf (a : re) (lo : nat) (hi : option nat)
    (k : MState -> option MState) : nat -> nat -> MState -> option MState :=
  fix iter (fuel n : nat) (st : MState) {struct fuel} : option MState :=
    let stop := if Nat.leb lo n then k st else None in
    match fuel with
    | O => stop
    | S fuel' =>
        if underMax hi n then
          match run a st (fun st' =>
                  if Nat.ltb (List.length (rest st')) (List.length (rest st))
                  then iter fuel' (S n) st' else None) with
          | Some m => Some m
          | None => stop
          end
        else stop
    end.

(** A character as it stands. *)
Definition lchar (a : Ascii.ascii) : re := Chr (N.eqb (code a)).

Fixpoint lit_aux (l : list Ascii.ascii) : re :=
  match l with
  | [] => Eps
  | [a] => lchar a
  | a :: l' => Seq (lchar a) (lit_aux l')
  end.
(** A word as it stands. *)
Definition lit (w : string) : re := lit_aux (String.list_ascii_of_string w).

End Matching.

Module Youtube.
Import Js Regex Matching.

(** [[^&\n?#]] *)
Definition idChar (c : N) : bool :=
  negb ((c =? 38) || (c =? 10) || (c =? 63) || (c =? 35))%N.

(** The three patterns of [extractYouTubeId], each with the video id as
    group 1. *)
Definition patterns : list re :=
  [ Seq (Alt (lit "youtube.com/watch?v=") (lit "youtu.be/"))
      (Group 1 (plus (Chr idChar)));
    Seq (lit "youtube.com/embed/") (Group 1 (plus (Chr idChar)));
    Seq (lit "youtube.com/v/") (Group 1 (plus (Chr idChar))) ].

(** [for (const pattern of patterns) { const match = url.match(pattern);
    if (match) return match[1]; }] *)
Fixpoint firstId (patterns : list re) (url : text) : option text :=
  match patterns with
  | [] => None
  | pattern :: patterns' =>
      match exec pattern url with
      | Some m => Some (default [] (m 1%nat))
      | None => firstId patterns' url
      end
  end.

(** [webExtractionService.extractYouTubeId(url)] *)
Definition extractYouTubeId (url : text) : Result text :=
  match firstId patterns url with
  | Some id => Ok id
  | None => Err (of_string "Invalid YouTube URL")
  end.

(** The words after which a video id is looked for. *)
Definition markers : list text :=
  [of_string "youtube.com/watch?v="; of_string "youtu.be/";
   of_string "youtube.com/embed/"; of_string "youtube.com/v/"].

(** [url] holds a marker followed by a character of a video id. *)
Definition hasVideoId (url : text) : Prop :=
  exists pre marker c post,
    url = pre ++ marker ++ c :: post /\ marker ∈ markers /\ idChar c = true.

End Youtube.

(** ** Facts about the string operations *)

Module JsFacts.
Import Js.

Lemma length_nonneg (s : text) : 0 <= length s.
Proof. unfold length. lia. Qed.

Lemma length_nil_iff (s : text) : length s = 0 <-> s = [].
Proof. unfold length. destruct s; simpl; split; intros; try done; lia. Qed.

Lemma dropSpaces_suffix (s : text) :
  exists l, s = l ++ dropSpaces s /\ forallb isSpace l = true.
Proof.
  induction s as [|c s IH]; simpl.
  - by exists [].
  - destruct (isSpace c) eqn:Hc.
    + destruct IH as (l & Hs & Hl). exists (c :: l). simpl.
      rewrite Hc, Hl. split; [by f_equal | done].
    + by exists [].
Qed.

Lemma dropSpaces_head (s : text) c r :
  dropSpaces s = c :: r -> isSpace c = false.
Proof.
  induction s as [|d s IH]; simpl; [done|].
  destruct (isSpace d) eqn:Hd; [done|]. intros [= <- <-]. done.
Qed.

Lemma dropSpaces_all (s : text) :
  forallb isSpace s = true -> dropSpaces s = [].
Proof.
  induction s as [|c s IH]; simpl; [done|].
  destruct (isSpace c); simpl; [done|discriminate].
Qed.

Lemma dropSpaces_nil (s : text) :
  dropSpaces s = [] -> forallb isSpace s = true.
Proof.
  induction s as [|c s IH]; simpl; [done|].
  destruct (isSpace c); simpl; [done|discriminate].
Qed.

Lemma forallb_rev (f : N -> bool) (s : text) :
  forallb f (rev s) = forallb f s.
Proof.
  induction s as [|c s IH]; simpl; [done|].
  rewrite forallb_app, IH. simpl. rewrite andb_true_r. apply andb_comm.
Qed.

(** [trim] cuts a white-space prefix and a white-space suffix off. *)
Lemma trim_decompose (s : text) :
  exists l r, s = l ++ trim s ++ r
              /\ forallb isSpace l = true /\ forallb isSpace r = true.
Proof.
  unfold trim.
  destruct (dropSpaces_suffix s) as (l & Hs & Hl).
  destruct (dropSpaces_suffix (rev (dropSpaces s))) as (r & Hr & Hrl).
  exists l, (rev r). split; [|split]; [| done | by rewrite forallb_rev].
  rewrite Hs at 1. f_equal.
  apply (f_equal (@rev N)) in Hr.
  by rewrite rev_involutive, rev_app_distr in Hr.
Qed.

Lemma trim_nil_iff (s : text) :
  trim s = [] <-> forallb isSpace s = true.
Proof.
  split.
  - intros H. destruct (trim_decompose s) as (l & r & Hs & Hl & Hr).
    rewrite H in Hs. rewrite Hs. simpl. by rewrite forallb_app, Hl, Hr.
  - intros H. unfold trim. by rewrite (dropSpaces_all s H).
Qed.

Lemma trim_head (s : text) c r : trim s = c :: r -> isSpace c = false.
Proof.
  unfold trim. intros H.
  destruct (dropSpaces s) as [|d t] eqn:Hd; [done|].
  pose proof (dropSpaces_head _ _ _ Hd) as Hns.
  destruct (dropSpaces_suffix (rev (d :: t))) as (l & Hl & Hsp).
  assert (Hrev : d :: t = rev (dropSpaces (rev (d :: t))) ++ rev l).
  { rewrite <- rev_app_distr, <- Hl. by rewrite rev_involutive. }
  rewrite H in Hrev. simpl in Hrev. by injection Hrev as -> _.
Qed.

Lemma trim_last (s : text) c r : trim s = r ++ [c] -> isSpace c = false.
Proof.
  unfold trim. intros H.
  apply (f_equal (@rev N)) in H. rewrite rev_involutive, rev_app_distr in H.
  simpl in H. by apply dropSpaces_head in H.
Qed.

Lemma dropSpaces_id (s : text) :
  (forall c r, s = c :: r -> isSpace c = false) -> dropSpaces s = s.
Proof.
  destruct s as [|c s]; [done|]. intros H. simpl. by rewrite (H c s).
Qed.

Lemma trim_idempotent (s : text) : trim (trim s) = trim s.
Proof.
  unfold trim at 1.
  rewrite (dropSpaces_id (trim s)) by apply trim_head.
  rewrite dropSpaces_id; [apply rev_involutive|].
  intros c r H. apply (trim_last s c (rev r)).
  rewrite <- (rev_involutive (trim s)), H. done.
Qed.

Lemma substring_all (s : text) : substring s 0 (length s) = s.
Proof.
  unfold substring, clamp, length.
  rewrite Z.max_l, Z.min_l, Z.max_l, Z.min_r by lia. simpl.
  rewrite Nat2Z.id, Nat.sub_0_r. apply firstn_all.
Qed.

Lemma length_trim_le (s : text) : length (trim s) <= length s.
Proof.
  destruct (trim_decompose s) as (l & r & Hs & _). unfold length.
  rewrite Hs at 2. rewrite !length_app. lia.
Qed.

Lemma length_collapseSpaces_le (s : text) :
  length (collapseSpaces s) <= length s.
Proof.
  unfold length. induction s as [|c s IH]; simpl; [done|].
  destruct (isSpace c); simpl in *; [|lia].
  destruct s as [|c' s']; simpl in *; [lia|].
  destruct (isSpace c'); simpl in *; lia.
Qed.

Lemma collapseSpaces_head (c : N) (s : text) :
  isSpace c = false -> collapseSpaces (c :: s) = c :: collapseSpaces s.
Proof. intros H. simpl. by rewrite H. Qed.

Lemma collapseSpaces_noDoubleSpace (s : text) :
  noDoubleSpace (collapseSpaces s).
Proof.
  induction s as [|c s IH]; [done|].
  destruct (isSpace c) eqn:Hc.
  - destruct s as [|c' s']; [by simpl; rewrite Hc|].
    destruct (isSpace c') eqn:Hc'.
    + replace (collapseSpaces (c :: c' :: s')) with (collapseSpaces (c' :: s'));
        [done|]. simpl. by rewrite Hc, Hc'.
    + replace (collapseSpaces (c :: c' :: s'))
        with (space :: collapseSpaces (c' :: s'));
        [|simpl; by rewrite Hc, Hc'].
      rewrite (collapseSpaces_head _ _ Hc') in *. simpl. split; [by right|].
      apply IH.
  - rewrite (collapseSpaces_head _ _ Hc).
    change (match collapseSpaces s with
            | c' :: _ => isSpace c = false \/ isSpace c' = false
            | [] => True end /\ noDoubleSpace (collapseSpaces s)).
    split; [|done]. destruct (collapseSpaces s); [done|by left].
Qed.

Lemma noDoubleSpace_app_r (l m : text) :
  noDoubleSpace (l ++ m) -> noDoubleSpace m.
Proof.
  induction l as [|c l IH]; [done|]. simpl. intros [_ H]. by apply IH.
Qed.

Lemma noDoubleSpace_app_l (l m : text) :
  noDoubleSpace (l ++ m) -> noDoubleSpace l.
Proof.
  induction l as [|c l IH]; [done|]. simpl. intros [H1 H2]. split; [|by apply IH].
  destruct l as [|c' l]; [done|]. done.
Qed.

Lemma noDoubleSpace_trim (s : text) :
  noDoubleSpace s -> noDoubleSpace (trim s).
Proof.
  intros H. destruct (trim_decompose s) as (l & r & Hs & _).
  rewrite Hs in H. apply noDoubleSpace_app_r in H. by apply noDoubleSpace_app_l in H.
Qed.

(** A piece of two or more characters of such a text is not blank. *)
Lemma noDoubleSpace_not_blank (s : text) :
  noDoubleSpace s -> 2 <= length s -> trim s <> [].
Proof.
  intros H Hlen Ht. apply trim_nil_iff in Ht.
  destruct s as [|c [|c' s]]; unfold length in Hlen; simpl in Hlen; try lia.
  simpl in H, Ht. destruct H as [[H|H] _]; rewrite H in Ht; simpl in Ht;
    try done. by rewrite andb_false_r in Ht.
Qed.

Lemma clamp_in_range (s : text) (n : Z) :
  0 <= n <= length s -> clamp s n = Z.to_nat n.
Proof. intros H. unfold clamp. f_equal. lia. Qed.

Lemma substring_in_range (s : text) (a b : Z) :
  0 <= a <= b -> b <= length s ->
  substring s a b = take (Z.to_nat (b - a)) (drop (Z.to_nat a) s).
Proof.
  intros Ha Hb. unfold substring.
  rewrite !clamp_in_range by lia.
  rewrite Nat.max_r, Nat.min_l by lia. f_equal. lia.
Qed.

Lemma length_substring (s : text) (a b : Z) :
  0 <= a <= b -> b <= length s -> length (substring s a b) = b - a.
Proof.
  intros Ha Hb. rewrite substring_in_range by done. unfold length in *.
  rewrite length_take, length_drop. lia.
Qed.

Lemma substring_split (s : text) (a b : Z) :
  0 <= a <= b -> b <= length s ->
  s = take (Z.to_nat a) s ++ substring s a b ++ drop (Z.to_nat b) s.
Proof.
  intros Ha Hb. rewrite substring_in_range by done.
  rewrite <- (take_drop (Z.to_nat a) s) at 1. f_equal.
  rewrite <- (take_drop (Z.to_nat (b - a)) (drop (Z.to_nat a) s)) at 1. f_equal.
  rewrite drop_drop. f_equal. lia.
Qed.

Lemma noDoubleSpace_substring (s : text) (a b : Z) :
  0 <= a <= b -> b <= length s ->
  noDoubleSpace s -> noDoubleSpace (substring s a b).
Proof.
  intros Ha Hb H. rewrite (substring_split s a b Ha Hb) in H.
  apply noDoubleSpace_app_r in H. by apply noDoubleSpace_app_l in H.
Qed.

Lemma length_substring_le (s : text) (a b : Z) :
  length (substring s a b) <= length s.
Proof.
  unfold substring, length. rewrite length_take, length_drop. lia.
Qed.

Lemma length_substringFrom_le (s : text) (a : Z) :
  length (substringFrom s a) <= length s.
Proof. unfold substringFrom, length. rewrite length_drop. lia. Qed.

Lemma startsWith_length (s pat : text) :
  startsWith s pat = true -> length pat <= length s.
Proof.
  unfold length. revert s. induction pat as [|p pat IH]; intros [|c s]; simpl;
    try done; try lia.
  intros [_ H]%andb_true_iff. apply IH in H. lia.
Qed.

Lemma lastIndexOfFrom_bounds (s pat : text) (i best : Z) :
  lastIndexOfFrom s pat i best = best
  \/ i <= lastIndexOfFrom s pat i best
     /\ lastIndexOfFrom s pat i best + length pat <= i + length s.
Proof.
  revert i best. induction s as [|c s IH]; intros i best;
    cbn [lastIndexOfFrom].
  - destruct pat; simpl; [right|by left]. unfold length; simpl; lia.
  - destruct (IH (i + 1) (if startsWith (c :: s) pat then i else best)) as [H|H].
    + rewrite H. destruct (startsWith (c :: s) pat) eqn:Hp; [|by left].
      right. apply startsWith_length in Hp. lia.
    + right. unfold length in *. simpl List.length. lia.
Qed.

(** A hit of [lastIndexOf] lies wholly inside the searched text. *)
Lemma lastIndexOf_bounds (s pat : text) :
  0 <= lastIndexOf s pat ->
  lastIndexOf s pat + length pat <= length s.
Proof.
  unfold lastIndexOf. intros H.
  destruct (lastIndexOfFrom_bounds s pat 0 (-1)) as [Hb|Hb]; lia.
Qed.

End JsFacts.

(** ** Facts about the chunker *)

Module ChunkerFacts.
Import Js JsFacts Chunker.

Lemma forallb_collapseSpaces (s : text) :
  forallb isSpace (collapseSpaces s) = forallb isSpace s.
Proof.
  induction s as [|c s IH]; [done|].
  destruct (isSpace c) eqn:Hc.
  - destruct s as [|c' s']; [by simpl; rewrite Hc|].
    destruct (isSpace c') eqn:Hc'.
    + replace (collapseSpaces (c :: c' :: s')) with (collapseSpaces (c' :: s'));
        [|simpl; by rewrite Hc, Hc'].
      rewrite IH. simpl. by rewrite Hc.
    + replace (collapseSpaces (c :: c' :: s'))
        with (space :: collapseSpaces (c' :: s'));
        [|simpl; by rewrite Hc, Hc'].
      change (forallb isSpace (collapseSpaces (c' :: s'))
              = isSpace c && forallb isSpace (c' :: s')).
      by rewrite IH, Hc.
  - rewrite (collapseSpaces_head _ _ Hc). simpl. by rewrite Hc.
Qed.

Lemma cleanText_nil_iff (t : text) : cleanText t = [] <-> trim t = [].
Proof.
  unfold cleanText. by rewrite !trim_nil_iff, forallb_collapseSpaces.
Qed.

Lemma length_cleanText_le (t : text) : length (cleanText t) <= length t.
Proof.
  unfold cleanText. pose proof (length_trim_le (collapseSpaces t)).
  pose proof (length_collapseSpaces_le t). lia.
Qed.

Lemma cleanText_noDoubleSpace (t : text) : noDoubleSpace (cleanText t).
Proof. apply noDoubleSpace_trim, collapseSpaces_noDoubleSpace. Qed.

Lemma cleanText_last (t : text) r c :
  cleanText t = r ++ [c] -> isSpace c = false.
Proof. apply trim_last. Qed.

Lemma maxOf_bounds (lo hi b : Z) (bs : list Z) :
  Forall (fun x => lo <= x <= hi) (b :: bs) -> lo <= maxOf b bs <= hi.
Proof.
  unfold maxOf. revert b. induction bs as [|x bs IH]; intros b H.
  - by inversion H.
  - simpl. apply IH. inversion H as [|? ? Hb Hbs]; subst.
    inversion Hbs as [|? ? Hx Hbs']; subst. constructor; [lia|done].
Qed.

(** The cut point lies after the current position and inside the text; with
    a window of two or more characters it takes at least two characters
    unless it reaches the end of the text. *)
Lemma findEnd_bounds (s : text) (maxChunkSize pos : Z) :
  0 <= pos < length s -> 1 <= maxChunkSize ->
  pos < findEnd s maxChunkSize pos <= length s
  /\ (2 <= maxChunkSize ->
      pos + 2 <= findEnd s maxChunkSize pos
      \/ findEnd s maxChunkSize pos = length s).
Proof.
  intros Hpos Hmax. unfold findEnd.
  set (e := Z.min (pos + maxChunkSize) (length s)).
  destruct (e <? length s) eqn:He; [|apply Z.ltb_ge in He; lia].
  apply Z.ltb_lt in He.
  set (ss := Z.max pos (e - 200)).
  set (w := substring s ss e).
  assert (Hw : length w = e - ss) by (apply length_substring; lia).
  set (hits := [lastIndexOf w (of_string ". "); lastIndexOf w (of_string "! ");
                lastIndexOf w (of_string "? "); lastIndexOf w [newline]]).
  assert (Hhits : Forall (fun p => 0 <= p -> p + 1 <= length w) hits).
  { repeat constructor; intros H0; apply lastIndexOf_bounds in H0;
      unfold length in *; simpl in *; lia. }
  assert (Hb : Forall (fun x => pos + 2 <= x <= e)
                 (map (fun p => ss + p + 1) (filter (fun p => 0 < p) hits))).
  { apply Forall_forall. intros x [p [-> Hp]]%list_elem_of_fmap.
    apply list_elem_of_filter in Hp as [Hp0 Hp].
    rewrite Forall_forall in Hhits. specialize (Hhits p Hp). lia. }
  destruct (map (fun p => ss + p + 1) (filter (fun p => 0 < p) hits))
    as [|b bs]; [lia|].
  apply maxOf_bounds in Hb. lia.
Qed.

Lemma noGap_snoc (p : Z) (cs : list TextChunk) (c : TextChunk) :
  noGap p (cs ++ [c])
  = noGap p cs && (startOffset c <=? default p (lastEnd cs)).
Proof.
  revert p. induction cs as [|c0 cs IH]; intros p.
  - simpl. by rewrite andb_true_r.
  - assert (Hd : default p (lastEnd (c0 :: cs))
                 = default (endOffset c0) (lastEnd cs)).
    { unfold lastEnd. destruct cs as [|c1 cs]; [done|].
      change (last (c0 :: c1 :: cs)) with (last (c1 :: cs)).
      destruct (last (c1 :: cs)) eqn:E; [done|]. by apply last_None in E. }
    simpl. by rewrite IH, andb_assoc, Hd.
Qed.

Lemma chunkLoop_fuel_mono (fuel fuel' : nat) (s : text)
    (maxChunkSize overlapSize : Z) (st : LoopState) (cs : list TextChunk) :
  chunkLoop fuel s maxChunkSize overlapSize st = Some cs ->
  (fuel <= fuel')%nat ->
  chunkLoop fuel' s maxChunkSize overlapSize st = Some cs.
Proof.
  revert fuel' st. induction fuel as [|fuel IH]; intros fuel' st; simpl.
  - destruct (_ <? _) eqn:Hlt; [done|]. intros H _.
    destruct fuel'; simpl; by rewrite Hlt.
  - destruct (_ <? _) eqn:Hlt.
    + intros H Hle. destruct fuel' as [|fuel']; [lia|]. simpl. rewrite Hlt.
      apply IH; [done|lia].
    + intros H _. destruct fuel'; simpl; by rewrite Hlt.
Qed.

Section Loop.

Variables (s : text) (maxChunkSize overlapSize : Z).
Hypothesis Hnd : noDoubleSpace s.
Hypothesis Hlast : forall r c, s = r ++ [c] -> isSpace c = false.
Hypothesis Hmax : 2 <= maxChunkSize.
Hypothesis Hov : 0 <= overlapSize.

Local Abbreviation chunkOf := (chunkOf s).
Local Abbreviation Inv := (Inv s).
Local Abbreviation pieceAt := (pieceAt s maxChunkSize).
Local Abbreviation chunked := (chunked s).

Lemma Inv_pos_nonneg st : Inv st -> 0 <= currentPosition st.
Proof.
  intros [Hc _ Hp _ _]. destruct (last (chunks st)) as [c|] eqn:Hl; [|lia].
  apply last_Some_elem_of in Hl. rewrite Forall_forall in Hc.
  destruct (Hc c Hl) as [? _]. lia.
Qed.

(** With a window of two or more characters no piece is blank. *)
Lemma piece_not_blank (pos : Z) :
  0 <= pos < length s ->
  trim (substring s pos (findEnd s maxChunkSize pos)) <> [].
Proof.
  intros Hpos.
  destruct (findEnd_bounds s maxChunkSize pos Hpos ltac:(lia)) as [He He2].
  destruct (He2 Hmax) as [H2|Hend].
  - apply noDoubleSpace_not_blank.
    + apply noDoubleSpace_substring; [lia|lia|done].
    + rewrite length_substring; lia.
  - rewrite Hend. intros Hb%trim_nil_iff.
    pose proof (substring_split s pos (length s) ltac:(lia) ltac:(lia)) as Hs.
    pose proof (length_substring s pos (length s) ltac:(lia) ltac:(lia)) as Hl.
    replace (Z.to_nat (length s)) with (List.length s) in Hs
      by (unfold length; lia).
    rewrite drop_all, app_nil_r in Hs.
    set (w := substring s pos (length s)) in *. clearbody w.
    destruct w as [|x w _] using rev_ind;
      [unfold length in *; simpl in Hl; lia|].
    rewrite app_assoc in Hs. apply Hlast in Hs.
    rewrite forallb_app in Hb. simpl in Hb. rewrite Hs in Hb.
    by rewrite andb_false_r in Hb.
Qed.

Lemma chunkStep_push st :
  0 <= currentPosition st < length s ->
  chunkStep s maxChunkSize overlapSize st
  = mkLoop (chunks st ++ [pieceAt st])
      (let e := findEnd s maxChunkSize (currentPosition st) in
       if e - overlapSize <=? currentPosition st then e else e - overlapSize)
      (nextIndex st + 1).
Proof.
  intros Hpos. unfold chunkStep, pieceAt.
  pose proof (piece_not_blank _ Hpos) as Hnb.
  rewrite <- length_nil_iff in Hnb.
  pose proof (length_nonneg
    (trim (substring s (currentPosition st)
             (findEnd s maxChunkSize (currentPosition st))))) as Hnn.
  destruct (0 <? _) eqn:Hlt; [|apply Z.ltb_ge in Hlt; lia].
  cbn [chunks nextIndex]. rewrite last_snoc. done.
Qed.

Lemma chunkStep_Inv st :
  Inv st -> currentPosition st < length s ->
  Inv (chunkStep s maxChunkSize overlapSize st)
  /\ currentPosition st
     < currentPosition (chunkStep s maxChunkSize overlapSize st).
Proof.
  intros HI Hlt. pose proof (Inv_pos_nonneg st HI) as H0.
  rewrite chunkStep_push by lia.
  destruct (findEnd_bounds s maxChunkSize (currentPosition st)
              ltac:(lia) ltac:(lia)) as [He _].
  pose proof (piece_not_blank (currentPosition st) ltac:(lia)) as Hnb.
  destruct HI as [Hc Hg Hp Hi Hn].
  split; [split|]; cbn [chunks currentPosition nextIndex].
  - apply Forall_app. split; [done|]. constructor; [|done].
    unfold chunkOf, pieceAt; cbn. repeat split; try done; lia.
  - rewrite noGap_snoc, Hg. simpl. apply Z.leb_le.
    unfold lastEnd, pieceAt; cbn.
    destruct (last (chunks st)); simpl; lia.
  - rewrite last_snoc. unfold pieceAt; cbn.
    destruct (_ <=? _) eqn:Hs; [apply Z.leb_le in Hs|apply Z.leb_gt in Hs]; lia.
  - rewrite map_app, length_app, Hi. simpl.
    rewrite Nat.add_1_r, seq_S, map_app. simpl. by rewrite Hn.
  - rewrite length_app. simpl. lia.
  - destruct (_ <=? _) eqn:Hs; [apply Z.leb_le in Hs|apply Z.leb_gt in Hs]; lia.
Qed.

Lemma Inv_init : Inv (mkLoop [] 0 0).
Proof. by constructor. Qed.

Lemma Inv_exit st :
  Inv st -> 0 < length s -> length s <= currentPosition st ->
  chunked (chunks st).
Proof.
  intros [Hc Hg Hp Hi Hn] Hlen Hge. split; [done|]. split; [|done].
  unfold coversUpTo.
  destruct (chunks st) as [|c0 cs] eqn:Hcs; [simpl in Hp; lia|].
  simpl in Hg. apply andb_true_iff in Hg as [Hs0 Hg]. rewrite Hg.
  inversion Hc as [|? ? Hc0 _]; subst. destruct Hc0 as [Hc0 _].
  apply Z.leb_le in Hs0.
  replace (startOffset c0 =? 0) with true by (symmetry; apply Z.eqb_eq; lia).
  simpl. apply bool_decide_eq_true. unfold lastEnd.
  destruct (last (c0 :: cs)) as [c|] eqn:Hl; [|by apply last_None in Hl].
  simpl. f_equal.
  apply last_Some_elem_of in Hl. rewrite Forall_forall in Hc.
  destruct (Hc c Hl) as (_ & ? & _). lia.
Qed.

(** The loop ends: every iteration moves the position forward, so
    [length s - currentPosition] iterations are enough. *)
Lemma chunkLoop_total (fuel : nat) st :
  Inv st -> 0 < length s ->
  length s - currentPosition st <= Z.of_nat fuel ->
  exists cs, chunkLoop fuel s maxChunkSize overlapSize st = Some cs
             /\ chunked cs.
Proof.
  revert st. induction fuel as [|fuel IH]; intros st HI Hlen Hfuel.
  - simpl. destruct (_ <? _) eqn:Hlt; [apply Z.ltb_lt in Hlt; lia|].
    apply Z.ltb_ge in Hlt. eexists; split; [done|]. by apply Inv_exit.
  - simpl. destruct (_ <? _) eqn:Hlt.
    + apply Z.ltb_lt in Hlt. destruct (chunkStep_Inv st HI Hlt) as [HI' Hadv].
      apply IH; [done|done|lia].
    + apply Z.ltb_ge in Hlt. eexists; split; [done|]. by apply Inv_exit.
Qed.

End Loop.

(** *** [chunkText] on the whole *)

Lemma chunkText_blank (fuel : nat) (t : text) (maxChunkSize overlapSize : Z) :
  trim t = [] -> chunkText fuel t maxChunkSize overlapSize = Some [].
Proof. intros H. unfold chunkText. by rewrite H. Qed.

Lemma chunkText_not_blank (fuel : nat) (t : text) (maxChunkSize overlapSize : Z) :
  trim t <> [] ->
  chunkText fuel t maxChunkSize overlapSize
  = if length (cleanText t) <=? maxChunkSize
    then Some [mkChunk (cleanText t) 0 0 (length (cleanText t)) None]
    else chunkLoop fuel (cleanText t) maxChunkSize overlapSize (mkLoop [] 0 0).
Proof.
  intros H. unfold chunkText.
  destruct (length (trim t) =? 0) eqn:E; [|done].
  apply Z.eqb_eq, length_nil_iff in E. done.
Qed.

Lemma single_chunked (s : text) :
  s <> [] -> trim s = s -> chunked s [mkChunk s 0 0 (length s) None].
Proof.
  intros Hne Htrim. pose proof (length_nonneg s).
  assert (length s <> 0) by (by rewrite length_nil_iff).
  split; [|split]; [| |done].
  - constructor; [|done]. unfold chunkOf; cbn.
    rewrite substring_all, Htrim. repeat split; try done; lia.
  - unfold coversUpTo, lastEnd; cbn. by apply bool_decide_eq_true.
Qed.

(** With a window of two or more characters and a non-negative overlap
    [chunkText] ends, whatever the text, within as many iterations as the
    text has characters. *)
Lemma chunkText_total (t : text) (maxChunkSize overlapSize : Z) :
  2 <= maxChunkSize -> 0 <= overlapSize -> trim t <> [] ->
  exists cs,
    (forall fuel, (List.length t <= fuel)%nat ->
       chunkText fuel t maxChunkSize overlapSize = Some cs)
    /\ chunked (cleanText t) cs.
Proof.
  intros Hmax Hov Hnb.
  assert (Hc : cleanText t <> []) by (by rewrite cleanText_nil_iff).
  destruct (length (cleanText t) <=? maxChunkSize) eqn:Hle.
  - eexists. split.
    + intros fuel _. by rewrite chunkText_not_blank, Hle.
    + apply single_chunked; [done|apply trim_idempotent].
  - assert (Hpos : 0 < length (cleanText t)).
    { pose proof (length_nonneg (cleanText t)).
      rewrite <- length_nil_iff in Hc. lia. }
    pose proof (length_cleanText_le t) as Hlen.
    assert (Htot : forall fuel, (List.length t <= fuel)%nat ->
              exists cs, chunkLoop fuel (cleanText t) maxChunkSize overlapSize
                           (mkLoop [] 0 0) = Some cs
                         /\ chunked (cleanText t) cs).
    { intros fuel Hfuel.
      apply chunkLoop_total;
        first [ done | apply cleanText_noDoubleSpace | apply cleanText_last
              | apply Inv_init | unfold length in *; cbn; lia ]. }
    destruct (Htot (List.length t) ltac:(lia)) as (cs & Hcs & Hch).
    exists cs. split; [|done].
    intros fuel Hfuel. rewrite chunkText_not_blank, Hle by done.
    by apply (chunkLoop_fuel_mono (List.length t)).
Qed.

Lemma chunkText_returns (fuel : nat) (t : text) (maxChunkSize overlapSize : Z) :
  2 <= maxChunkSize -> 0 <= overlapSize -> (List.length t <= fuel)%nat ->
  is_Some (chunkText fuel t maxChunkSize overlapSize).
Proof.
  intros Hmax Hov Hfuel. destruct (decide (trim t = [])) as [Hb|Hnb].
  - by rewrite chunkText_blank.
  - destruct (chunkText_total t maxChunkSize overlapSize Hmax Hov Hnb)
      as (cs & Hcs & _). by rewrite Hcs.
Qed.

(** *** The properties of [chunkText] *)

(** C2 (amended). A text of at most [maxChunkSize] characters that is not
    blank gives exactly one chunk, with index 0 and offsets 0 and the length
    of its content; the content is the input with every run of white space
    collapsed to one space and then trimmed. *)
Theorem chunkText_short_single_chunk (fuel : nat) (t : text)
    (maxChunkSize overlapSize : Z) :
  length t <= maxChunkSize -> trim t <> [] ->
  chunkText fuel t maxChunkSize overlapSize
  = Some [mkChunk (cleanText t) 0 0 (length (cleanText t)) None].
Proof.
  intros Hlen Hnb. rewrite chunkText_not_blank by done.
  pose proof (length_cleanText_le t).
  destruct (_ <=? _) eqn:Hle; [done|]. apply Z.leb_gt in Hle. lia.
Qed.

Lemma chunkText_short_single_chunk_witness :
  chunkText 0 doubleSpaced 1000 100
  = Some [mkChunk (cleanText doubleSpaced) 0 0
            (length (cleanText doubleSpaced)) None].
Proof.
  apply chunkText_short_single_chunk; [vm_compute; discriminate|].
  vm_compute. discriminate.
Defined.

(** C2 as stated fails: the single chunk of ["a  b"] is ["a b"], not the
    trimmed input. *)
Lemma chunkText_short_not_trimmed_input :
  length doubleSpaced <= 1000 /\ trim doubleSpaced <> []
  /\ chunkText 0 doubleSpaced 1000 100
     = Some [mkChunk (of_string "a b") 0 0 3 None]
  /\ chunkText 0 doubleSpaced 1000 100
     <> Some [mkChunk (trim doubleSpaced) 0 0 (length (trim doubleSpaced)) None].
Proof. vm_compute. repeat split; discriminate. Qed.

(** C3 (amended). With [maxChunkSize >= 2] and [overlapSize >= 0], for every
    text that is not blank [chunkText] returns chunks whose offsets index
    into the cleaned text (white space collapsed, trimmed): every chunk has
    [startOffset < endOffset], its content is the trimmed piece of the
    cleaned text between its offsets, the first chunk starts at 0, each
    chunk starts no later than the end of the one before it, and the last
    chunk ends at the length of the cleaned text. *)
Theorem chunkText_covers_cleaned_text (t : text)
    (maxChunkSize overlapSize : Z) :
  2 <= maxChunkSize -> 0 <= overlapSize -> trim t <> [] ->
  exists cs,
    (forall fuel, (List.length t <= fuel)%nat ->
       chunkText fuel t maxChunkSize overlapSize = Some cs)
    /\ Forall (fun c => validSpan c = true) cs
    /\ coversUpTo (length (cleanText t)) cs = true
    /\ Forall (fun c => content c
                       = trim (substring (cleanText t)
                                 (startOffset c) (endOffset c))) cs.
Proof.
  intros Hmax Hov Hnb.
  destruct (chunkText_total t maxChunkSize overlapSize Hmax Hov Hnb)
    as (cs & Hcs & Hch & Hcov & _).
  exists cs. repeat split; try done.
  - eapply Forall_impl; [exact Hch|]. intros c (Hc & _).
    unfold validSpan. apply Z.ltb_lt. lia.
  - eapply Forall_impl; [exact Hch|]. by intros c (_ & _ & Hc & _).
Qed.

Lemma chunkText_covers_cleaned_text_witness :
  exists cs,
    (forall fuel, (List.length spacedWords <= fuel)%nat ->
       chunkText fuel spacedWords 10 2 = Some cs)
    /\ Forall (fun c => validSpan c = true) cs
    /\ coversUpTo (length (cleanText spacedWords)) cs = true
    /\ Forall (fun c => content c
                       = trim (substring (cleanText spacedWords)
                                 (startOffset c) (endOffset c))) cs.
Proof.
  apply chunkText_covers_cleaned_text; [lia|lia|].
  vm_compute. discriminate.
Defined.

(** C3 as stated fails: the text ["aaaa  bbbb cccc dddd"] has 20 characters
    and is longer than the window of 10, but the last chunk ends at 19, and
    the first chunk is not the piece of the source between its offsets. *)
Lemma chunkText_offsets_not_into_source :
  10 < length spacedWords /\ trim spacedWords <> []
  /\ exists cs,
       chunkText 20 spacedWords 10 2 = Some cs
       /\ lastEnd cs = Some 19
       /\ coversUpTo (length spacedWords) cs = false
       /\ exists c, head cs = Some c
                    /\ content c
                       <> trim (substring spacedWords (startOffset c) (endOffset c)).
Proof.
  split; [by vm_compute|]. split; [vm_compute; discriminate|].
  eexists. split; [vm_compute; reflexivity|].
  split; [by vm_compute|]. split; [by vm_compute|].
  eexists. split; [reflexivity|]. vm_compute. discriminate.
Qed.

Lemma chunkLoop_stuck (fuel : nat) (s : text) (maxChunkSize overlapSize : Z)
    (st : LoopState) :
  currentPosition st < length s ->
  chunkStep s maxChunkSize overlapSize st = st ->
  chunkLoop fuel s maxChunkSize overlapSize st = None.
Proof.
  intros Hlt Hfix. apply Z.ltb_lt in Hlt.
  induction fuel as [|fuel IH]; simpl; rewrite Hlt; [done|]. by rewrite Hfix.
Qed.

(** C7, at the failing input. [chunkText("a b", { maxChunkSize: 1,
    overlapSize: 1 })] never leaves its loop: after the chunk ["a"] the
    piece at position 1 is blank, no chunk is pushed, the guard compares the
    next position 1 with the start 0 of the last chunk pushed, and the
    position stays at 1. *)
Theorem chunkText_loops_forever (fuel : nat) :
  chunkText fuel twoLetters 1 1 = None.
Proof.
  rewrite chunkText_not_blank by (vm_compute; discriminate).
  change (length (cleanText twoLetters) <=? 1) with false. cbv iota.
  destruct fuel as [|fuel]; [done|].
  change (chunkLoop (S fuel) (cleanText twoLetters) 1 1 (mkLoop [] 0 0))
    with (chunkLoop fuel (cleanText twoLetters) 1 1
            (chunkStep (cleanText twoLetters) 1 1 (mkLoop [] 0 0))).
  apply chunkLoop_stuck; by vm_compute.
Qed.

End ChunkerFacts.

(** ** Facts about the section detector *)

Module SectionsFacts.
Import Js JsFacts Sections.

(** C4, at the failing input. On ["intro\n# Title\nbody"] the line before
    the first heading belongs to no section: the only section returned
    starts at offset 6, so the sections do not cover the text from 0. *)
Theorem detectSections_drops_preamble :
  detectSections withPreamble
  = Ok [mkSection (of_string "Title")
          (of_string "# Title" ++ [newline] ++ of_string "body") 6 18]
  /\ (forall secs, detectSections withPreamble = Ok secs ->
        coversText withPreamble secs = false).
Proof.
  assert (H : detectSections withPreamble
              = Ok [mkSection (of_string "Title")
                      (of_string "# Title" ++ [newline] ++ of_string "body")
                      6 18]) by (by vm_compute).
  split; [done|]. intros secs. rewrite H. by intros [= <-].
Qed.

(** A heading found after a carriage return inside a line that starts with
    [#]: the title is read from group 2, which the all-caps pattern does not
    have, and [detectSections] throws. *)
Lemma detectSections_throws :
  detectSections hashThenCaps = Err typeError.
Proof. by vm_compute. Qed.

(** Without a heading line the whole text is one section named
    ["Document"]. *)
Lemma detectSections_plain :
  detectSections (of_string "just some text")
  = Ok [mkSection (of_string "Document") (of_string "just some text") 0 14].
Proof. by vm_compute. Qed.

Lemma finish_not_nil (t : text) (st : DetectState) : finish t st <> [].
Proof.
  unfold finish. cbv zeta.
  by destruct (currentSection st) as [cur|];
    [destruct (0 <? _)|]; destruct (sections st) as [|x [|y l]].
Qed.

(** What [detectSections] returns is never empty. *)
Lemma detectSections_not_nil (t : text) (secs : list DocumentSection) :
  detectSections t = Ok secs -> secs <> [].
Proof.
  unfold detectSections. destruct (lineLoop _ _ _); [|done].
  intros [= <-]. apply finish_not_nil.
Qed.

(** *** The sections that are returned follow each other *)

Lemma splitLines_not_nil (s : text) : splitLines s <> [].
Proof.
  induction s as [|c s IH]; simpl; [done|].
  destruct (c =? newline)%N; [done|]. by destruct (splitLines s).
Qed.

Lemma join_splitLines (s : text) : join [newline] (splitLines s) = s.
Proof.
  induction s as [|c s IH]; [done|]. simpl.
  pose proof (splitLines_not_nil s) as Hne.
  destruct (c =? newline)%N eqn:Hc.
  - apply N.eqb_eq in Hc. subst c.
    destruct (splitLines s) as [|l ls]; [done|].
    change (join [newline] ([] :: l :: ls))
      with ([] ++ [newline] ++ join [newline] (l :: ls)).
    by rewrite IH.
  - destruct (splitLines s) as [|l ls]; [done|].
    rewrite <- IH. by destruct ls.
Qed.

Lemma matchHeading_not_blank (line : text) :
  matchHeading line <> NoHeading -> forallb isSpace line = false.
Proof.
  intros H. apply not_true_iff_false. intros Hb%trim_nil_iff.
  apply H. unfold matchHeading. rewrite Hb. by vm_compute.
Qed.

Lemma not_blank_app (line x : text) :
  forallb isSpace line = false -> trim (line ++ x) <> [].
Proof.
  intros H Ht%trim_nil_iff. rewrite forallb_app, H in Ht. done.
Qed.

Lemma substring_middle (pre line rest : text) (e : Z) :
  length pre + length line <= e ->
  exists x, substring (pre ++ line ++ rest) (length pre) e = line ++ x.
Proof.
  intros He. unfold substring.
  set (t := pre ++ line ++ rest).
  assert (Ha : clamp t (length pre) = List.length pre).
  { unfold clamp, t, length. rewrite !length_app. lia. }
  assert (Hb : (List.length pre + List.length line <= clamp t e)%nat).
  { unfold clamp, t, length in *. rewrite !length_app. lia. }
  rewrite Ha. rewrite Nat.min_l, Nat.max_r by lia.
  unfold t at 2. rewrite drop_app_length.
  exists (take (clamp t e - List.length pre - List.length line) rest).
  rewrite take_app, (take_ge line) by lia. done.
Qed.

Lemma substringFrom_middle (pre line rest : text) :
  substringFrom (pre ++ line ++ rest) (length pre) = line ++ rest.
Proof.
  unfold substringFrom.
  assert (Ha : clamp (pre ++ line ++ rest) (length pre) = List.length pre).
  { unfold clamp, length. rewrite !length_app. lia. }
  rewrite Ha. apply drop_app_length.
Qed.

Lemma contiguous_snoc (p : Z) (secs : list DocumentSection)
    (sec : DocumentSection) :
  contiguous p secs = true ->
  default p (endOffset <$> last secs) = startOffset sec ->
  contiguous p (secs ++ [sec]) = true.
Proof.
  revert p. induction secs as [|x secs IH]; intros p; simpl.
  - intros _ ->. by rewrite Z.eqb_refl.
  - intros [Hx Hc]%andb_true_iff Hl. rewrite Hx. simpl. apply IH; [done|].
    destruct secs as [|y secs]; [done|].
    change (last (x :: y :: secs)) with (last (y :: secs)) in Hl.
    destruct (last (y :: secs)) eqn:E; [done|]. by apply last_None in E.
Qed.

Lemma chainOk_snoc (secs : list DocumentSection) (sec : DocumentSection) :
  chainOk secs ->
  match last secs with
  | Some l => endOffset l = startOffset sec
  | None => True
  end ->
  chainOk (secs ++ [sec]).
Proof.
  destruct secs as [|x secs]; [done|]. simpl. intros Hc Hl.
  apply contiguous_snoc; [done|].
  destruct secs as [|y secs]; [done|].
  change (last (x :: y :: secs)) with (last (y :: secs)) in Hl.
  destruct (last (y :: secs)) eqn:E; [done|]. by apply last_None in E.
Qed.

Lemma closeSection_open (t : text) (st : DetectState) (cur : DocumentSection) :
  currentSection st = Some cur -> openOk t st ->
  closeSection t st (currentOffset st)
  = sections st
    ++ [mkSection (title cur)
          (trim (substring t (startOffset cur) (currentOffset st)))
          (startOffset cur) (currentOffset st)].
Proof.
  intros Hcur Hopen. unfold openOk in Hopen. rewrite Hcur in Hopen.
  destruct Hopen as (_ & _ & pre & line & rest & -> & Hstart & Hnb & Hle).
  unfold closeSection. rewrite Hcur, Hstart.
  destruct (substring_middle pre line rest (currentOffset st) Hle) as [x ->].
  pose proof (not_blank_app line x Hnb) as Hne.
  rewrite <- length_nil_iff in Hne. pose proof (length_nonneg (trim (line ++ x))).
  destruct (0 <? _) eqn:E; [done|]. apply Z.ltb_ge in E. lia.
Qed.

Lemma lineStep_inv (t pre line rest : text) (st st' : DetectState) :
  t = pre ++ line ++ rest -> currentOffset st = length pre ->
  chainOk (sections st) -> openOk t st ->
  lineStep t st line = Some st' ->
  chainOk (sections st') /\ openOk t st'
  /\ currentOffset st' = length pre + length line + 1.
Proof.
  intros Ht Hoff Hchain Hopen. unfold lineStep.
  pose proof (length_nonneg line) as Hline.
  destruct (matchHeading line) as [|headingTitle|] eqn:Hm; [| |done].
  - intros [= <-]. cbn. repeat split; [done| |lia].
    unfold openOk in *; cbn. destruct (currentSection st) as [cur|]; [|done].
    destruct Hopen as (He & Hl & pre' & line' & rest' & ? & ? & ? & ?).
    repeat split; try done. exists pre', line', rest'. repeat split; try done. lia.
  - intros [= <-]. cbn [sections currentSection currentOffset].
    assert (Hnb : forallb isSpace line = false)
      by (apply matchHeading_not_blank; by rewrite Hm).
    destruct (currentSection st) as [cur|] eqn:Hcur.
    + rewrite (closeSection_open t st cur Hcur Hopen).
      unfold openOk in Hopen. rewrite Hcur in Hopen.
      destruct Hopen as (He & Hl & _).
      split; [by apply chainOk_snoc|]. split; [|lia].
      unfold openOk; cbn. rewrite last_snoc. repeat split; try done.
      exists pre, line, rest. repeat split; try done. lia.
    + unfold openOk in Hopen. rewrite Hcur in Hopen.
      unfold closeSection. rewrite Hcur, Hopen.
      split; [done|]. split; [|lia].
      unfold openOk; cbn. repeat split; try done.
      exists pre, line, rest. repeat split; try done. lia.
Qed.

Lemma lineLoop_inv (t : text) (lines : list text) (pre : text)
    (st st' : DetectState) :
  lines <> [] -> t = pre ++ join [newline] lines ->
  currentOffset st = length pre ->
  chainOk (sections st) -> openOk t st ->
  lineLoop t st lines = Some st' ->
  chainOk (sections st') /\ openOk t st'.
Proof.
  revert pre st. induction lines as [|line lines IH]; [done|].
  intros pre st _ Ht Hoff Hchain Hopen. simpl.
  destruct (lineStep t st line) as [st1|] eqn:Hstep; [|done].
  destruct lines as [|line2 lines].
  - simpl. intros [= <-].
    destruct (lineStep_inv t pre line [] st st1) as (? & ? & _); try done.
    by rewrite app_nil_r.
  - destruct (lineStep_inv t pre line ([newline] ++ join [newline] (line2 :: lines))
                st st1) as (Hc1 & Ho1 & Hoff1); try done.
    apply (IH (pre ++ line ++ [newline]) st1); try done.
    + rewrite Ht. cbn [join]. by rewrite <- !app_assoc.
    + rewrite Hoff1. unfold length. rewrite !length_app. simpl. lia.
Qed.

(** Whatever the text, the sections returned are not empty, each ends where
    the next one starts, and the last one ends at the end of the text. *)
Lemma detectSections_contiguous (t : text) (secs : list DocumentSection) :
  detectSections t = Ok secs -> contiguousTo (length t) secs = true.
Proof.
  unfold detectSections.
  destruct (lineLoop t _ _) as [st|] eqn:Hloop; [|done]. intros [= <-].
  destruct (lineLoop_inv t (splitLines t) [] (mkDetect [] None 0) st)
    as [Hchain Hopen]; try done.
  { apply splitLines_not_nil. }
  { by rewrite join_splitLines. }
  unfold finish, openOk in *. cbv zeta.
  destruct (currentSection st) as [cur|].
  - destruct Hopen as (He & Hl & pre & line & rest & -> & Hstart & Hnb & _).
    rewrite Hstart, substringFrom_middle.
    pose proof (not_blank_app line rest Hnb) as Hne.
    rewrite <- length_nil_iff in Hne.
    pose proof (length_nonneg (trim (line ++ rest))).
    destruct (0 <? _) eqn:E; [|apply Z.ltb_ge in E; lia].
    set (closed := mkSection _ _ _ _).
    assert (Hc : chainOk (sections st ++ [closed])).
    { apply chainOk_snoc; [done|]. unfold closed; cbn. by rewrite <- Hstart. }
    assert (Hlast : endOffset <$> last (sections st ++ [closed])
                    = Some (length (pre ++ line ++ rest))).
    { rewrite last_snoc. unfold closed; cbn. by rewrite He. }
    destruct (sections st ++ [closed]) as [|x l] eqn:Hx;
      [by destruct (sections st)|].
    unfold contiguousTo. simpl in Hc. rewrite Hc. simpl.
    by apply bool_decide_eq_true.
  - rewrite Hopen. unfold contiguousTo; cbn. by apply bool_decide_eq_true.
Qed.

(** *** The loops of [chunkDocument] end *)

Definition shortSections (t : text) (secs : list DocumentSection) : Prop :=
  Forall (fun sec => length (content sec) <= length t) secs.

Lemma closeSection_short (t : text) (st : DetectState) (lineStart : Z) :
  shortSections t (sections st) ->
  shortSections t (closeSection t st lineStart).
Proof.
  intros H. unfold closeSection. destruct (currentSection st) as [cur|]; [|done].
  destruct (0 <? _); [|done]. apply Forall_app. split; [done|].
  constructor; [|done]. cbn.
  pose proof (length_trim_le (substring t (startOffset cur) lineStart)).
  pose proof (length_substring_le t (startOffset cur) lineStart). lia.
Qed.

Lemma lineLoop_short (t : text) (lines : list text) (st st' : DetectState) :
  shortSections t (sections st) ->
  lineLoop t st lines = Some st' ->
  shortSections t (sections st').
Proof.
  revert st. induction lines as [|line lines IH]; intros st Hst; simpl.
  - by intros [= <-].
  - destruct (lineStep t st line) as [st1|] eqn:Hstep; [|done].
    apply IH. unfold lineStep in Hstep.
    destruct (matchHeading line); try done; injection Hstep as <-; cbn;
      [done|by apply closeSection_short].
Qed.

Lemma finish_short (t : text) (st : DetectState) :
  shortSections t (sections st) -> shortSections t (finish t st).
Proof.
  intros H. unfold finish. cbv zeta.
  assert (Hdoc : shortSections t
                   [mkSection (of_string "Document") (trim t) 0 (length t)]).
  { constructor; [|done]. cbn. apply length_trim_le. }
  destruct (currentSection st) as [cur|].
  - destruct (0 <? _).
    + assert (Hx : shortSections t
                     (sections st
                      ++ [mkSection (title cur)
                            (trim (substringFrom t (startOffset cur)))
                            (startOffset cur) (endOffset cur)])).
      { apply Forall_app. split; [done|]. constructor; [|done]. cbn.
        pose proof (length_trim_le (substringFrom t (startOffset cur))).
        pose proof (length_substringFrom_le t (startOffset cur)). lia. }
      by destruct (sections st ++ _).
    + by destruct (sections st).
  - by destruct (sections st).
Qed.

Lemma detectSections_short (t : text) (secs : list DocumentSection) :
  detectSections t = Ok secs -> shortSections t secs.
Proof.
  unfold detectSections.
  destruct (lineLoop t _ _) as [st|] eqn:Hloop; [|done]. intros [= <-].
  apply finish_short. eapply lineLoop_short; [|done]. constructor.
Qed.

Lemma chunkSections_returns (fuel : nat) (t : text)
    (maxChunkSize overlapSize : Z) (secs : list DocumentSection)
    (allChunks : list Chunker.TextChunk) :
  2 <= maxChunkSize -> 0 <= overlapSize -> (List.length t <= fuel)%nat ->
  shortSections t secs ->
  is_Some (chunkSections fuel maxChunkSize overlapSize secs allChunks).
Proof.
  intros Hmax Hov Hfuel Hsecs. revert allChunks.
  induction Hsecs as [|sec secs Hsec _ IH]; intros allChunks; simpl; [done|].
  destruct (ChunkerFacts.chunkText_returns fuel (content sec) maxChunkSize
              overlapSize Hmax Hov) as [cs ->]; [unfold length in *; lia|].
  apply IH.
Qed.

(** With a window of two or more characters and a non-negative overlap,
    [chunkDocument] is done when every loop gets as much fuel as the text
    has characters. *)
Lemma chunkDocument_returns (fuel : nat) (t : text)
    (maxChunkSize overlapSize : Z) (preserveSections : bool) :
  2 <= maxChunkSize -> 0 <= overlapSize -> (List.length t <= fuel)%nat ->
  is_Some (chunkDocument fuel t maxChunkSize overlapSize preserveSections).
Proof.
  intros Hmax Hov Hfuel. unfold chunkDocument.
  destruct (_ =? _); [done|]. destruct (_ <=? _); [done|].
  destruct preserveSections.
  - destruct (detectSections t) as [secs|e] eqn:Hd; [|done].
    destruct (chunkSections_returns fuel t maxChunkSize overlapSize secs []
                Hmax Hov Hfuel (detectSections_short t secs Hd)) as [cs ->].
    done.
  - by destruct (ChunkerFacts.chunkText_returns fuel t maxChunkSize overlapSize
                   Hmax Hov Hfuel) as [cs ->].
Qed.

End SectionsFacts.

(** ** Facts about the embedding orchestrator *)

Module EmbeddingsFacts.
Import Js Embeddings.

Lemma ceilDiv_pos (len batchSize : Z) :
  0 < batchSize ->
  exists n, ceilDiv len (Num batchSize) = Num n
            /\ len <= n * batchSize < len + batchSize.
Proof.
  intros Hb. unfold ceilDiv.
  destruct (batchSize =? 0) eqn:E; [apply Z.eqb_eq in E; lia|].
  eexists. split; [done|].
  pose proof (Z.div_mod (- len) batchSize ltac:(lia)).
  pose proof (Z.mod_pos_bound (- len) batchSize Hb). nia.
Qed.

(** Between whole numbers [sliceNumber] is the [slice] of whole numbers. *)
Lemma sliceNumber_Num {A : Type} (l : list A) (a b : Z) :
  sliceNumber l (Num a) (Num b) = slice l a b.
Proof. reflexivity. Qed.

Lemma slice_in_range {A : Type} (l : list A) (a b : Z) :
  0 <= a <= b -> b <= Z.of_nat (List.length l) ->
  slice l a b = take (Z.to_nat b - Z.to_nat a) (drop (Z.to_nat a) l).
Proof.
  intros Ha Hb. unfold slice, sliceIndex.
  destruct (a <? 0) eqn:Ea; [apply Z.ltb_lt in Ea; lia|].
  destruct (b <? 0) eqn:Eb; [apply Z.ltb_lt in Eb; lia|].
  rewrite !Z.min_l by lia. f_equal. lia.
Qed.

Lemma take_take_drop {A : Type} (l : list A) (n m : nat) :
  (n <= m)%nat -> take n l ++ take (m - n) (drop n l) = take m l.
Proof.
  intros H. rewrite <- (take_drop n (take m l)).
  rewrite take_take, Nat.min_l by lia. f_equal.
  by rewrite skipn_firstn_comm.
Qed.

Section Batch.
Context {Vec : Type}.
Variable generateEmbeddings : list text -> Z -> Result (list Vec).
Variable embed : text -> Vec.
(** The per-batch capability keeps the order, whatever the parallelism. *)
Hypothesis generateEmbeddings_map :
  forall texts maxParallelCalls,
    generateEmbeddings texts maxParallelCalls = Ok (map embed texts).

Lemma batchLoop_map (fuel : nat) (texts : list text) (batchSize n i : Z) :
  0 < batchSize ->
  ceilDiv (Z.of_nat (List.length texts)) (Num batchSize) = Num n ->
  Z.of_nat (List.length texts) <= n * batchSize
     < Z.of_nat (List.length texts) + batchSize ->
  0 <= i <= n -> n - i <= Z.of_nat fuel ->
  batchLoop generateEmbeddings fuel texts (Num batchSize) i
    (map embed (take (Z.to_nat (i * batchSize)) texts))
  = Some (Ok (map embed texts)).
Proof.
  intros Hb Hn Hbound. revert i.
  induction fuel as [|fuel IH]; intros i Hi Hfuel.
  - cbn [batchLoop]. rewrite Hn. cbn [ltNumber].
    destruct (i <? n) eqn:E; [apply Z.ltb_lt in E; lia|].
    rewrite take_ge by nia. done.
  - cbn [batchLoop]. rewrite Hn. cbn [ltNumber mulNumber addNumber minNumber].
    destruct (i <? n) eqn:E.
    + apply Z.ltb_lt in E. rewrite generateEmbeddings_map.
      rewrite <- map_app, sliceNumber_Num, slice_in_range by nia.
      rewrite take_take_drop by nia.
      destruct (Z.min_spec (i * batchSize + batchSize)
                  (Z.of_nat (List.length texts))) as [[Hlt ->]|[Hge ->]].
      * replace (i * batchSize + batchSize) with ((i + 1) * batchSize) by lia.
        apply IH; lia.
      * rewrite Nat2Z.id, firstn_all.
        pose proof (IH (i + 1) ltac:(lia) ltac:(lia)) as Hnext.
        by rewrite take_ge in Hnext by nia.
    + apply Z.ltb_ge in E. rewrite take_ge by nia. done.
Qed.

Lemma batchGenerateEmbeddings_map (fuel : nat) (texts : list text)
    (batchSize : Z) :
  0 < batchSize -> (List.length texts <= fuel)%nat ->
  batchGenerateEmbeddings generateEmbeddings fuel texts (Num batchSize)
  = Some (Ok (embedManySpec embed texts)).
Proof.
  intros Hb Hfuel.
  destruct (ceilDiv_pos (Z.of_nat (List.length texts)) batchSize Hb)
    as (n & Hn & Hbound).
  unfold batchGenerateEmbeddings, embedManySpec.
  change (@nil Vec) with (map embed (take (Z.to_nat (0 * batchSize)) texts)).
  eapply batchLoop_map; [done|done|done|nia|nia].
Qed.

End Batch.

(** The double nearest to 4/3. *)
Example ofQ_four_thirds :
  ofQ (4 # 3) = Frac (6004799503160661 # 4503599627370496).
Proof. vm_compute. reflexivity. Qed.

(** The batches of eight texts at sizes that are no positive whole number:
    none at an infinite size and at -1; at the double nearest to 4/3 six
    batches that leave out the last text. *)
Example batchGenerateEmbeddings_other_sizes :
  let texts := map (fun n => replicate n 97%N) (seq 1 8) in
  batchGenerateEmbeddings lengthEmbedder 8 texts PosInfinity = Some (Ok [])
  /\ batchGenerateEmbeddings lengthEmbedder 8 texts (Num (-1)) = Some (Ok [])
  /\ batchGenerateEmbeddings lengthEmbedder 8 texts (ofQ (4 # 3))
     = Some (Ok [1; 2; 3; 4; 5; 6; 7]).
Proof. vm_compute. repeat split. Qed.

(** C8. For every list of texts and every batch size, a positive whole
    number of texts, given a per-batch capability that returns the vectors
    of its texts in order whatever its parallelism,
    [batchGenerateEmbeddings] returns one vector per text with vector [i]
    the vector of text [i]: it equals one order-preserving map over the
    whole list, whatever the batch size and the parallelism, and the loop
    ends within as many iterations as there are texts. *)
Theorem batchGenerateEmbeddings_preserves_order {Vec : Type}
    (generateEmbeddings : list text -> Z -> Result (list Vec))
    (embed : text -> Vec) (fuel : nat) (texts : list text) (batchSize : Z) :
  (forall batch maxParallelCalls,
     generateEmbeddings batch maxParallelCalls = Ok (map embed batch)) ->
  0 < batchSize -> (List.length texts <= fuel)%nat ->
  batchGenerateEmbeddings generateEmbeddings fuel texts (Num batchSize)
  = Some (Ok (embedManySpec embed texts)).
Proof. intros H. by apply batchGenerateEmbeddings_map. Qed.

Lemma batchGenerateEmbeddings_preserves_order_witness :
  batchGenerateEmbeddings lengthEmbedder 3
    [of_string "a"; of_string "bb"; of_string "ccc"] (Num 2)
  = Some (Ok (embedManySpec length
                [of_string "a"; of_string "bb"; of_string "ccc"])).
Proof.
  apply batchGenerateEmbeddings_preserves_order; [reflexivity|lia|simpl; lia].
Defined.

End EmbeddingsFacts.

(** ** Facts about the repository *)

Module RepositoryFacts.
Import Js Repository Service Samples.

(** The row that [setStatus] gives when the counter has room. *)
Lemma setStatus_Ok (now : Z) (status : ContentStatus)
    (errorMessage : option text) (c : Content.t) :
  Content.processingAttempts c < int4Max ->
  exists c',
    setStatus now status errorMessage c = Ok c'
    /\ Content.status c' = status
    /\ Content.processingAttempts c' = Content.processingAttempts c + 1
    /\ Content.errorMessage c' = orNull errorMessage
    /\ Content.updatedAt c' = now
    /\ Content.completedAt c'
       = (if decide (status = Completed) then Some now else None)
    /\ (Content.id c', Content.type c', Content.url c', Content.fileUrl c',
         Content.title c', Content.description c', Content.contentPreview c',
         Content.imageUrl c', Content.metadata c', Content.createdAt c')
       = (Content.id c, Content.type c, Content.url c, Content.fileUrl c,
          Content.title c, Content.description c, Content.contentPreview c,
          Content.imageUrl c, Content.metadata c, Content.createdAt c).
Proof.
  intros Hroom. unfold setStatus.
  destruct (int4Max <? Content.processingAttempts c + 1) eqn:E;
    [apply Z.ltb_lt in E; lia|].
  eexists. split; [done|]. by cbn.
Qed.

Lemma setStatus_inv (now : Z) (status : ContentStatus)
    (errorMessage : option text) (c c' : Content.t) :
  setStatus now status errorMessage c = Ok c' ->
  Content.processingAttempts c < int4Max
  /\ Content.id c' = Content.id c
  /\ Content.status c' = status
  /\ Content.processingAttempts c' = Content.processingAttempts c + 1
  /\ Content.errorMessage c' = orNull errorMessage
  /\ Content.completedAt c'
     = (if decide (status = Completed) then Some now else None).
Proof.
  unfold setStatus.
  destruct (int4Max <? Content.processingAttempts c + 1) eqn:E; [done|].
  apply Z.ltb_ge in E. intros [= <-]. cbn. repeat split; try done. lia.
Qed.

(** When the counter has room, [updateStatus] writes the row of
    [setStatus] under the id. *)
Lemma updateStatus_lookup (now : Z) (id : text) (status : ContentStatus)
    (errorMessage : option text) (d : Db) (c : Content.t) :
  contents d !! id = Some c ->
  Content.processingAttempts c < int4Max ->
  exists c',
    setStatus now status errorMessage c = Ok c'
    /\ updateStatus now id status errorMessage d
       = Ok (mkDb (<[id := c']> (contents d)) (contentChunks d)).
Proof.
  intros Hc Hroom.
  destruct (setStatus_Ok now status errorMessage c Hroom) as (c' & Hset & _).
  exists c'. split; [done|]. unfold updateStatus. by rewrite Hc, Hset.
Qed.

(** What a call of [updateStatus] that returns has done. *)
Lemma updateStatus_inv (now : Z) (id : text) (status : ContentStatus)
    (errorMessage : option text) (d d' : Db) :
  updateStatus now id status errorMessage d = Ok d' ->
  contentChunks d' = contentChunks d
  /\ (forall id', id' <> id -> contents d' !! id' = contents d !! id')
  /\ match contents d !! id with
     | Some c =>
         exists c', setStatus now status errorMessage c = Ok c'
                    /\ contents d' = <[id := c']> (contents d)
     | None => d' = d
     end.
Proof.
  unfold updateStatus. destruct (contents d !! id) as [c|] eqn:Hc.
  - destruct (setStatus now status errorMessage c) as [c'|e] eqn:Hset; [|done].
    intros [= <-]. cbn. split; [done|]. split; [|by exists c'].
    intros id' Hne. by rewrite lookup_insert_ne.
  - by intros [= <-].
Qed.

(** At the largest value of the counter the statement fails, whatever the
    status. *)
Lemma updateStatus_out_of_range (now : Z) (id : text) (status : ContentStatus)
    (errorMessage : option text) (d : Db) (c : Content.t) :
  contents d !! id = Some c ->
  int4Max <= Content.processingAttempts c ->
  updateStatus now id status errorMessage d = Err integerOutOfRange.
Proof.
  intros Hc Hmax. unfold updateStatus, setStatus. rewrite Hc.
  destruct (int4Max <? Content.processingAttempts c + 1) eqn:E; [done|].
  apply Z.ltb_ge in E. lia.
Qed.

(** C10 (amended). Whatever the target status, [updateStatus] on an existing
    row whose attempt counter is below 2147483647, the largest value of its
    [integer] column, returns and adds exactly 1 to [processingAttempts],
    sets [errorMessage] to the message given when that is a non-empty
    string and to null when none is given or when it is the empty string,
    sets [updatedAt] to the current time, and sets [completedAt] to the
    current time exactly when the new status is [Completed] and to null
    otherwise; the other columns, the other rows and the chunks are left as
    they are. *)
Theorem updateStatus_row (now : Z) (id : text) (status : ContentStatus)
    (errorMessage : option text) (d : Db) (c : Content.t) :
  contents d !! id = Some c ->
  Content.processingAttempts c < int4Max ->
  exists d' c',
    updateStatus now id status errorMessage d = Ok d'
    /\ contents d' !! id = Some c'
    /\ Content.status c' = status
    /\ Content.processingAttempts c' = Content.processingAttempts c + 1
    /\ (forall m, errorMessage = Some m -> m <> [] ->
          Content.errorMessage c' = Some m)
    /\ (errorMessage = None \/ errorMessage = Some [] ->
          Content.errorMessage c' = None)
    /\ Content.updatedAt c' = now
    /\ (status = Completed -> Content.completedAt c' = Some now)
    /\ (status <> Completed -> Content.completedAt c' = None)
    /\ (Content.id c', Content.type c', Content.url c', Content.fileUrl c',
         Content.title c', Content.description c', Content.contentPreview c',
         Content.imageUrl c', Content.metadata c', Content.createdAt c')
       = (Content.id c, Content.type c, Content.url c, Content.fileUrl c,
          Content.title c, Content.description c, Content.contentPreview c,
          Content.imageUrl c, Content.metadata c, Content.createdAt c)
    /\ (forall id', id' <> id -> contents d' !! id' = contents d !! id')
    /\ contentChunks d' = contentChunks d.
Proof.
  intros Hc Hroom.
  destruct (setStatus_Ok now status errorMessage c Hroom)
    as (c' & Hset & Hs & Ha & He & Hu & Hd & Hrest).
  exists (mkDb (<[id := c']> (contents d)) (contentChunks d)), c'.
  split; [unfold updateStatus; by rewrite Hc, Hset|]. cbn [contents contentChunks].
  split; [by rewrite lookup_insert_eq|]. rewrite He, Hd.
  repeat split; try done.
  - by intros [|x m] -> Hm.
  - by intros [-> | ->].
  - intros ->. by rewrite decide_True.
  - intros Hne. by rewrite decide_False.
  - intros id' Hne. by rewrite lookup_insert_ne.
Qed.

Lemma updateStatus_row_witness :
  exists d' c',
    updateStatus 50 (of_string "url_1") Processing None oneFailedPage = Ok d'
    /\ contents d' !! of_string "url_1" = Some c'
    /\ Content.status c' = Processing
    /\ Content.processingAttempts c' = 3
    /\ Content.errorMessage c' = None
    /\ Content.completedAt c' = None.
Proof.
  destruct (updateStatus_row 50 (of_string "url_1") Processing None
              oneFailedPage failedPage)
    as (d' & c' & Hd & Hc & Hs & Ha & _ & He & _ & _ & Hn & _);
    [reflexivity|by vm_compute|].
  exists d', c'. repeat split; try done.
  - by apply He; left.
  - by apply Hn.
Defined.

(** C10 as stated fails for the empty message: [updateStatus(id, 'failed',
    '')] stores null, not the message given. It also fails on a row whose
    counter is at the largest value of its column: the call fails and
    nothing is incremented. *)
Lemma updateStatus_empty_message :
  (exists d' c',
     updateStatus 50 (of_string "url_1") Failed (Some []) oneFailedPage = Ok d'
     /\ contents d' !! of_string "url_1" = Some c'
     /\ Content.errorMessage c' = None
     /\ Content.errorMessage c' <> Some [])
  /\ updateStatus 50 (of_string "url_1") Processing None oneWornPage
     = Err integerOutOfRange.
Proof.
  split; [|reflexivity].
  eexists _, _. split; [reflexivity|]. split; [reflexivity|]. by split.
Qed.

(** [updateStatus] keeps the invariant of completed items. *)
Lemma updateStatus_completedHaveTimestamp (now : Z) (id : text)
    (status : ContentStatus) (errorMessage : option text) (d d' : Db) :
  completedHaveTimestamp d ->
  updateStatus now id status errorMessage d = Ok d' ->
  completedHaveTimestamp d'.
Proof.
  unfold completedHaveTimestamp. intros H (_ & Hother & Hrow)%updateStatus_inv.
  destruct (contents d !! id) as [c|] eqn:Hc; [|by subst d'].
  destruct Hrow as (c' & Hset & Hd'). rewrite Hd'. intros id' c''.
  destruct (decide (id = id')) as [<-|Hne].
  - rewrite lookup_insert_eq. intros [= <-].
    apply setStatus_inv in Hset as (_ & _ & Hs & _ & _ & Hdone).
    rewrite Hs, Hdone. intros ->. by rewrite decide_True.
  - rewrite lookup_insert_ne by done. apply H.
Qed.

(** [create] stores the status it is given and no completion time unless
    one is given too. *)
Lemma create_completed_row (now : Z) (data : NewContent.t) (d d' : Db)
    (c : Content.t) :
  create now data d = Ok (c, d') ->
  contents d' !! NewContent.id data = Some c
  /\ Content.status c = default Pending (NewContent.status data)
  /\ Content.completedAt c = NewContent.completedAt data
  /\ Content.processingAttempts c
     = default 0 (NewContent.processingAttempts data)
  /\ Content.errorMessage c = NewContent.errorMessage data.
Proof.
  unfold create. destruct (contents d !! NewContent.id data); [done|].
  intros [= <- <-]. cbn. by rewrite lookup_insert_eq.
Qed.

(** *** Vector search *)

Lemma Qltb_lt (x y : Q) : Qltb x y = true <-> (x < y)%Q.
Proof.
  unfold Qltb. rewrite negb_true_iff, <- not_true_iff_false, Qle_bool_iff.
  split; [apply Qnot_le_lt|apply Qlt_not_le].
Qed.

Lemma Qltb_ge (x y : Q) : Qltb x y = false <-> (y <= x)%Q.
Proof.
  unfold Qltb. by rewrite negb_false_iff, Qle_bool_iff.
Qed.

Lemma filter_length_0 {A : Type} (f : A -> bool) (l : list A) (x : A) :
  List.length (List.filter f l) = 0%nat -> x ∈ l -> f x = false.
Proof.
  induction l as [|y l IH]; simpl; [by intros _ ?%elem_of_nil|].
  destruct (f y) eqn:Hy; [done|].
  intros H [->|Hx]%elem_of_cons; [done|by apply IH].
Qed.

Lemma filter_none_length {A : Type} (f : A -> bool) (l : list A) :
  (forall x, x ∈ l -> f x = false) -> List.length (List.filter f l) = 0%nat.
Proof.
  induction l as [|y l IH]; simpl; [done|]. intros H.
  rewrite (H y) by apply list_elem_of_here.
  apply IH. intros x Hx. apply H. by apply list_elem_of_further.
Qed.

(** *** The order of [double precision] *)

Lemma ltFloat8_irrefl (x : Float8) : ltFloat8 x x = false.
Proof. destruct x as [a|]; [|done]. apply Qltb_ge, Qle_refl. Qed.

Lemma leFloat8_Number (a b : Q) :
  leFloat8 (Number a) (Number b) <-> (a <= b)%Q.
Proof. unfold leFloat8. cbn. apply Qltb_ge. Qed.

Lemma ltFloat8_Number (a b : Q) :
  ltFloat8 (Number a) (Number b) = true <-> (a < b)%Q.
Proof. cbn. apply Qltb_lt. Qed.

#[local] Instance leFloat8_trans : Transitive leFloat8.
Proof.
  intros [a|] [b|] [c|]; unfold leFloat8; cbn; try done.
  rewrite !Qltb_ge. apply Qle_trans.
Qed.

#[local] Instance leFloat8_total : Total leFloat8.
Proof.
  intros [a|] [b|]; unfold leFloat8; cbn; try (by left); try (by right).
  rewrite !Qltb_ge. destruct (Qlt_le_dec a b) as [H|H];
    [left; by apply Qlt_le_weak|by right].
Qed.

Lemma ltFloat8_le (x y : Float8) : ltFloat8 x y = true -> leFloat8 x y.
Proof.
  destruct x as [a|], y as [b|]; unfold leFloat8; cbn; try done.
  rewrite Qltb_lt, Qltb_ge. apply Qlt_le_weak.
Qed.

Lemma ltFloat8_le_trans (x y z : Float8) :
  ltFloat8 x y = true -> leFloat8 y z -> ltFloat8 x z = true.
Proof.
  destruct x as [a|], y as [b|], z as [c|]; unfold leFloat8; cbn; try done.
  rewrite !Qltb_lt, Qltb_ge. apply Qlt_le_trans.
Qed.

Lemma ltFloat8_neq (x y : Float8) :
  ltFloat8 x y = true -> eqFloat8 y x = false.
Proof.
  destruct x as [a|], y as [b|]; cbn; try done.
  rewrite Qltb_lt. intros Hlt. apply not_true_iff_false.
  intros Heq%Qeq_bool_iff. rewrite Heq in Hlt. by apply Qlt_irrefl in Hlt.
Qed.

Lemma leFloat8_antisym (x y : Float8) :
  leFloat8 x y -> leFloat8 y x -> eqFloat8 x y = true.
Proof.
  destruct x as [a|], y as [b|]; unfold leFloat8; cbn; try done.
  rewrite !Qltb_ge. intros H1 H2. apply Qeq_bool_iff. by apply Qle_antisym.
Qed.

Lemma leFloat8_lt_cases (x y : Float8) :
  leFloat8 x y \/ ltFloat8 y x = true.
Proof. unfold leFloat8. destruct (ltFloat8 y x); eauto. Qed.

(** A smaller distance is a higher similarity. *)
Lemma oneMinus_antitone (d : Float8) (q : Q) :
  leFloat8 d (Number q) -> leFloat8 (Number (1 - q)) (oneMinus d).
Proof.
  destruct d as [a|]; [|done]. cbn [oneMinus].
  rewrite !leFloat8_Number. lra.
Qed.

#[local] Instance bySimilarityDesc_trans : Transitive bySimilarityDesc.
Proof.
  intros a b c Hab Hbc. unfold bySimilarityDesc in *. by etrans.
Qed.

#[local] Instance bySimilarityDesc_total : Total bySimilarityDesc.
Proof.
  intros a b. unfold bySimilarityDesc.
  destruct (leFloat8_total (resultSimilarity a) (resultSimilarity b));
    [by right|by left].
Qed.

Lemma StronglySorted_take {A : Type} (R : relation A) (n : nat) (l : list A) :
  StronglySorted R l -> StronglySorted R (take n l).
Proof.
  intros H. revert n. induction H as [|x l Hl IH Hx]; intros [|n]; simpl;
    try constructor; [apply IH|].
  by apply Forall_take.
Qed.

(** What is cut off a sorted list comes after everything that is kept, and
    the kept part is full. *)
Lemma sorted_cut {A : Type} (R : relation A) (n : nat) (l : list A) (x : A) :
  StronglySorted R l -> x ∈ l -> x ∉ take n l ->
  List.length (take n l) = n /\ Forall (fun y => R y x) (take n l).
Proof.
  intros Hs Hx Hnot. rewrite <- (take_drop n l) in Hx, Hs.
  apply elem_of_app in Hx as [Hx|Hx]; [done|]. split.
  - rewrite length_take. apply Nat.min_l.
    destruct (decide (n <= List.length l)%nat) as [|Hgt]; [done|].
    rewrite drop_ge in Hx by lia. by apply elem_of_nil in Hx.
  - apply Forall_forall. intros y Hy.
    by apply (StronglySorted_app_1_elem_of R (take n l) (drop n l)).
Qed.

Section Search.
Variable castError : Vector -> option text.
Variable cosineDistance : Vector -> Vector -> Result Float8.
Variables (queryEmbedding : Vector) (threshold : Q).

Local Abbreviation rankedRow := (rankedRow cosineDistance queryEmbedding threshold).
Local Abbreviation rankedRows := (rankedRows cosineDistance queryEmbedding threshold).
Local Abbreviation similarTo := (similarTo cosineDistance queryEmbedding).

Lemma rankedRow_Some (c : ContentChunk.t) (r : RankedChunk) :
  rankedRow c = Ok (Some r) ->
  exists d,
    similarTo c (oneMinus d)
    /\ content_id r = ContentChunk.contentId c
    /\ matched_chunk r = ContentChunk.content c
    /\ matched_section r = ContentChunk.section c
    /\ similarity r = oneMinus d
    /\ distance r = d
    /\ ltFloat8 (Number threshold) (similarity r) = true.
Proof.
  unfold Repository.rankedRow, Repository.similarTo.
  destruct (ContentChunk.embedding c) as [e|]; [|done].
  destruct (cosineDistance e queryEmbedding) as [d|] eqn:Hd; [|done].
  destruct (ltFloat8 _ _) eqn:Hlt; [|done]. intros [= <-].
  exists d. split; [by exists e, d|]. by repeat split.
Qed.

(** A chunk with an embedding is kept exactly when its similarity is above
    the threshold. *)
Lemma rankedRow_at (c : ContentChunk.t) (e : Vector) (dist : Float8)
    (o : option RankedChunk) :
  ContentChunk.embedding c = Some e ->
  cosineDistance e queryEmbedding = Ok dist ->
  rankedRow c = Ok o ->
  if ltFloat8 (Number threshold) (oneMinus dist)
  then exists r, o = Some r
                 /\ content_id r = ContentChunk.contentId c
                 /\ similarity r = oneMinus dist
                 /\ distance r = dist
  else o = None.
Proof.
  intros He Hd. unfold Repository.rankedRow.
  rewrite He, Hd. destruct (ltFloat8 _ _); intros [= <-]; [|done].
  by eexists.
Qed.

Lemma rankedRows_Ok (chunks : list ContentChunk.t) (rows : list RankedChunk) :
  rankedRows chunks = Ok rows ->
  Forall (fun c => exists o, rankedRow c = Ok o) chunks
  /\ forall r, r ∈ rows <-> exists c, c ∈ chunks /\ rankedRow c = Ok (Some r).
Proof.
  revert rows. induction chunks as [|c chunks IH]; intros rows; cbn.
  - intros [= <-]. split; [done|]. intros r. split.
    + by intros ?%elem_of_nil.
    + by intros (c & ?%elem_of_nil & _).
  - destruct (rankedRow c) as [o|e] eqn:Hc; [|done].
    destruct (rankedRows chunks) as [rows'|e]; [|done].
    destruct (IH rows' eq_refl) as [Hall Hin].
    intros [= <-]. split; [constructor; eauto|].
    intros r. destruct o as [row|].
    + rewrite elem_of_cons, Hin. split.
      * intros [->|(c' & Hc' & Hr)].
        -- exists c. split; [apply list_elem_of_here|done].
        -- exists c'. split; [by apply list_elem_of_further|done].
      * intros (c' & [->|Hc']%elem_of_cons & Hr).
        -- left. congruence.
        -- right. eauto.
    + rewrite Hin. split.
      * intros (c' & Hc' & Hr). exists c'.
        split; [by apply list_elem_of_further|done].
      * intros (c' & [->|Hc']%elem_of_cons & Hr); [congruence|eauto].
Qed.

Lemma rankedRows_returns (chunks : list ContentChunk.t) :
  Forall (fun c => forall e, ContentChunk.embedding c = Some e ->
                     exists d, cosineDistance e queryEmbedding = Ok d) chunks ->
  exists rows, rankedRows chunks = Ok rows.
Proof.
  induction 1 as [|c chunks Hc _ [rows IH]]; cbn; [by eexists|].
  rewrite IH. unfold Repository.rankedRow.
  destruct (ContentChunk.embedding c) as [e|]; [|by eexists].
  destruct (Hc e eq_refl) as [d ->].
  destruct (ltFloat8 _ _); by eexists.
Qed.

(** The row numbered 1 in its partition: no row of the partition is nearer,
    and none before it is as near. *)
Lemma rowNumber_first (rows : list RankedChunk) (i : nat) (r : RankedChunk) :
  rowNumber rows i r = 1%nat <->
  (forall r', r' ∈ rows -> content_id r' = content_id r ->
              leFloat8 (distance r) (distance r'))
  /\ (forall r', r' ∈ take i rows -> content_id r' = content_id r ->
                eqFloat8 (distance r') (distance r) = false).
Proof.
  unfold rowNumber. split.
  - intros [= H]. apply Nat.eq_add_0 in H as [H1 H2]. split.
    + intros r' Hr' Hid. pose proof (filter_length_0 _ _ r' H1 Hr') as Hf.
      unfold samePartition in Hf. by rewrite bool_decide_eq_true_2 in Hf.
    + intros r' Hr' Hid. pose proof (filter_length_0 _ _ r' H2 Hr') as Hf.
      unfold samePartition in Hf. by rewrite bool_decide_eq_true_2 in Hf.
  - intros [H1 H2]. rewrite !filter_none_length; [done| |].
    + intros r' Hr'. unfold samePartition.
      destruct (decide (content_id r' = content_id r)) as [Hid|Hne];
        [|by rewrite bool_decide_eq_false_2].
      rewrite bool_decide_eq_true_2 by done. by apply H2.
    + intros r' Hr'. unfold samePartition.
      destruct (decide (content_id r' = content_id r)) as [Hid|Hne];
        [|by rewrite bool_decide_eq_false_2].
      rewrite bool_decide_eq_true_2 by done. by apply H1.
Qed.

(** A partition has at most one row numbered 1. *)
Lemma rowNumber_first_unique (rows : list RankedChunk) (i j : nat)
    (x y : RankedChunk) :
  rows !! i = Some x -> rows !! j = Some y -> (i < j)%nat ->
  content_id x = content_id y ->
  rowNumber rows i x = 1%nat -> rowNumber rows j y = 1%nat -> False.
Proof.
  intros Hi Hj Hlt Hid Hx Hy.
  apply rowNumber_first in Hx as [Hx _]. apply rowNumber_first in Hy as [Hy Hy'].
  assert (Hxin : x ∈ rows) by (by eapply list_elem_of_lookup_2).
  assert (Hyin : y ∈ rows) by (by eapply list_elem_of_lookup_2).
  assert (Heq : eqFloat8 (distance x) (distance y) = true).
  { apply leFloat8_antisym; [by apply Hx|by apply Hy]. }
  rewrite Hy' in Heq; [done| |done].
  apply list_elem_of_lookup. exists i. by rewrite lookup_take_lt.
Qed.

(** A partition that is not empty has a nearest row, the first among
    those as near. *)
Lemma nearest_in_partition (k : text) (l : list RankedChunk) :
  Exists (fun r => content_id r = k) l ->
  exists i r,
    l !! i = Some r /\ content_id r = k
    /\ (forall r', r' ∈ l -> content_id r' = k ->
          leFloat8 (distance r) (distance r'))
    /\ (forall r', r' ∈ take i l -> content_id r' = k ->
          eqFloat8 (distance r') (distance r) = false).
Proof.
  induction l as [|x l IH] using rev_ind; [by intros ?%Exists_nil|].
  intros Hex.
  assert (Hlast : forall P : RankedChunk -> Prop,
            (forall r', r' ∈ l -> P r') -> P x ->
            forall r', r' ∈ l ++ [x] -> P r').
  { intros P Hl Hx r' [Hr'|Hr'%list_elem_of_singleton]%elem_of_app;
      [by apply Hl|by subst r']. }
  destruct (decide (Exists (fun r => content_id r = k) l)) as [Hl|Hnone].
  - destruct (IH Hl) as (i & r & Hi & Hid & Hmin & Hfirst).
    assert (Hilt : (i < List.length l)%nat) by (by eapply lookup_lt_Some).
    destruct (decide (content_id x = k
                      /\ ltFloat8 (distance x) (distance r) = true))
      as [[Hidx Hlt]|Hno].
    + exists (List.length l), x. split; [by rewrite list_lookup_middle|].
      split; [done|]. split.
      * apply (Hlast (fun r' => content_id r' = k ->
                                leFloat8 (distance x) (distance r'))).
        -- intros r' Hr' Hid'. apply ltFloat8_le.
           eapply ltFloat8_le_trans; [exact Hlt|]. by apply Hmin.
        -- intros _. apply ltFloat8_irrefl.
      * rewrite take_app_length. intros r' Hr' Hid'.
        apply ltFloat8_neq. eapply ltFloat8_le_trans; [exact Hlt|].
        by apply Hmin.
    + exists i, r. split; [by rewrite lookup_app_l|]. split; [done|]. split.
      * apply (Hlast (fun r' => content_id r' = k ->
                                leFloat8 (distance r) (distance r')));
          [done|].
        intros Hidx.
        destruct (leFloat8_lt_cases (distance r) (distance x))
          as [Hle|Hlt]; [done|]. exfalso. by apply Hno.
      * rewrite take_app_le by lia. exact Hfirst.
  - assert (Hnot : forall r', r' ∈ l -> content_id r' <> k).
    { intros r' Hr' Hid'. apply Hnone. apply Exists_exists. eauto. }
    assert (Hx : content_id x = k).
    { apply Exists_app in Hex as [Hex|Hex]; [done|].
      by apply Exists_cons in Hex as [Hex|Hex%Exists_nil]. }
    exists (List.length l), x. split; [by rewrite list_lookup_middle|].
    split; [done|]. split.
    + apply (Hlast (fun r' => content_id r' = k ->
                              leFloat8 (distance x) (distance r'))).
      * intros r' Hr' Hid'. by destruct (Hnot r' Hr').
      * intros _. apply ltFloat8_irrefl.
    + rewrite take_app_length. intros r' Hr' Hid'. by destruct (Hnot r' Hr').
Qed.

(** A partition that is not empty has a row numbered 1. *)
Lemma rowNumber_first_exists (rows : list RankedChunk) (r0 : RankedChunk) :
  r0 ∈ rows ->
  exists i r,
    rows !! i = Some r /\ content_id r = content_id r0
    /\ rowNumber rows i r = 1%nat.
Proof.
  intros Hin.
  destruct (nearest_in_partition (content_id r0) rows)
    as (i & r & Hi & Hid & Hmin & Hfirst).
  { apply Exists_exists. eauto. }
  exists i, r. split; [done|]. split; [done|].
  apply rowNumber_first. split.
  - intros r' Hr' Hid'. apply Hmin; congruence.
  - intros r' Hr' Hid'. apply Hfirst; congruence.
Qed.

Variables (type : TypeFilter) (d : Db).

Lemma joinRow_Some (rc : RankedChunk * nat) (r : SearchResult) :
  joinRow d type rc = Some r ->
  rc.2 = 1%nat /\ Content.id (item r) = content_id rc.1
  /\ eligible type d r
  /\ resultSimilarity r = similarity rc.1
  /\ matchedChunk r = matched_chunk rc.1
  /\ matchedSection r = matched_section rc.1.
Proof.
  unfold joinRow, eligible, eligibleItem.
  destruct (contents d !! content_id rc.1) as [t|] eqn:Ht; [|done].
  destruct (bool_decide _ && _ && _ && _) eqn:Hb; [|done].
  intros [= <-]. cbn.
  apply andb_true_iff in Hb as [[[Hid Hrn]%andb_true_iff Hs]%andb_true_iff Hty].
  apply bool_decide_eq_true in Hid, Hs. apply Nat.eqb_eq in Hrn.
  rewrite Hid. by repeat split.
Qed.

(** The first row of the partition of an eligible item is joined. *)
Lemma joinRow_eligible (t : Content.t) (row : RankedChunk) :
  eligibleItem type d t -> content_id row = Content.id t ->
  joinRow d type (row, 1%nat)
  = Some (mkResult t (similarity row) (matched_chunk row)
            (matched_section row)).
Proof.
  intros (Ht & Hs & Hty) Hid. unfold joinRow. cbn [fst snd]. rewrite Hid, Ht.
  by rewrite !bool_decide_eq_true_2, Hty by done.
Qed.

Definition numbered (rows : list RankedChunk) : list (RankedChunk * nat) :=
  imap (fun i r => (r, rowNumber rows i r)) rows.

Lemma joined_NoDup_prefix (rows l1 l2 : list RankedChunk) :
  rows = l1 ++ l2 ->
  NoDup (map (fun r => Content.id (item r))
           (omap (joinRow d type)
              (imap (fun i r => (r, rowNumber rows i r)) l1))).
Proof.
  revert l2. induction l1 as [|x l1 IH] using rev_ind; intros l2 Hrows.
  - constructor.
  - rewrite imap_app, omap_app, map_app. cbn [imap].
    rewrite Nat.add_0_r.
    set (p := (x, rowNumber rows (List.length l1) x)).
    assert (Hsingle : omap (joinRow d type) [p]
                      = match joinRow d type p with
                        | Some r => [r]
                        | None => []
                        end) by (cbn; by destruct (joinRow d type p)).
    rewrite Hsingle. clear Hsingle.
    assert (Hrows' : rows = l1 ++ x :: l2) by (by rewrite Hrows, <- app_assoc).
    apply NoDup_app. split; [by eapply IH|].
    destruct (joinRow d type p) as [r|] eqn:Hr; cbn [map].
    2:{ split; [by intros k _ ?%elem_of_nil|constructor]. }
    split; [|repeat constructor; by intros ?%elem_of_nil].
    intros k Hk Hk'. apply list_elem_of_singleton in Hk'. subst k.
    apply list_elem_of_fmap in Hk as (r' & Heq & Hr').
    apply list_elem_of_omap in Hr' as ([y n] & Hy & Hjoin).
    apply elem_of_lookup_imap in Hy as (j & y' & [= <- ->] & Hj).
    apply joinRow_Some in Hr as (Hrn & Hid & _).
    apply joinRow_Some in Hjoin as (Hrn' & Hid' & _). cbn in *.
    eapply (rowNumber_first_unique rows j (List.length l1) y x); try done.
    + rewrite Hrows'. by rewrite lookup_app_l by (by eapply lookup_lt_Some).
    + rewrite Hrows'. by rewrite list_lookup_middle.
    + by eapply lookup_lt_Some.
    + congruence.
Qed.

Lemma joined_NoDup (rows : list RankedChunk) :
  NoDup (map (fun r => Content.id (item r))
           (omap (joinRow d type) (numbered rows))).
Proof. apply (joined_NoDup_prefix rows rows []). by rewrite app_nil_r. Qed.

Lemma joined_bestChunk (rows : list RankedChunk) (r : SearchResult) :
  rankedRows (contentChunks d) = Ok rows ->
  r ∈ omap (joinRow d type) (numbered rows) ->
  eligible type d r /\ bestChunk cosineDistance queryEmbedding threshold d r.
Proof.
  intros [Hall Hrows]%rankedRows_Ok.
  intros ([rc n] & Hrc & Hjoin)%list_elem_of_omap.
  apply elem_of_lookup_imap in Hrc as (i & rc' & [= <- ->] & Hi).
  apply joinRow_Some in Hjoin as (Hrn & Hid & Hel & Hsim & Hchunk & Hsec).
  cbn in *. split; [done|].
  assert (Hin : rc ∈ rows) by (by eapply list_elem_of_lookup_2).
  apply Hrows in Hin as (c & Hc & Hrow).
  destruct (rankedRow_Some c rc Hrow)
    as (dist & Hsimilar & Hcid & Hmc & Hms & Hs & Hd & Hth).
  exists c. rewrite Hsim, Hs. repeat split; try congruence.
  - intros s Hnum. rewrite Hs, Hnum in Hth. by apply ltFloat8_Number in Hth.
  - intros c' s' Hc' Hcid' (e' & d' & He' & Hd' & Hs').
    rewrite Forall_forall in Hall. destruct (Hall c' Hc') as [o Ho].
    pose proof (rankedRow_at c' e' d' o He' Hd' Ho) as Hcase.
    rewrite <- Hs' in Hcase.
    destruct (ltFloat8 (Number threshold) (Number s')) eqn:Habove.
    + destruct Hcase as (r' & -> & Hid' & _ & Hdist').
      apply rowNumber_first in Hrn as [Hbest _].
      assert (Hr'in : r' ∈ rows) by (apply Hrows; eauto).
      specialize (Hbest r' Hr'in ltac:(congruence)).
      rewrite Hd, Hdist' in Hbest.
      destruct d' as [q'|]; [|done]. injection Hs' as ->.
      by apply oneMinus_antitone.
    + etrans; [exact Habove|]. apply ltFloat8_le. by rewrite <- Hs.
Qed.

(** An eligible item with a chunk above the threshold has a row among the
    joined rows, at least as similar as that chunk. *)
Lemma joined_complete (rows : list RankedChunk) (t : Content.t)
    (c : ContentChunk.t) (s : Float8) :
  rankedRows (contentChunks d) = Ok rows ->
  eligibleItem type d t ->
  c ∈ contentChunks d -> ContentChunk.contentId c = Content.id t ->
  similarTo c s -> ltFloat8 (Number threshold) s = true ->
  exists r,
    r ∈ omap (joinRow d type) (numbered rows)
    /\ item r = t
    /\ forall s', similarTo c (Number s') ->
          leFloat8 (Number s') (resultSimilarity r).
Proof.
  intros [Hall Hrows]%rankedRows_Ok Hel Hc Hcid (e & dist & He & Hd & ->)
    Habove.
  rewrite Forall_forall in Hall. destruct (Hall c Hc) as [o Ho].
  pose proof (rankedRow_at c e dist o He Hd Ho) as Hcase.
  rewrite Habove in Hcase. destruct Hcase as (r0 & -> & Hid0 & _ & Hdist0).
  assert (Hr0 : r0 ∈ rows) by (apply Hrows; eauto).
  destruct (rowNumber_first_exists rows r0 Hr0) as (i & r1 & Hi & Hid1 & Hrn).
  assert (Hr1 : r1 ∈ rows) by (by eapply list_elem_of_lookup_2).
  pose proof Hr1 as Hrow1. apply Hrows in Hrow1 as (c1 & Hc1 & Hrow1).
  destruct (rankedRow_Some c1 r1 Hrow1) as (d1 & _ & _ & _ & _ & Hs1 & Hd1 & _).
  eexists. split; [|split].
  - apply list_elem_of_omap. exists (r1, 1%nat). split.
    + apply elem_of_lookup_imap. exists i, r1. by rewrite Hrn.
    + apply (joinRow_eligible t r1 Hel). congruence.
  - done.
  - intros s' (e' & d' & He' & Hd' & Hs'). cbn [resultSimilarity].
    rewrite He in He'. injection He' as <-. rewrite Hd in Hd'.
    injection Hd' as <-. destruct dist as [q0|]; [|done].
    injection Hs' as ->.
    apply rowNumber_first in Hrn as [Hbest _].
    specialize (Hbest r0 Hr0 ltac:(congruence)).
    rewrite Hdist0, Hd1 in Hbest. rewrite Hs1.
    by apply oneMinus_antitone.
Qed.

End Search.

(** C1. For every vector store, query embedding, threshold, type filter and
    limit, [searchByEmbedding] returns whenever the limit is not negative
    and the store answers (it takes the query, and the distance of the
    query to every embedding of the table is defined). What it returns
    holds each content item at most once, each a stored item with status
    [Completed] and of the type asked for (when the filter is not [All]),
    paired with the text and section of a chunk of that item whose
    similarity is strictly above the threshold and is the highest among
    the similarities of the chunks of the item with a non-null embedding;
    the rows are sorted by descending similarity and there are at most
    [limit] of them; and no item is missing without cause: a completed item
    of the type asked for with a chunk above the threshold is in the result
    unless the result has [limit] rows, each at least as similar as that
    chunk. Similarities are compared as Postgres compares [double
    precision]: what is said of a similarity that is a number is said in
    the order of the numbers, and a similarity that is not a number (a
    vector of norm zero) counts as above every number. *)
Theorem searchByEmbedding_ranked (castError : Vector -> option text)
    (cosineDistance : Vector -> Vector -> Result Float8)
    (queryEmbedding : Vector) (limit : Z) (threshold : Q) (type : TypeFilter)
    (d : Db) :
  (0 <= limit -> storeAnswers castError cosineDistance queryEmbedding d ->
   exists rs, searchByEmbedding castError cosineDistance queryEmbedding limit
                threshold type d = Ok rs)
  /\ forall rs,
       searchByEmbedding castError cosineDistance queryEmbedding limit
         threshold type d = Ok rs ->
       NoDup (map (fun r => Content.id (item r)) rs)
       /\ Forall (fun r => eligible type d r
                           /\ bestChunk cosineDistance queryEmbedding
                                threshold d r) rs
       /\ StronglySorted bySimilarityDesc rs
       /\ Z.of_nat (List.length rs) <= limit
       /\ nothingMissing cosineDistance queryEmbedding limit threshold type
            d rs.
Proof.
  unfold searchByEmbedding, rankedChunks. split.
  - intros Hl [Hcast Hdist]. rewrite Hcast.
    destruct (rankedRows_returns cosineDistance queryEmbedding threshold
                (contentChunks d) Hdist) as [rows ->].
    destruct (limit <? 0) eqn:E; [apply Z.ltb_lt in E; lia|]. by eexists.
  - intros rs. destruct (castError queryEmbedding); [done|].
    destruct (rankedRows cosineDistance queryEmbedding threshold
                (contentChunks d)) as [rows|e] eqn:Hrows; [|done].
    destruct (limit <? 0) eqn:E; [done|]. apply Z.ltb_ge in E.
    intros [= <-].
    set (joined := omap _ _).
    pose proof (merge_sort_Permutation bySimilarityDesc joined) as Hperm.
    assert (Hsorted : StronglySorted bySimilarityDesc
                        (merge_sort bySimilarityDesc joined))
      by (apply StronglySorted_merge_sort; apply _).
    split; [|split; [|split; [|split]]].
    + eapply sublist_NoDup; [|apply fmap_sublist, sublist_take].
      rewrite Hperm. apply joined_NoDup.
    + apply Forall_take. rewrite Hperm. apply Forall_forall.
      intros r Hr. by apply (joined_bestChunk _ _ _ _ _ rows).
    + by apply StronglySorted_take.
    + rewrite length_take. lia.
    + intros t c s Hel Hc Hcid Hsimilar Habove.
      destruct (joined_complete cosineDistance queryEmbedding threshold type d
                  rows t c s Hrows Hel Hc Hcid Hsimilar Habove)
        as (r & Hr & Hitem & Hbest).
      destruct (decide (Content.id t
                        ∈ map (fun r => Content.id (item r))
                            (take (Z.to_nat limit)
                               (merge_sort bySimilarityDesc joined))))
        as [Hin|Hout]; [by left|right].
      destruct (sorted_cut bySimilarityDesc (Z.to_nat limit)
                  (merge_sort bySimilarityDesc joined) r Hsorted)
        as [Hfull Hafter].
      * by rewrite Hperm.
      * intros Hr'. apply Hout. apply list_elem_of_fmap. exists r.
        by rewrite Hitem.
      * split; [rewrite Hfull; lia|].
        intros s' Hs'. eapply Forall_impl; [exact Hafter|].
        intros y Hy. unfold bySimilarityDesc in Hy.
        etrans; [by apply Hbest|done].
Qed.

Lemma searchByEmbedding_ranked_witness :
  exists rs,
    searchByEmbedding noDimensions firstNumber [1%Q] 20 defaultThreshold All
      library = Ok rs
    /\ NoDup (map (fun r => Content.id (item r)) rs)
    /\ nothingMissing firstNumber [1%Q] 20 defaultThreshold All library rs.
Proof.
  destruct (searchByEmbedding_ranked noDimensions firstNumber [1%Q] 20
              defaultThreshold All library) as [Hret Hrs].
  destruct Hret as [rs Hrs']; [lia| |].
  - split; [done|]. unfold library. cbn [contentChunks].
    repeat (constructor; [intros e [= <-]; by eexists|]).
    constructor.
  - exists rs. split; [done|]. by destruct (Hrs rs Hrs') as (? & _ & _ & _ & ?).
Defined.

(** Two chunks of one item above the threshold: the item comes once, with
    the similarity and the text of the better chunk; the item that is not
    completed is left out. *)
Example searchByEmbedding_best_chunk :
  map (fun r => (Content.id (item r), resultSimilarity r, matchedChunk r))
    <$> searchByEmbedding noDimensions firstNumber [1%Q] 20 defaultThreshold
          All library
  = Ok [(of_string "b", Number (95 # 100), of_string "picture");
        (of_string "a", Number (9 # 10), of_string "strong")].
Proof. by vm_compute. Qed.

(** With a type filter the items of other types are left out, also when
    they rank higher. *)
Example searchByEmbedding_type_filter :
  map (fun r => Content.id (item r))
    <$> searchByEmbedding noDimensions firstNumber [1%Q] 20 defaultThreshold
          (Only Webpage) library
  = Ok [of_string "a"].
Proof. by vm_compute. Qed.

Example searchByEmbedding_limit :
  map (fun r => Content.id (item r))
    <$> searchByEmbedding noDimensions firstNumber [1%Q] 1 defaultThreshold
          All library
  = Ok [of_string "b"]
  /\ searchByEmbedding noDimensions firstNumber [1%Q] (-1) defaultThreshold
       All library
     = Err negativeLimit.
Proof. by vm_compute. Qed.

(** The errors of the vector store are errors of the search. *)
Example searchByEmbedding_store_errors :
  searchByEmbedding noDimensions firstNumber [] 20 defaultThreshold All
    library
  = Err (of_string "vector must have at least 1 dimension")
  /\ searchByEmbedding noDimensions firstNumber [1%Q; 1%Q] 20
       defaultThreshold All library
     = Err (of_string "different vector dimensions").
Proof. by vm_compute. Qed.

Lemma create_row_id (now : Z) (data : NewContent.t) (d d' : Db)
    (c : Content.t) :
  create now data d = Ok (c, d') -> Content.id c = NewContent.id data.
Proof.
  unfold create. destruct (contents d !! NewContent.id data); [done|].
  by intros [= <- <-].
Qed.

End RepositoryFacts.

(** ** Facts about the content service *)

Module ServiceFacts.
Import Js Repository Service Samples.

(** *** The chunking the service runs is done within its fuel *)

Lemma chunkTextDefault_spec (t : text) :
  Chunker.chunkText (fuelFor t) t Chunker.defaultMaxChunkSize
    Chunker.defaultOverlapSize
  = Some (chunkTextDefault t).
Proof.
  unfold chunkTextDefault.
  by destruct (ChunkerFacts.chunkText_returns (fuelFor t) t
                 Chunker.defaultMaxChunkSize Chunker.defaultOverlapSize)
    as [cs ->].
Qed.

Lemma chunkDocumentDefault_spec (t : text) :
  Sections.chunkDocument (fuelFor t) t Sections.defaultDocumentChunkSize
    Sections.defaultDocumentOverlap true
  = Some (chunkDocumentDefault t).
Proof.
  unfold chunkDocumentDefault.
  by destruct (SectionsFacts.chunkDocument_returns (fuelFor t) t
                 Sections.defaultDocumentChunkSize
                 Sections.defaultDocumentOverlap true)
    as [cs ->].
Qed.

(** *** The log only grows *)

Definition extends {A : Type} (m : M A) : Prop :=
  forall w, exists l, log (m w).2 = log w ++ l.

Create HintDb extends.

Lemma extends_ret {A : Type} (a : A) : extends (ret a).
Proof. intros w. exists []. by rewrite app_nil_r. Qed.

Lemma extends_throw {A : Type} (e : text) : extends (@throw A e).
Proof. intros w. exists []. by rewrite app_nil_r. Qed.

Lemma extends_bind {A B : Type} (m : M A) (k : A -> M B) :
  extends m -> (forall a, extends (k a)) -> extends (bind m k).
Proof.
  intros Hm Hk w. unfold bind. destruct (Hm w) as [l Hl].
  destruct (m w) as [[a|e] w1]; simpl in *.
  - destruct (Hk a w1) as [l' Hl']. exists (l ++ l').
    by rewrite Hl', Hl, app_assoc.
  - by exists l.
Qed.

Lemma extends_tryCatch {A : Type} (m : M A) (h : text -> M A) :
  extends m -> (forall e, extends (h e)) -> extends (tryCatch m h).
Proof.
  intros Hm Hh w. unfold tryCatch. destruct (Hm w) as [l Hl].
  destruct (m w) as [[a|e] w1]; simpl in *.
  - by exists l.
  - destruct (Hh e w1) as [l' Hl']. exists (l ++ l').
    by rewrite Hl', Hl, app_assoc.
Qed.

Lemma extends_statement {A : Type} (env : Env) (ev : Event)
    (run : Db -> Result (A * Db)) :
  extends (statement env ev run).
Proof.
  intros w. exists [ev]. unfold statement.
  destruct (dbFault env (statements w)); [done|].
  by destruct (run (db w)) as [[a d']|e].
Qed.

Lemma extends_call {A : Type} (ev : Event) (r : Result A) :
  extends (call ev r).
Proof. intros w. by exists [ev]. Qed.

#[local] Hint Resolve extends_ret extends_throw extends_statement extends_call
  : extends.
#[local] Hint Extern 2 (extends (bind _ _)) =>
  apply extends_bind; [|intros ?] : extends.
#[local] Hint Extern 2 (extends (tryCatch _ _)) =>
  apply extends_tryCatch; [|intros ?] : extends.

Lemma extends_createChunksM (env : Env) (id : text) (cd : list ChunkData.t) :
  extends (createChunksM env id cd).
Proof. destruct cd; simpl; auto with extends. Qed.

Lemma extends_chunkFullText (t : text) : extends (chunkFullText t).
Proof.
  unfold chunkFullText. destruct (5000 <? length t); [|auto with extends].
  destruct (chunkDocumentDefault t); auto with extends.
Qed.

Lemma extends_extractContent (env : Env) (y : bool) (url : text) :
  extends (extractContent env y url).
Proof. unfold extractContent. destruct y; auto with extends. Qed.

Lemma extends_generateEmbeddings (env : Env) (texts : list text) :
  extends (generateEmbeddings env texts).
Proof. unfold generateEmbeddings. auto with extends. Qed.

#[local] Hint Resolve extends_createChunksM extends_chunkFullText
  extends_extractContent extends_generateEmbeddings : extends.

Lemma extends_retryFailed (env : Env) (id e : text) :
  extends (retryFailed env id e).
Proof.
  unfold retryFailed, updateStatusM. auto with extends.
Qed.

(** *** Statements *)

Lemma statement_accepted {A : Type} (env : Env) (ev : Event)
    (run : Db -> Result (A * Db)) (w : World) (a : A) (d' : Db) :
  dbFault env (statements w) = None -> run (db w) = Ok (a, d') ->
  statement env ev run w
  = (Ok a, mkWorld d' (S (statements w)) (log w ++ [ev])).
Proof. intros Hf Hr. unfold statement. by rewrite Hf, Hr. Qed.

Lemma newEvents_app (w w' : World) (l : list Event) :
  log w' = log w ++ l -> newEvents w w' = l.
Proof. intros H. unfold newEvents. rewrite H. apply drop_app_length. Qed.

(** *** Retry *)

(** [begins ev m]: the first call of [m] is [ev]. *)
Definition begins {A : Type} (ev : Event) (m : M A) : Prop :=
  forall w, exists l, log (m w).2 = log w ++ ev :: l.

Lemma begins_call {A : Type} (ev : Event) (r : Result A) :
  begins ev (call ev r).
Proof. intros w. by exists []. Qed.

Lemma begins_statement {A : Type} (env : Env) (ev : Event)
    (run : Db -> Result (A * Db)) :
  begins ev (statement env ev run).
Proof.
  intros w. exists []. unfold statement.
  destruct (dbFault env (statements w)); [done|].
  by destruct (run (db w)) as [[a d']|e].
Qed.

Lemma begins_bind {A B : Type} (ev : Event) (m : M A) (k : A -> M B) :
  begins ev m -> (forall a, extends (k a)) -> begins ev (bind m k).
Proof.
  intros Hm Hk w. unfold bind. destruct (Hm w) as [l Hl].
  destruct (m w) as [[a|e] w1]; cbn in *; [|by exists l].
  destruct (Hk a w1) as [l' Hl']. exists (l ++ l').
  by rewrite Hl', Hl, <- app_assoc.
Qed.

Lemma begins_tryCatch {A : Type} (ev : Event) (m : M A) (h : text -> M A) :
  begins ev m -> (forall e, extends (h e)) -> begins ev (tryCatch m h).
Proof.
  intros Hm Hh w. unfold tryCatch. destruct (Hm w) as [l Hl].
  destruct (m w) as [[a|e] w1]; cbn in *; [by exists l|].
  destruct (Hh e w1) as [l' Hl']. exists (l ++ l').
  by rewrite Hl', Hl, <- app_assoc.
Qed.

(** The retry pipeline begins by fetching the content again. *)
Lemma retryPipeline_fetches (env : Env) (id url : text) :
  exists ev,
    ev = Routes.extractionEvent url
    /\ isExtraction ev = true /\ begins ev (retryPipeline env id url).
Proof.
  unfold retryPipeline, Routes.extractionEvent.
  set (k := fun extracted : ExtractedContent => _).
  assert (Hk : forall x, extends (k x)).
  { intros x. unfold k, updateM, deleteChunksM. auto 10 with extends. }
  unfold extractContent. destruct (isYouTubeUrl url).
  - exists (EvExtractYoutube url). split; [done|]. split; [done|].
    by apply begins_bind; [apply begins_call|].
  - exists (EvExtractWeb url). split; [done|]. split; [done|].
    by apply begins_bind; [apply begins_call|].
Qed.

Lemma retryPermitted_Some (c : Content.t) :
  retryPermitted (Some c) = true <->
  Content.status c = Failed /\ Content.type c <> Image
  /\ exists url, sourceUrl c = Some url.
Proof.
  unfold retryPermitted, sourceUrl.
  rewrite !andb_true_iff, bool_decide_eq_true, negb_true_iff,
    bool_decide_eq_false.
  destruct (Content.url c) as [[|x u]|]; split;
    try (intros ((? & ?) & ?)); try (intros (? & ? & [? ?])); try done.
  repeat split; eauto.
Qed.

Lemma retryFailedContent_found (env : Env) (contentId : text) (w : World) :
  dbFault env (statements w) = None ->
  retryFailedContent env contentId w
  = retryFound env contentId (contents (db w) !! contentId)
      (mkWorld (db w) (S (statements w)) (log w ++ [EvFindById contentId])).
Proof.
  intros Hf. unfold retryFailedContent, bind, findByIdM.
  by rewrite (statement_accepted env _ _ w (findById contentId (db w)) (db w)).
Qed.

(** The status write of a retry is taken when the database takes the
    statement and the attempt counter has room. *)
Lemma updateStatusM_accepted (env : Env) (id : text) (status : ContentStatus)
    (errorMessage : option text) (w : World) (c : Content.t) :
  dbFault env (statements w) = None ->
  contents (db w) !! id = Some c ->
  Content.processingAttempts c < int4Max ->
  exists c',
    setStatus (now env) status errorMessage c = Ok c'
    /\ updateStatusM env id status errorMessage w
       = (Ok tt,
          mkWorld (mkDb (<[id := c']> (contents (db w))) (contentChunks (db w)))
            (S (statements w)) (log w ++ [EvUpdateStatus id status])).
Proof.
  intros Hf Hc Hroom.
  destruct (RepositoryFacts.updateStatus_lookup (now env) id status
              errorMessage (db w) c Hc Hroom) as (c' & Hset & Hupd).
  exists c'. split; [done|]. unfold updateStatusM.
  apply statement_accepted; [done|]. by rewrite Hupd.
Qed.

(** The retry route of the URL controller guards its own copy of the retry
    in the same way: it answers 404, 400 or an error body for a retry that
    is not permitted, and fetches nothing then. *)
Lemma retryRoute_guard (env : Env) (id : text) (w : World) :
  dbFault env (statements w) = None ->
  dbFault env (S (statements w)) = None ->
  (forall c, contents (db w) !! id = Some c ->
             Content.processingAttempts c < int4Max) ->
  reprocessed w (retryRoute env id w).2
  = retryPermitted (contents (db w) !! id)
  /\ (retryPermitted (contents (db w) !! id) = false ->
      (retryRoute env id w).1
      = Ok (mkResponse (rejectionStatus (contents (db w) !! id))
              (Err (rejection (contents (db w) !! id))))
      /\ db (retryRoute env id w).2 = db w
      /\ newEvents w (retryRoute env id w).2 = [EvFindById id]).
Proof.
  intros Hf0 Hf1 Hroom.
  set (w1 := mkWorld (db w) (S (statements w)) (log w ++ [EvFindById id])).
  assert (Hroute : retryRoute env id w
                   = tryCatch (routeFound env id (contents (db w) !! id))
                       routeError w1).
  { unfold retryRoute, tryCatch, bind, findByIdM.
    by rewrite (statement_accepted env _ _ w (findById id (db w)) (db w)). }
  rewrite Hroute. clear Hroute.
  assert (Hrej : forall resp : Response,
            reprocessed w (tryCatch (ret resp) routeError w1).2 = false
            /\ (tryCatch (ret resp) routeError w1).1 = Ok resp
            /\ db (tryCatch (ret resp) routeError w1).2 = db w
            /\ newEvents w (tryCatch (ret resp) routeError w1).2
               = [EvFindById id]).
  { intros resp. cbn. unfold reprocessed.
    by rewrite (newEvents_app w w1 [EvFindById id]). }
  destruct (contents (db w) !! id) as [c|] eqn:Hc;
    [|unfold routeFound, rejection, rejectionStatus;
      by destruct (Hrej (mkResponse 404 (Err (of_string "Content not found"))))
        as (-> & ? & ? & ?)].
  destruct (retryPermitted (Some c)) eqn:Hp.
  - split; [|done].
    apply retryPermitted_Some in Hp as (Hs & Ht & url & Hu).
    unfold routeFound.
    rewrite (bool_decide_eq_true_2 _ Hs), (bool_decide_eq_false_2 _ Ht), Hu.
    cbn [negb].
    set (inner := tryCatch _ (routeRetryFailed env id)).
    destruct (updateStatusM_accepted env id Processing None w1 c Hf1 Hc
                (Hroom c eq_refl)) as (c' & _ & Hupd).
    assert (Hstep : tryCatch (bind (updateStatusM env id Processing None)
                                (fun _ => inner)) routeError w1
                    = tryCatch inner routeError
                        (mkWorld (mkDb (<[id := c']> (contents (db w1)))
                                    (contentChunks (db w1)))
                           (S (statements w1))
                           (log w1 ++ [EvUpdateStatus id Processing]))).
    { unfold tryCatch at 1, bind. by rewrite Hupd. }
    rewrite Hstep. clear Hstep. set (w2 := mkWorld _ _ _).
    destruct (retryPipeline_fetches env id url) as (ev & _ & Hev & Hb).
    assert (Hbegins : begins ev (tryCatch inner routeError)).
    { apply begins_tryCatch; [|intros e; apply extends_ret].
      apply begins_tryCatch.
      - apply begins_bind; [done|intros n; apply extends_ret].
      - intros e. unfold routeRetryFailed, updateStatusM. auto with extends. }
    destruct (Hbegins w2) as [l Hl]. unfold reprocessed.
    rewrite (newEvents_app w _
               ([EvFindById id; EvUpdateStatus id Processing] ++ ev :: l)).
    + cbn. by rewrite Hev.
    + rewrite Hl. unfold w2, w1; cbn. by rewrite <- !app_assoc.
  - assert (Hnot : ~ (Content.status c = Failed /\ Content.type c <> Image
                      /\ exists url, sourceUrl c = Some url)).
    { rewrite <- retryPermitted_Some. by rewrite Hp. }
    unfold rejection, rejectionStatus, routeFound.
    destruct (decide (Content.status c = Failed)) as [Hs|Hs].
    + rewrite !(bool_decide_eq_true_2 _ Hs). cbn [negb].
      destruct (bool_decide (Content.type c = Image)) eqn:Ht.
      * by destruct (Hrej (mkResponse 200
                       (Err (of_string "Image content requires re-upload to retry"))))
          as (-> & ? & ? & ?).
      * apply bool_decide_eq_false in Ht.
        destruct (sourceUrl c) as [url|] eqn:Hu; [exfalso; eauto|].
        by destruct (Hrej (mkResponse 200
                       (Err (of_string "Image content requires re-upload to retry"))))
          as (-> & ? & ? & ?).
    + rewrite !(bool_decide_eq_false_2 _ Hs). cbn [negb].
      by destruct (Hrej (mkResponse 400
                     (Err (of_string "Content is not in failed state"))))
        as (-> & ? & ? & ?).
Qed.

(** *** Messages shown to the caller *)

Example getSafeErrorMessage_redacts :
  getSafeErrorMessage (of_string "Failed query: insert into contents")
  = of_string "An internal error occurred. Please try again later."
  /\ getSafeErrorMessage (of_string "select id, title from contents")
     = of_string "An internal error occurred. Please try again later."
  /\ getSafeErrorMessage (of_string "fetch failed") = of_string "fetch failed".
Proof. by vm_compute. Qed.

Example retryRoute_not_found :
  (retryRoute fairWeather (of_string "url_9") worldWithFailedPage).1
  = Ok (mkResponse 404 (Err (of_string "Content not found"))).
Proof. by vm_compute. Qed.

Example retryRoute_retried :
  (retryRoute fairWeather (of_string "url_1") worldWithFailedPage).1
  = Ok (mkResponse 200 (Ok 1)).
Proof. by vm_compute. Qed.

(** *** Recording a failure *)

(** The write of the failure record never throws; when the id is free and
    the database takes the statement, the record is stored as given, with
    the attempt counter at its default. *)
Lemma recordFailure_run (env : Env) (record : NewContent.t) (w : World) :
  (recordFailure env record w).1 = Ok tt
  /\ (contents (db w) !! NewContent.id record = None ->
      dbFault env (statements w) = None ->
      exists c,
        contents (db (recordFailure env record w).2) !! NewContent.id record
        = Some c
        /\ Content.status c = default Pending (NewContent.status record)
        /\ Content.errorMessage c = NewContent.errorMessage record
        /\ Content.processingAttempts c
           = default 0 (NewContent.processingAttempts record)).
Proof.
  unfold recordFailure, tryCatch, bind, createM, statement, ret.
  destruct (dbFault env (statements w)) as [e|] eqn:Hf; [done|].
  destruct (create (now env) record (db w)) as [[c d']|e] eqn:Hc.
  - split; [done|]. intros _ _. exists c. cbn.
    by destruct (RepositoryFacts.create_completed_row _ _ _ _ _ Hc)
      as (? & ? & _ & ? & ?).
  - split; [done|]. intros Hfree _. unfold create in Hc. by rewrite Hfree in Hc.
Qed.

Lemma tryCatch_caught {A : Type} (m : M A) (h : text -> M A) (w w1 : World)
    (e : text) :
  m w = (Err e, w1) -> tryCatch m h w = h e w1.
Proof. intros H. unfold tryCatch. by rewrite H. Qed.

(** What the recording paths do achieve. When a stage of [processImage] or
    [processUrl] throws, the failure-record insert is attempted and an
    error of that insert is caught, never re-thrown: [processImage] returns
    [success = false] with the message of the stage, [processUrl] throws
    ['Failed to process URL: ' followed by that message]. When no row with
    the new id exists yet (the stage threw before the content row was
    inserted) and the database takes the insert, the item is stored with
    status [Failed], the message, and the attempt counter of a new row, 0.
    When the pipeline of a retry throws, the database takes the write and
    the counter has room, [updateStatus] stores status [Failed] with the
    message (when not empty) and adds 1 to the attempt counter, and
    ['Failed to retry content: ' followed by the message] is thrown. *)
Theorem failure_recorded (env : Env) (w w1 : World) (e : text) :
  (forall input,
     processImageSteps env input w = (Err e, w1) ->
     (processImage env input w).1
     = Ok (mkImageOutput false (newImageId env) None (Some (getErrorMessage e)))
     /\ (contents (db w1) !! newImageId env = None ->
         dbFault env (statements w1) = None ->
         exists c,
           contents (db (processImage env input w).2) !! newImageId env = Some c
           /\ Content.status c = Failed
           /\ Content.errorMessage c = Some (getErrorMessage e)
           /\ Content.processingAttempts c = 0))
  /\ (forall input,
       processUrlSteps env input w = (Err e, w1) ->
       (processUrl env input w).1
       = Err (of_string "Failed to process URL: " ++ getErrorMessage e)
       /\ (contents (db w1) !! newUrlId env = None ->
           dbFault env (statements w1) = None ->
           exists c,
             contents (db (processUrl env input w).2) !! newUrlId env = Some c
             /\ Content.status c = Failed
             /\ Content.errorMessage c = Some (getErrorMessage e)
             /\ Content.processingAttempts c = 0))
  /\ (forall contentId url c,
       retryPipeline env contentId url w = (Err e, w1) ->
       contents (db w1) !! contentId = Some c ->
       dbFault env (statements w1) = None ->
       Content.processingAttempts c < int4Max ->
       (tryCatch (retryPipeline env contentId url) (retryFailed env contentId) w).1
       = Err (of_string "Failed to retry content: " ++ getErrorMessage e)
       /\ exists c',
           contents (db (tryCatch (retryPipeline env contentId url)
                           (retryFailed env contentId) w).2) !! contentId
           = Some c'
           /\ Content.status c' = Failed
           /\ (getErrorMessage e <> [] ->
               Content.errorMessage c' = Some (getErrorMessage e))
           /\ Content.processingAttempts c'
              = Content.processingAttempts c + 1).
Proof.
  split; [|split].
  - intros input Hsteps. unfold processImage.
    rewrite (tryCatch_caught _ _ _ _ _ Hsteps). unfold bind.
    destruct (recordFailure_run env
                (failedImageRecord env input (getErrorMessage e)) w1)
      as [Hok Hrec].
    destruct (recordFailure env _ w1) as [[[]|e'] w2] eqn:Hr; [|done].
    split; [done|]. intros Hfree Hf.
    destruct (Hrec Hfree Hf) as (c & Hc & Hs & He & Ha). by exists c.
  - intros input Hsteps. unfold processUrl.
    rewrite (tryCatch_caught _ _ _ _ _ Hsteps). unfold bind.
    destruct (recordFailure_run env
                (failedUrlRecord env (isYouTubeUrl (inputUrl input))
                   (inputUrl input) (getErrorMessage e)) w1)
      as [Hok Hrec].
    destruct (recordFailure env _ w1) as [[[]|e'] w2] eqn:Hr; [|done].
    split; [done|]. intros Hfree Hf.
    destruct (Hrec Hfree Hf) as (c & Hc & Hs & He & Ha). by exists c.
  - intros contentId url c Hsteps Hc Hf Hroom.
    rewrite (tryCatch_caught _ _ _ _ _ Hsteps).
    unfold retryFailed, bind.
    destruct (updateStatusM_accepted env contentId Failed
                (Some (getErrorMessage e)) w1 c Hf Hc Hroom)
      as (c' & Hset & ->).
    split; [done|]. unfold throw. cbn [snd db contents].
    rewrite lookup_insert_eq. exists c'. split; [done|].
    apply RepositoryFacts.setStatus_inv in Hset as (_ & _ & Hs & Ha & He & _).
    rewrite He. repeat split; try done.
    by destruct (getErrorMessage e).
Qed.

Lemma failure_recorded_witness :
  (processUrl siteDown examplePage emptyWorld).1
  = Err (of_string "Failed to process URL: "
         ++ getErrorMessage (of_string "fetch failed"))
  /\ (processImage siteDown exampleImage emptyWorld).1
     = Ok (mkImageOutput false (newImageId siteDown) None
             (Some (getErrorMessage (of_string "vision model unavailable")))).
Proof.
  split.
  - by apply (failure_recorded siteDown emptyWorld
                (processUrlSteps siteDown examplePage emptyWorld).2
                (of_string "fetch failed")).
  - by apply (failure_recorded siteDown emptyWorld
                (processImageSteps siteDown exampleImage emptyWorld).2
                (of_string "vision model unavailable")).
Defined.

(** C5, at the failing input. The embedding provider throws in
    [processUrl] after the content row was inserted with status
    [Completed]: the insert of the failure record, which the [catch] block
    attempts under the comment 'Record failure in database', is rejected
    (the id is taken), that error is dropped, ['Failed to process URL: ...']
    is thrown, and the item stays [Completed] with no error message and no
    attempt counted. *)
Theorem processUrl_failure_not_recorded :
  exists e w1 c,
    processUrlSteps providerDown examplePage emptyWorld = (Err e, w1)
    /\ (processUrl providerDown examplePage emptyWorld).1
       = Err (of_string "Failed to process URL: " ++ getErrorMessage e)
    /\ contents (db (processUrl providerDown examplePage emptyWorld).2)
         !! newUrlId providerDown = Some c
    /\ Content.status c = Completed
    /\ Content.status c <> Failed
    /\ Content.errorMessage c = None
    /\ Content.processingAttempts c = 0.
Proof.
  eexists _, _, _. split; [vm_compute; reflexivity|].
  split; [vm_compute; reflexivity|].
  split; [vm_compute; reflexivity|]. by repeat split.
Qed.

(** The failure write of a retry is not guarded: when the database rejects
    it, its error leaves [retryFailedContent] in place of the error of the
    pipeline. *)
Lemma retry_failure_write_uncaught :
  (retryFailedContent siteDownThenDbDown (of_string "url_1")
     worldWithFailedPage).1
  = Err (of_string "connection refused").
Proof. by vm_compute. Qed.

(** *** Steps that leave the [contents] table alone *)

Definition keepsContents {A : Type} (m : M A) : Prop :=
  forall w, contents (db (m w).2) = contents (db w).

Lemma keepsContents_ret {A : Type} (a : A) : keepsContents (ret a).
Proof. by intros w. Qed.

Lemma keepsContents_throw {A : Type} (e : text) : keepsContents (@throw A e).
Proof. by intros w. Qed.

Lemma keepsContents_call {A : Type} (ev : Event) (r : Result A) :
  keepsContents (call ev r).
Proof. by intros w. Qed.

Lemma keepsContents_bind {A B : Type} (m : M A) (k : A -> M B) :
  keepsContents m -> (forall a, keepsContents (k a)) -> keepsContents (bind m k).
Proof.
  intros Hm Hk w. unfold bind. specialize (Hm w).
  destruct (m w) as [[a|e] w1]; [|done]. by rewrite Hk.
Qed.

Lemma keepsContents_tryCatch {A : Type} (m : M A) (h : text -> M A) :
  keepsContents m -> (forall e, keepsContents (h e)) ->
  keepsContents (tryCatch m h).
Proof.
  intros Hm Hh w. unfold tryCatch. specialize (Hm w).
  destruct (m w) as [[a|e] w1]; [done|]. by rewrite Hh.
Qed.

Lemma keepsContents_statement {A : Type} (env : Env) (ev : Event)
    (run : Db -> Result (A * Db)) :
  (forall d a d', run d = Ok (a, d') -> contents d' = contents d) ->
  keepsContents (statement env ev run).
Proof.
  intros Hrun w. unfold statement.
  destruct (dbFault env (statements w)); [done|].
  destruct (run (db w)) as [[a d']|e] eqn:Hr; [|done]. by apply (Hrun _ a).
Qed.

Lemma keepsContents_createChunksM (env : Env) (id : text)
    (cd : list ChunkData.t) :
  keepsContents (createChunksM env id cd).
Proof.
  destruct cd as [|x cd]; [apply keepsContents_ret|].
  apply keepsContents_statement. intros d a d'. unfold createChunks.
  destruct (bool_decide _); [done|]. destruct (existsb _ _); [done|].
  by intros [= _ <-].
Qed.

Lemma keepsContents_chunkFullText (t : text) : keepsContents (chunkFullText t).
Proof.
  unfold chunkFullText. destruct (5000 <? length t); [|apply keepsContents_ret].
  destruct (chunkDocumentDefault t);
    [apply keepsContents_ret|apply keepsContents_throw].
Qed.

Lemma keepsContents_generateEmbeddings (env : Env) (texts : list text) :
  keepsContents (generateEmbeddings env texts).
Proof.
  apply keepsContents_tryCatch; [apply keepsContents_call|].
  intros e. apply keepsContents_throw.
Qed.

Lemma createM_accepted (env : Env) (data : NewContent.t) (w w' : World)
    (c : Content.t) :
  createM env data w = (Ok c, w') ->
  create (now env) data (db w) = Ok (c, db w').
Proof.
  unfold createM, statement. destruct (dbFault env (statements w)); [done|].
  destruct (create (now env) data (db w)) as [[c' d']|e]; [|done].
  by intros [= <- <-].
Qed.

(** Every successful [processUrl] leaves its item with status [Completed]
    and no completion time. *)
Lemma processUrl_ok_row (env : Env) (input : ProcessUrlInput) (w w' : World)
    (out : ProcessUrlOutput) :
  processUrl env input w = (Ok out, w') ->
  exists c,
    contents (db w') !! newUrlId env = Some c
    /\ urlContentId out = newUrlId env
    /\ Content.status c = Completed
    /\ Content.completedAt c = None.
Proof.
  unfold processUrl, tryCatch.
  destruct (processUrlSteps env input w) as [[out1|e] w1] eqn:Hsteps.
  2:{ unfold bind. by destruct (recordFailure env _ w1) as [[[]|e'] w2]. }
  intros [= <- <-]. unfold processUrlSteps, bind in Hsteps.
  destruct (extractContent env _ _ w) as [[x|e] wa]; [|done].
  destruct (createM env _ wa) as [[content|e] wb] eqn:Hcreate; [|done].
  apply createM_accepted in Hcreate.
  pose proof (RepositoryFacts.create_row_id _ _ _ _ _ Hcreate) as Hid.
  apply RepositoryFacts.create_completed_row in Hcreate
    as (Hrow & Hs & Ht & _).
  cbn [NewContent.id NewContent.status NewContent.completedAt default]
    in Hrow, Hs, Ht.
  set (fullText := fullTextOf _ _ _ _) in Hsteps.
  pose proof (keepsContents_chunkFullText fullText wb) as Hk1.
  destruct (chunkFullText fullText wb) as [[cs|e] wc]; [|done].
  pose proof (keepsContents_generateEmbeddings env (map Chunker.content cs) wc)
    as Hk2.
  destruct (generateEmbeddings env _ wc) as [[vs|e] wd]; [|done].
  pose proof (keepsContents_createChunksM env (newUrlId env)
                (toChunkData vs cs) wd) as Hk3.
  destruct (createChunksM env _ _ wd) as [[rows|e] we]; [|done].
  injection Hsteps as <- <-. cbn [snd fst db] in *.
  exists content. rewrite Hk3, Hk2, Hk1. repeat split; try done.
Qed.

(** *** Completed items *)

(** C6, at the failing input. A successful [processUrl] inserts the item
    with status [Completed] and no [completedAt]: the state it leaves breaks
    the invariant that [updateStatus] keeps. *)
Theorem processUrl_completed_without_timestamp :
  exists out c,
    (processUrl fairWeather examplePage emptyWorld).1 = Ok out
    /\ urlContentId out = newUrlId fairWeather
    /\ contents (db (processUrl fairWeather examplePage emptyWorld).2)
         !! newUrlId fairWeather = Some c
    /\ Content.status c = Completed
    /\ Content.completedAt c = None
    /\ ~ completedHaveTimestamp
           (db (processUrl fairWeather examplePage emptyWorld).2).
Proof.
  assert (Hrow : exists c,
            contents (db (processUrl fairWeather examplePage emptyWorld).2)
              !! newUrlId fairWeather = Some c
            /\ Content.status c = Completed /\ Content.completedAt c = None).
  { eexists. split; [vm_compute; reflexivity|]. by split. }
  destruct Hrow as (c & Hc & Hs & Ht).
  eexists _, c. split; [vm_compute; reflexivity|].
  split; [by vm_compute|]. repeat split; try done.
  intros H. destruct (H _ _ Hc Hs) as [t Ht']. congruence.
Qed.

(** The same after a successful retry: [update] sets the status to
    [Completed] after [updateStatus(id, 'processing')] has cleared
    [completedAt]. *)
Lemma retry_completed_without_timestamp :
  exists n w c,
    retryFailedContent fairWeather (of_string "url_1") worldWithFailedPage
    = (Ok n, w)
    /\ contents (db w) !! of_string "url_1" = Some c
    /\ Content.status c = Completed
    /\ Content.completedAt c = None
    /\ Content.processingAttempts c = 3.
Proof.
  eexists _, _, _. split; [vm_compute; reflexivity|].
  split; [vm_compute; reflexivity|]. by repeat split.
Qed.

End ServiceFacts.

(** ** The shape of the chunks *)

Module ChunkShapeFacts.
Import Js JsFacts Chunker ChunkerFacts ChunkShape.

Lemma findEnd_le (s : text) (maxChunkSize pos : Z) :
  0 <= pos < length s -> 1 <= maxChunkSize ->
  findEnd s maxChunkSize pos <= pos + maxChunkSize.
Proof.
  intros Hpos Hmax. unfold findEnd.
  set (e := Z.min (pos + maxChunkSize) (length s)).
  destruct (e <? length s) eqn:He; [|lia].
  apply Z.ltb_lt in He.
  set (ss := Z.max pos (e - 200)).
  set (w := substring s ss e).
  assert (Hw : length w = e - ss) by (apply length_substring; lia).
  set (hits := [lastIndexOf w (of_string ". "); lastIndexOf w (of_string "! ");
                lastIndexOf w (of_string "? "); lastIndexOf w [newline]]).
  assert (Hhits : Forall (fun p => 0 <= p -> p + 1 <= length w) hits).
  { repeat constructor; intros H0; apply lastIndexOf_bounds in H0;
      unfold length in *; simpl in *; lia. }
  assert (Hb : Forall (fun x => pos <= x <= e)
                 (map (fun p => ss + p + 1) (filter (fun p => 0 < p) hits))).
  { apply Forall_forall. intros x [p [-> Hp]]%list_elem_of_fmap.
    apply list_elem_of_filter in Hp as [Hp0 Hp].
    rewrite Forall_forall in Hhits. specialize (Hhits p Hp). lia. }
  destruct (map (fun p => ss + p + 1) (filter (fun p => 0 < p) hits))
    as [|b bs]; [lia|].
  apply maxOf_bounds in Hb. lia.
Qed.

Lemma overlapsBy_snoc (overlapSize : Z) (cs : list TextChunk) (c : TextChunk) :
  overlapsBy overlapSize cs ->
  match last cs with
  | Some l => startOffset l < startOffset c
              /\ endOffset l - overlapSize <= startOffset c <= endOffset l
  | None => True
  end ->
  overlapsBy overlapSize (cs ++ [c]).
Proof.
  induction cs as [|c0 cs IH]; [done|]. intros [H0 Hcs] Hl.
  destruct cs as [|c1 cs]; [by simpl in *|].
  change (last (c0 :: c1 :: cs)) with (last (c1 :: cs)) in Hl.
  split; [done|]. by apply IH.
Qed.

Lemma single_wellCut (s : text) (maxChunkSize : Z) :
  s <> [] -> trim s = s -> length s <= maxChunkSize ->
  wellCut maxChunkSize (mkChunk s 0 0 (length s) None).
Proof. intros Hne Htrim Hle. unfold wellCut; cbn. repeat split; try done; lia. Qed.

Section Loop.

Variables (s : text) (maxChunkSize overlapSize : Z).
Hypothesis Hnd : noDoubleSpace s.
Hypothesis Hlast : forall r c, s = r ++ [c] -> isSpace c = false.
Hypothesis Hmax : 2 <= maxChunkSize.
Hypothesis Hov : 0 <= overlapSize.

Lemma pieceAt_wellCut (st : LoopState) :
  0 <= currentPosition st < length s ->
  wellCut maxChunkSize (pieceAt s maxChunkSize st).
Proof.
  intros Hpos.
  destruct (findEnd_bounds s maxChunkSize (currentPosition st) Hpos ltac:(lia))
    as [He _].
  pose proof (findEnd_le s maxChunkSize (currentPosition st) Hpos ltac:(lia)).
  unfold wellCut, pieceAt; cbn. repeat split.
  - by apply piece_not_blank.
  - apply trim_idempotent.
  - etrans; [apply length_trim_le|]. rewrite length_substring; lia.
  - lia.
Qed.

Lemma chunkStep_Shape (st : LoopState) :
  Inv s st -> Shape maxChunkSize overlapSize st ->
  currentPosition st < length s ->
  Shape maxChunkSize overlapSize (chunkStep s maxChunkSize overlapSize st).
Proof.
  intros HI (Hw & Ho & Hp) Hlt.
  pose proof (Inv_pos_nonneg s st HI) as H0.
  rewrite (chunkStep_push s maxChunkSize overlapSize) by (done || lia).
  destruct HI as [_ _ Hpos _ _].
  split; [|split]; cbn [chunks currentPosition].
  - apply Forall_app. split; [done|]. constructor; [|done].
    apply pieceAt_wellCut. lia.
  - apply overlapsBy_snoc; [done|]. unfold pieceAt; cbn.
    destruct (last (chunks st)); [lia|done].
  - rewrite last_snoc. unfold pieceAt; cbn.
    destruct (_ <=? _) eqn:Hs; [apply Z.leb_le in Hs|]; lia.
Qed.

(** When the loop is left the last chunk spans at most [overlapSize]
    characters, if the overlap is positive. *)
Lemma Shape_exit (st : LoopState) :
  Inv s st -> Shape maxChunkSize overlapSize st ->
  length s <= currentPosition st ->
  Forall (wellCut maxChunkSize) (chunks st)
  /\ overlapsBy overlapSize (chunks st)
  /\ (1 <= overlapSize ->
      match last (chunks st) with
      | Some c => endOffset c - startOffset c <= overlapSize
      | None => True
      end).
Proof.
  intros [Hc _ Hpos _ _] (Hw & Ho & Hp) Hge. split; [done|]. split; [done|].
  intros Hov1. destruct (last (chunks st)) as [c|] eqn:Hl; [|done].
  apply last_Some_elem_of in Hl. rewrite Forall_forall in Hc.
  destruct (Hc c Hl) as (_ & ? & _). lia.
Qed.

Lemma chunkLoop_Shape (fuel : nat) (st : LoopState) (cs : list TextChunk) :
  Inv s st -> Shape maxChunkSize overlapSize st ->
  chunkLoop fuel s maxChunkSize overlapSize st = Some cs ->
  Forall (wellCut maxChunkSize) cs /\ overlapsBy overlapSize cs
  /\ (1 <= overlapSize ->
      match last cs with
      | Some c => endOffset c - startOffset c <= overlapSize
      | None => True
      end).
Proof.
  revert st. induction fuel as [|fuel IH]; intros st HI HS; simpl.
  - destruct (_ <? _) eqn:Hlt; [done|]. apply Z.ltb_ge in Hlt.
    intros [= <-]. by apply Shape_exit.
  - destruct (_ <? _) eqn:Hlt.
    + apply Z.ltb_lt in Hlt. apply IH.
      * by apply (chunkStep_Inv s maxChunkSize overlapSize).
      * by apply chunkStep_Shape.
    + apply Z.ltb_ge in Hlt. intros [= <-]. by apply Shape_exit.
Qed.

End Loop.

Lemma chunkText_shape (fuel : nat) (t : text) (maxChunkSize overlapSize : Z)
    (cs : list TextChunk) :
  2 <= maxChunkSize -> 0 <= overlapSize ->
  chunkText fuel t maxChunkSize overlapSize = Some cs ->
  Forall (wellCut maxChunkSize) cs /\ overlapsBy overlapSize cs.
Proof.
  intros Hmax Hov. destruct (decide (trim t = [])) as [Hb|Hnb].
  - rewrite chunkText_blank by done. by intros [= <-].
  - rewrite chunkText_not_blank by done.
    assert (Hc : cleanText t <> []) by (by rewrite cleanText_nil_iff).
    destruct (_ <=? _) eqn:Hle.
    + intros [= <-]. apply Z.leb_le in Hle. split; [|done].
      constructor; [|done]. apply single_wellCut; [done| |done].
      apply trim_idempotent.
    + intros Hloop.
      destruct (chunkLoop_Shape (cleanText t) maxChunkSize overlapSize
                  (cleanText_noDoubleSpace t) (cleanText_last t) Hmax Hov
                  fuel (mkLoop [] 0 0) cs) as (? & ? & _);
        first [ done | apply Inv_init | by repeat split ].
Qed.

(** In a text longer than the window the loop is left with a last chunk of
    at most [overlapSize] characters. *)
Lemma chunkText_tail (fuel : nat) (t : text) (maxChunkSize overlapSize : Z)
    (cs : list TextChunk) :
  2 <= maxChunkSize -> 1 <= overlapSize ->
  maxChunkSize < length (cleanText t) ->
  chunkText fuel t maxChunkSize overlapSize = Some cs ->
  match last cs with
  | Some c => endOffset c - startOffset c <= overlapSize
  | None => True
  end.
Proof.
  intros Hmax Hov Hlong.
  assert (Hnb : trim t <> []).
  { rewrite <- cleanText_nil_iff. intros Hc. rewrite Hc in Hlong.
    unfold length in Hlong; simpl in Hlong. lia. }
  rewrite chunkText_not_blank by done.
  destruct (_ <=? _) eqn:Hle; [apply Z.leb_le in Hle; lia|].
  intros Hloop.
  destruct (chunkLoop_Shape (cleanText t) maxChunkSize overlapSize
              (cleanText_noDoubleSpace t) (cleanText_last t) Hmax
              ltac:(lia) fuel (mkLoop [] 0 0) cs) as (_ & _ & Htail);
    first [ done | apply Inv_init | by repeat split | by apply Htail ].
Qed.

(** X1. With a window of two or more characters and a non-negative overlap,
    [chunkText] returns on every text that is not blank, within as many
    iterations as the text has characters, and returns at least one chunk;
    the chunks are numbered 0, 1, 2, ... in order, and each one is not empty,
    is trimmed, is no longer than the window and carries no section. *)
Theorem chunkText_chunks_well_cut (t : text) (maxChunkSize overlapSize : Z) :
  2 <= maxChunkSize -> 0 <= overlapSize -> trim t <> [] ->
  exists cs,
    (forall fuel, (List.length t <= fuel)%nat ->
       chunkText fuel t maxChunkSize overlapSize = Some cs)
    /\ cs <> []
    /\ map chunkIndex cs = map Z.of_nat (seq 0 (List.length cs))
    /\ Forall (fun c => content c <> [] /\ trim (content c) = content c
                        /\ length (content c) <= maxChunkSize
                        /\ section c = None) cs.
Proof.
  intros Hmax Hov Hnb.
  destruct (chunkText_total t maxChunkSize overlapSize Hmax Hov Hnb)
    as (cs & Hcs & _ & Hcov & Hidx).
  exists cs. split; [done|]. split; [by destruct cs|]. split; [done|].
  destruct (chunkText_shape (List.length t) t maxChunkSize overlapSize cs)
    as [Hw _]; [done|done|by apply Hcs|].
  eapply Forall_impl; [exact Hw|].
  intros c (? & ? & ? & ? & ?). repeat split; try done. lia.
Qed.

Lemma chunkText_chunks_well_cut_witness :
  exists cs,
    (forall fuel, (List.length sentences <= fuel)%nat ->
       chunkText fuel sentences 20 5 = Some cs)
    /\ cs <> []
    /\ map chunkIndex cs = map Z.of_nat (seq 0 (List.length cs))
    /\ Forall (fun c => content c <> [] /\ trim (content c) = content c
                        /\ length (content c) <= 20
                        /\ section c = None) cs.
Proof.
  apply chunkText_chunks_well_cut; [lia|lia|]. vm_compute. discriminate.
Defined.

(** X2. With a window of two or more characters and a non-negative overlap,
    every chunk of [chunkText] after the first starts after the start of the
    chunk before it, at most [overlapSize] characters before the end of that
    chunk and not after it: the starts increase and two neighbours share at
    most [overlapSize] characters. *)
Theorem chunkText_overlap (fuel : nat) (t : text) (maxChunkSize overlapSize : Z)
    (cs : list TextChunk) :
  2 <= maxChunkSize -> 0 <= overlapSize ->
  chunkText fuel t maxChunkSize overlapSize = Some cs ->
  overlapsBy overlapSize cs.
Proof.
  intros Hmax Hov Hcs.
  by destruct (chunkText_shape fuel t maxChunkSize overlapSize cs).
Qed.

Lemma chunkText_overlap_witness :
  overlapsBy 5 (default [] (chunkText 43 sentences 20 5)).
Proof.
  apply (chunkText_overlap 43 sentences 20 5); [lia|lia|].
  vm_compute. reflexivity.
Defined.

(** X3. With a window of two or more characters and a non-negative overlap,
    [chunkText] returns the empty list exactly for a text that is empty or
    holds only white space. *)
Theorem chunkText_nil_iff_blank (fuel : nat) (t : text)
    (maxChunkSize overlapSize : Z) :
  2 <= maxChunkSize -> 0 <= overlapSize ->
  chunkText fuel t maxChunkSize overlapSize = Some [] <-> trim t = [].
Proof.
  intros Hmax Hov. split; [|apply chunkText_blank].
  intros Hnil. destruct (decide (trim t = [])) as [|Hnb]; [done|exfalso].
  destruct (chunkText_total t maxChunkSize overlapSize Hmax Hov Hnb)
    as (cs & Hcs & _ & Hcov & _).
  assert (Hsome : chunkText (Nat.max fuel (List.length t)) t maxChunkSize
                    overlapSize = Some []).
  { rewrite chunkText_not_blank in * by done.
    destruct (_ <=? _); [done|].
    eapply chunkLoop_fuel_mono; [exact Hnil|lia]. }
  rewrite Hcs in Hsome by lia. by injection Hsome as ->.
Qed.

Lemma chunkText_nil_iff_blank_witness :
  chunkText 0 (of_string "  ") 1000 100 = Some [] <-> trim (of_string "  ") = [].
Proof. apply chunkText_nil_iff_blank; lia. Defined.

(** X4. With a window of two or more characters and a positive overlap, a
    text whose cleaned form is longer than the window gives two or more
    chunks, and the last one ends at the end of the cleaned text and spans
    at most [overlapSize] characters: the loop goes once more over the tail
    that the chunk before it has reached. *)
Theorem chunkText_short_tail (t : text) (maxChunkSize overlapSize : Z) :
  2 <= maxChunkSize -> 1 <= overlapSize ->
  maxChunkSize < length (cleanText t) ->
  exists cs c,
    (forall fuel, (List.length t <= fuel)%nat ->
       chunkText fuel t maxChunkSize overlapSize = Some cs)
    /\ (2 <= List.length cs)%nat
    /\ last cs = Some c
    /\ endOffset c = length (cleanText t)
    /\ endOffset c - startOffset c <= overlapSize.
Proof.
  intros Hmax Hov Hlong.
  assert (Hnb : trim t <> []).
  { rewrite <- cleanText_nil_iff. intros Hc. rewrite Hc in Hlong.
    unfold length in Hlong; simpl in Hlong. lia. }
  destruct (chunkText_total t maxChunkSize overlapSize Hmax ltac:(lia) Hnb)
    as (cs & Hcs & _ & Hcov & _).
  pose proof (Hcs (List.length t) ltac:(lia)) as Hrun.
  pose proof (chunkText_tail _ _ _ _ _ Hmax Hov Hlong Hrun) as Htail.
  assert (Hov0 : 0 <= overlapSize) by lia.
  destruct (chunkText_shape _ _ _ _ _ Hmax Hov0 Hrun) as [Hw _].
  unfold coversUpTo in Hcov. destruct cs as [|c0 cs]; [done|].
  apply andb_true_iff in Hcov as [Hcov Hend].
  apply andb_true_iff in Hcov as [Hstart _].
  apply bool_decide_eq_true in Hend. apply Z.eqb_eq in Hstart.
  unfold lastEnd in Hend.
  destruct (last (c0 :: cs)) as [c|] eqn:Hl; [|done].
  injection Hend as Hend.
  exists (c0 :: cs), c. repeat split; try done.
  destruct cs as [|c1 cs]; [|simpl; lia].
  injection Hl as <-. inversion Hw as [|? ? (_ & _ & _ & Hspan & _) _]; subst.
  lia.
Qed.

Lemma chunkText_short_tail_witness :
  exists cs c,
    (forall fuel, (List.length sentences <= fuel)%nat ->
       chunkText fuel sentences 20 5 = Some cs)
    /\ (2 <= List.length cs)%nat
    /\ last cs = Some c
    /\ endOffset c = length (cleanText sentences)
    /\ endOffset c - startOffset c <= 5.
Proof. apply chunkText_short_tail; [lia|lia|]. by vm_compute. Defined.

(** *** Cleaning a text twice *)

Lemma collapseSpaces_spaces (s : text) :
  Forall (fun c => isSpace c = true -> c = space) (collapseSpaces s).
Proof.
  induction s as [|c s IH]; [done|]. simpl.
  destruct (isSpace c) eqn:Hc.
  - destruct s as [|c' s]; [by repeat constructor|].
    destruct (isSpace c'); [done|]. by constructor.
  - constructor; [|done]. intros H. by rewrite H in Hc.
Qed.

Lemma collapseSpaces_id (s : text) :
  noDoubleSpace s -> Forall (fun c => isSpace c = true -> c = space) s ->
  collapseSpaces s = s.
Proof.
  induction s as [|c s IH]; [done|]. intros [Hnd Hs] Hall.
  inversion Hall as [|? ? Hc Hall']; subst. simpl.
  destruct (isSpace c) eqn:Hsp.
  - rewrite (Hc eq_refl) in *. destruct s as [|c' s]; [done|].
    destruct Hnd as [Hnd|Hnd]; [by rewrite Hnd in Hsp|].
    rewrite Hnd. f_equal. by apply IH.
  - f_equal. by apply IH.
Qed.

Lemma cleanText_idempotent (t : text) : cleanText (cleanText t) = cleanText t.
Proof.
  unfold cleanText at 1. rewrite collapseSpaces_id.
  - apply trim_idempotent.
  - apply cleanText_noDoubleSpace.
  - unfold cleanText.
    destruct (trim_decompose (collapseSpaces t)) as (l & r & Hs & _).
    pose proof (collapseSpaces_spaces t) as Hall. rewrite Hs in Hall.
    by apply Forall_app in Hall as [_ [Hall _]%Forall_app].
Qed.

(** X5. [chunkText] looks at its input only through the cleaned text, and
    cleaning a cleaned text changes nothing: chunking the cleaned form of a
    text gives the chunks of the text itself, whatever the options. *)
Theorem chunkText_of_cleaned (fuel : nat) (t : text)
    (maxChunkSize overlapSize : Z) :
  cleanText (cleanText t) = cleanText t
  /\ chunkText fuel (cleanText t) maxChunkSize overlapSize
     = chunkText fuel t maxChunkSize overlapSize.
Proof.
  split; [apply cleanText_idempotent|].
  destruct (decide (trim t = [])) as [Hb|Hnb].
  - rewrite !chunkText_blank; try done.
    apply cleanText_nil_iff in Hb. by rewrite Hb.
  - rewrite !chunkText_not_blank, cleanText_idempotent; try done.
    unfold cleanText at 1. rewrite trim_idempotent.
    by rewrite <- cleanText_nil_iff in Hnb.
Qed.


End ChunkShapeFacts.

(** ** Facts about [prepareTextForEmbedding] *)

Module PreparationFacts.
Import Js JsFacts Chunker Preparation.

Lemma lastIndexOfFrom_hit (s pat : text) (i best : Z) :
  lastIndexOfFrom s pat i best = best
  \/ i <= lastIndexOfFrom s pat i best
     /\ startsWith (drop (Z.to_nat (lastIndexOfFrom s pat i best - i)) s) pat
        = true.
Proof.
  revert i best. induction s as [|c s IH]; intros i best;
    cbn [lastIndexOfFrom].
  - destruct pat; simpl; [right|by left]. split; [lia|by rewrite drop_nil].
  - destruct (IH (i + 1) (if startsWith (c :: s) pat then i else best))
      as [H|[Hle H]].
    + rewrite H. destruct (startsWith (c :: s) pat) eqn:Hp; [|by left].
      right. split; [lia|]. by rewrite Z.sub_diag.
    + right. split; [lia|].
      set (r := lastIndexOfFrom s pat (i + 1) _) in *.
      replace (Z.to_nat (r - i)) with (S (Z.to_nat (r - (i + 1)))) by lia.
      done.
Qed.

(** At a hit of [lastIndexOf] the pattern stands. *)
Lemma lastIndexOf_hit (s pat : text) :
  0 <= lastIndexOf s pat ->
  startsWith (drop (Z.to_nat (lastIndexOf s pat)) s) pat = true.
Proof.
  unfold lastIndexOf. intros H.
  destruct (lastIndexOfFrom_hit s pat 0 (-1)) as [Hb|[_ Hb]]; [lia|].
  by rewrite Z.sub_0_r in Hb.
Qed.

Lemma substring_prefix (s : text) (b : Z) : substring s 0 b `prefix_of` s.
Proof.
  unfold substring.
  assert (H0 : clamp s 0 = 0%nat) by (unfold clamp, length; lia).
  rewrite H0, Nat.min_0_l, Nat.max_0_l, Nat.sub_0_r, drop_0.
  apply prefix_take.
Qed.

Lemma length_substring_0 (s : text) (b : Z) :
  length (substring s 0 b) = Z.min (Z.max b 0) (length s).
Proof.
  unfold substring.
  assert (H0 : clamp s 0 = 0%nat) by (unfold clamp, length; lia).
  rewrite H0, Nat.min_0_l, Nat.max_0_l, Nat.sub_0_r, drop_0.
  unfold length, clamp, length. rewrite length_take. lia.
Qed.

(** X6. Whatever the limit, [prepareTextForEmbedding] returns a prefix of
    the cleaned text (white space collapsed, trimmed) of at most [maxLength]
    characters, and the whole cleaned text when that fits the limit. *)
Theorem prepareTextForEmbedding_prefix (t : text) (maxLength : Z) :
  prepareTextForEmbedding t maxLength `prefix_of` cleanText t
  /\ length (prepareTextForEmbedding t maxLength) <= Z.max maxLength 0
  /\ (length (cleanText t) <= maxLength ->
      prepareTextForEmbedding t maxLength = cleanText t).
Proof.
  unfold prepareTextForEmbedding.
  pose proof (length_nonneg (cleanText t)) as Hlen.
  destruct (maxLength <? length (cleanText t)) eqn:Hlt;
    [apply Z.ltb_lt in Hlt|apply Z.ltb_ge in Hlt].
  - set (cut := substring (cleanText t) 0 maxLength).
    assert (Hcut : length cut <= Z.max maxLength 0)
      by (unfold cut; rewrite length_substring_0; lia).
    destruct (_ <? _); repeat split; try lia.
    + etrans; [apply substring_prefix|apply substring_prefix].
    + rewrite length_substring_0. pose proof (length_nonneg cut). lia.
    + apply substring_prefix.
  - repeat split; [done|lia].
Qed.

(** X7. When the cleaned text is longer than a positive limit, the result
    keeps more than four fifths of the limit: it either has exactly
    [maxLength] characters or is cut after a full stop that lies beyond
    four fifths of the limit, and then ends with that full stop. *)
Theorem prepareTextForEmbedding_truncated (t : text) (maxLength : Z) :
  0 < maxLength < length (cleanText t) ->
  4 * maxLength < 5 * length (prepareTextForEmbedding t maxLength)
  /\ (length (prepareTextForEmbedding t maxLength) = maxLength
      \/ last (prepareTextForEmbedding t maxLength) = Some period).
Proof.
  intros [Hpos Hlt]. unfold prepareTextForEmbedding.
  destruct (maxLength <? _) eqn:E; [|apply Z.ltb_ge in E; lia]. clear E.
  set (cut := substring (cleanText t) 0 maxLength).
  assert (Hcut : length cut = maxLength)
    by (unfold cut; rewrite length_substring_0; lia).
  set (lp := lastIndexOf cut (of_string ".")).
  destruct (4 * maxLength <? 5 * lp) eqn:Hfar;
    [apply Z.ltb_lt in Hfar|split; [lia|by left]].
  assert (Hlp : 0 <= lp) by lia.
  pose proof (lastIndexOf_bounds cut (of_string ".") Hlp) as Hb.
  pose proof (lastIndexOf_hit cut (of_string ".") Hlp) as Hhit.
  fold lp in Hb, Hhit. change (length (of_string ".")) with 1 in Hb.
  rewrite length_substring_0. split; [lia|right].
  rewrite substring_in_range by lia. rewrite Z.sub_0_r.
  change (Z.to_nat 0) with 0%nat. rewrite drop_0.
  destruct (drop (Z.to_nat lp) cut) as [|c rest] eqn:Hd; [done|].
  change (of_string ".") with [period] in Hhit. cbn [startsWith] in Hhit.
  apply andb_true_iff in Hhit as [Hc%N.eqb_eq _].
  rewrite <- (take_drop (Z.to_nat lp) cut), Hd.
  rewrite take_app_ge by (rewrite length_take; lia).
  rewrite length_take.
  replace (Z.to_nat (lp + 1) - _)%nat with 1%nat
    by (unfold length in *; lia).
  simpl. rewrite take_0, last_snoc. by rewrite <- Hc.
Qed.

Lemma prepareTextForEmbedding_truncated_witness :
  4 * 10 < 5 * length (prepareTextForEmbedding twoSentences 10)
  /\ (length (prepareTextForEmbedding twoSentences 10) = 10
      \/ last (prepareTextForEmbedding twoSentences 10) = Some period).
Proof. apply prepareTextForEmbedding_truncated. by vm_compute. Defined.

End PreparationFacts.

(** ** Facts about [findMostSimilar] *)

Module RankingFacts.
Import Js Repository Ranking RepositoryFacts.

Lemma slice_0 {A : Type} (l : list A) (b : Z) :
  slice l 0 b
  = take (Z.to_nat (sliceIndex (Z.of_nat (List.length l)) b)) l.
Proof.
  unfold slice. assert (H0 : sliceIndex (Z.of_nat (List.length l)) 0 = 0).
  { unfold sliceIndex. simpl. lia. }
  rewrite H0, Z.sub_0_r. change (Z.to_nat 0) with 0%nat. by rewrite drop_0.
Qed.

Lemma ranksBefore_le (a b : SimilarityMatch) :
  ranksBefore a b -> (similarity b <= similarity a)%Q.
Proof. intros [H|[H _]]; [by apply Qlt_le_weak|]. rewrite H. apply Qle_refl. Qed.

Lemma insertMatch_perm (m : SimilarityMatch) (l : list SimilarityMatch) :
  insertMatch m l ≡ₚ m :: l.
Proof.
  induction l as [|x l IH]; [done|]. simpl.
  destruct (Qltb _ _); [|done]. rewrite IH. apply Permutation_swap.
Qed.

Lemma sortMatches_perm (l : list SimilarityMatch) : sortMatches l ≡ₚ l.
Proof.
  induction l as [|x l IH]; [done|]. simpl.
  by rewrite insertMatch_perm, IH.
Qed.

Lemma insertMatch_sorted (m : SimilarityMatch) (l : list SimilarityMatch) :
  StronglySorted ranksBefore l ->
  Forall (fun x => (index m < index x)%nat) l ->
  StronglySorted ranksBefore (insertMatch m l).
Proof.
  induction l as [|x l IH]; intros Hs Hi; [by repeat constructor|].
  apply StronglySorted_cons in Hs as [Hx Hs].
  apply Forall_cons in Hi as [Hmx Hi]. simpl.
  destruct (Qltb (similarity m) (similarity x)) eqn:Hlt.
  - apply Qltb_lt in Hlt. apply StronglySorted_cons. split; [|by apply IH].
    rewrite insertMatch_perm. constructor; [by left|done].
  - apply Qltb_ge in Hlt. apply StronglySorted_cons.
    split; [|by apply StronglySorted_cons].
    assert (Hall : Forall (fun y => (similarity y <= similarity m)%Q
                                    /\ (index m < index y)%nat) (x :: l)).
    { constructor; [done|]. rewrite Forall_forall in *. intros y Hy.
      split; [|by apply Hi].
      eapply Qle_trans; [apply ranksBefore_le, Hx, Hy|done]. }
    eapply Forall_impl; [exact Hall|]. intros y [Hle Hlty].
    destruct (Qlt_le_dec (similarity y) (similarity m)) as [?|Hge];
      [by left|right].
    split; [by apply Qle_antisym|done].
Qed.

(** Sorting a list whose indices increase puts it in rank order. *)
Lemma sortMatches_sorted (l : list SimilarityMatch) :
  StronglySorted (fun a b => (index a < index b)%nat) l ->
  StronglySorted ranksBefore (sortMatches l).
Proof.
  induction l as [|x l IH]; intros Hs; [constructor|].
  apply StronglySorted_cons in Hs as [Hx Hs]. simpl.
  apply insertMatch_sorted; [by apply IH|]. by rewrite sortMatches_perm.
Qed.

Lemma increasing_of_seq (l : list SimilarityMatch) (k n : nat) :
  map index l = seq k n ->
  StronglySorted (fun a b => (index a < index b)%nat) l.
Proof.
  revert k n. induction l as [|a l IH]; intros k n Hl; [constructor|].
  destruct n as [|n]; [done|]. simpl in Hl. injection Hl as Ha Hl.
  apply StronglySorted_cons. split; [|by eapply IH].
  apply Forall_forall. intros x Hx.
  assert (Hin : index x ∈ seq (S k) n).
  { rewrite <- Hl. apply list_elem_of_fmap. eauto. }
  apply elem_of_seq in Hin. lia.
Qed.

Lemma StronglySorted_filter {A : Type} (R : relation A) (P : A -> Prop)
    `{!forall x, Decision (P x)} (l : list A) :
  StronglySorted R l -> StronglySorted R (filter P l).
Proof.
  induction 1 as [|x l Hl IH Hx]; [constructor|].
  rewrite filter_cons. destruct (decide (P x)); [|done].
  apply StronglySorted_cons. split; [|done].
  apply Forall_forall. intros y [_ Hy]%list_elem_of_filter.
  rewrite Forall_forall in Hx. by apply Hx.
Qed.

Section FindMostSimilar.

Variable cosineSimilarity : Vector -> Vector -> Result Q.
Variables (queryEmbedding : Vector) (threshold : Q).

Lemma similaritiesFrom_spec (k : nat) (candidates : list Vector)
    (l : list SimilarityMatch) :
  similaritiesFrom cosineSimilarity k queryEmbedding candidates = Ok l ->
  map index l = seq k (List.length candidates)
  /\ Forall2 (fun m embedding =>
                cosineSimilarity queryEmbedding embedding = Ok (similarity m))
       l candidates.
Proof.
  revert k l. induction candidates as [|e candidates IH]; intros k l; simpl.
  - intros [= <-]. by split.
  - unfold calculateSimilarity.
    destruct (cosineSimilarity queryEmbedding e) as [s|] eqn:Hs; [|done].
    destruct (similaritiesFrom _ _ _ _) as [l'|] eqn:Hl'; [|done].
    intros [= <-]. destruct (IH _ _ Hl') as [Hi Hf]. simpl.
    split; [by rewrite Hi|by constructor].
Qed.

Lemma similaritiesFrom_returns (k : nat) (candidates : list Vector) :
  Forall (fun embedding =>
            exists s, cosineSimilarity queryEmbedding embedding = Ok s)
    candidates ->
  exists l, similaritiesFrom cosineSimilarity k queryEmbedding candidates = Ok l.
Proof.
  revert k. induction candidates as [|e candidates IH]; intros k Hall; simpl.
  - by eexists.
  - apply Forall_cons in Hall as [[s Hs] Hall]. unfold calculateSimilarity.
    rewrite Hs. destruct (IH (S k) Hall) as [l ->]. by eexists.
Qed.

(** The matches of rank order from which [findMostSimilar] cuts its
    answer. *)
Lemma ranked_all (candidates : list Vector) (l : list SimilarityMatch) :
  similaritiesFrom cosineSimilarity 0 queryEmbedding candidates = Ok l ->
  let ranked := sortMatches (filter (fun m => (threshold <= similarity m)%Q) l) in
  StronglySorted ranksBefore ranked
  /\ NoDup (map index ranked)
  /\ Forall (matchOf cosineSimilarity queryEmbedding candidates threshold) ranked
  /\ forall i embedding s,
       candidates !! i = Some embedding ->
       cosineSimilarity queryEmbedding embedding = Ok s ->
       (threshold <= s)%Q ->
       mkMatch i s ∈ ranked.
Proof.
  intros Hl ranked. destruct (similaritiesFrom_spec 0 candidates l Hl) as [Hi Hf].
  assert (Hlookup : forall j m, l !! j = Some m -> index m = j).
  { intros j m Hm. apply (f_equal (fun x => x !! j)) in Hi.
    rewrite list_lookup_fmap, Hm in Hi. symmetry in Hi.
    apply lookup_seq in Hi. simpl in Hi. lia. }
  split; [|split; [|split]].
  - apply sortMatches_sorted, StronglySorted_filter.
    by eapply increasing_of_seq.
  - unfold ranked. rewrite sortMatches_perm.
    eapply sublist_NoDup; [|apply fmap_sublist, sublist_filter].
    change (NoDup (map index l)). rewrite Hi. apply NoDup_seq.
  - apply Forall_forall. intros m Hm. unfold ranked in Hm.
    rewrite sortMatches_perm in Hm.
    apply list_elem_of_filter in Hm as [Hthr Hm].
    apply list_elem_of_lookup in Hm as [j Hj].
    destruct (Forall2_lookup_l _ _ _ _ _ Hf Hj) as (e & He & Hs).
    exists e. by rewrite (Hlookup j m Hj).
  - intros i e s He Hs Hthr. unfold ranked. rewrite sortMatches_perm.
    apply list_elem_of_filter. split; [done|].
    destruct (Forall2_lookup_r _ _ _ _ _ Hf He) as (m & Hm & Hms).
    apply list_elem_of_lookup. exists i.
    rewrite Hs in Hms. injection Hms as Hms.
    pose proof (Hlookup i m Hm) as Him. destruct m as [im sm]; simpl in *.
    by subst.
Qed.

End FindMostSimilar.

(** X8. [findMostSimilar] returns whenever the similarity of every
    candidate can be computed. Every match it returns is a candidate at the
    reported index with the reported similarity, which is at least the
    threshold; no candidate is reported twice; the matches come in rank
    order, the more similar first and, among equally similar ones, the
    earlier candidate first; and for a non-negative [topK] there are at most
    [topK] of them. *)
Theorem findMostSimilar_ranked
    (cosineSimilarity : Vector -> Vector -> Result Q)
    (queryEmbedding : Vector) (candidateEmbeddings : list Vector)
    (topK : Z) (threshold : Q) :
  (Forall (fun embedding =>
             exists s, cosineSimilarity queryEmbedding embedding = Ok s)
     candidateEmbeddings ->
   exists matches,
     findMostSimilar cosineSimilarity queryEmbedding candidateEmbeddings
       topK threshold = Ok matches)
  /\ forall matches,
       findMostSimilar cosineSimilarity queryEmbedding candidateEmbeddings
         topK threshold = Ok matches ->
       Forall (matchOf cosineSimilarity queryEmbedding candidateEmbeddings
                 threshold) matches
       /\ NoDup (map index matches)
       /\ StronglySorted ranksBefore matches
       /\ (0 <= topK -> Z.of_nat (List.length matches) <= topK).
Proof.
  unfold findMostSimilar. split.
  - intros Hall.
    destruct (similaritiesFrom_returns cosineSimilarity queryEmbedding 0
                candidateEmbeddings Hall) as [l ->]. by eexists.
  - intros matches.
    destruct (similaritiesFrom _ _ _ _) as [l|] eqn:Hl; [|done].
    intros [= <-]. rewrite slice_0.
    destruct (ranked_all cosineSimilarity queryEmbedding threshold
                candidateEmbeddings l Hl) as (Hs & Hn & Hm & _).
    repeat split.
    + by apply Forall_take.
    + eapply sublist_NoDup; [|apply fmap_sublist, sublist_take]. done.
    + by apply StronglySorted_take.
    + intros Hk. rewrite length_take. unfold sliceIndex.
      destruct (topK <? 0) eqn:E; [apply Z.ltb_lt in E; lia|]. lia.
Qed.

(** X9. For a non-negative [topK], a candidate whose similarity is at least
    the threshold is left out of the answer of [findMostSimilar] only when
    the answer is full, and then every match of the answer is at least as
    similar as that candidate. *)
Theorem findMostSimilar_keeps_the_best
    (cosineSimilarity : Vector -> Vector -> Result Q)
    (queryEmbedding : Vector) (candidateEmbeddings : list Vector)
    (topK : Z) (threshold : Q) (matches : list SimilarityMatch)
    (i : nat) (embedding : Vector) (s : Q) :
  findMostSimilar cosineSimilarity queryEmbedding candidateEmbeddings
    topK threshold = Ok matches ->
  0 <= topK ->
  candidateEmbeddings !! i = Some embedding ->
  cosineSimilarity queryEmbedding embedding = Ok s ->
  (threshold <= s)%Q ->
  i ∉ map index matches ->
  Z.of_nat (List.length matches) = topK
  /\ Forall (fun m => (s <= similarity m)%Q) matches.
Proof.
  unfold findMostSimilar.
  destruct (similaritiesFrom _ _ _ _) as [l|] eqn:Hl; [|done].
  intros [= <-] Hk He Hs Hthr Hout. rewrite slice_0 in *.
  destruct (ranked_all cosineSimilarity queryEmbedding threshold
              candidateEmbeddings l Hl) as (Hsorted & _ & _ & Hin).
  specialize (Hin i embedding s He Hs Hthr).
  set (ranked := sortMatches _) in *.
  set (n := Z.to_nat (sliceIndex (Z.of_nat (List.length ranked)) topK)) in *.
  rewrite <- (take_drop n ranked) in Hin, Hsorted.
  apply elem_of_app in Hin as [Hin|Hin].
  { exfalso. apply Hout. apply list_elem_of_fmap. by exists (mkMatch i s). }
  split.
  - assert (Hlen : (n < List.length ranked)%nat).
    { destruct (decide (n < List.length ranked)%nat) as [|Hge]; [done|].
      rewrite drop_ge in Hin by lia. by apply elem_of_nil in Hin. }
    rewrite length_take. unfold n, sliceIndex in *.
    destruct (topK <? 0) eqn:E; [apply Z.ltb_lt in E; lia|]. lia.
  - apply Forall_forall. intros m Hm.
    apply (ranksBefore_le m (mkMatch i s)).
    by eapply StronglySorted_app_1_elem_of.
Qed.

Lemma findMostSimilar_keeps_the_best_witness :
  Z.of_nat (List.length [mkMatch 1 (9 # 10); mkMatch 3 (9 # 10)]) = 2
  /\ Forall (fun m => (1 # 2 <= similarity m)%Q)
       [mkMatch 1 (9 # 10); mkMatch 3 (9 # 10)].
Proof.
  apply (findMostSimilar_keeps_the_best firstOf [] fourCandidates 2 (3 # 10)
           _ 0%nat [1 # 2] (1 # 2)); try done.
  simpl. intros H.
  repeat (apply elem_of_cons in H as [H|H]; [discriminate|]).
  by apply elem_of_nil in H.
Defined.

End RankingFacts.

(** ** Facts about the sections and the chunks of a document *)

Module SectionShapeFacts.
Import Js JsFacts Sections SectionsFacts SectionShape.

Lemma substringFrom_substring (t : text) (a : Z) :
  0 <= a <= length t -> substringFrom t a = substring t a (length t).
Proof.
  intros Ha. rewrite substring_in_range by lia. unfold substringFrom.
  rewrite clamp_in_range by lia.
  rewrite take_ge; [done|]. rewrite length_drop. unfold length in *. lia.
Qed.

Lemma open_bounds (t : text) (st : DetectState) (cur : DocumentSection) :
  currentSection st = Some cur -> openOk t st ->
  0 <= startOffset cur <= currentOffset st
  /\ startOffset cur <= length t
  /\ trim (substring t (startOffset cur) (currentOffset st)) <> []
  /\ trim (substringFrom t (startOffset cur)) <> [].
Proof.
  intros Hcur Hopen. unfold openOk in Hopen. rewrite Hcur in Hopen.
  destruct Hopen as (_ & _ & pre & line & rest & -> & Hstart & Hnb & Hle).
  pose proof (length_nonneg pre). pose proof (length_nonneg line).
  rewrite Hstart. repeat split; try lia.
  - unfold length. rewrite length_app. lia.
  - destruct (substring_middle pre line rest (currentOffset st) Hle) as [x ->].
    by apply not_blank_app.
  - rewrite substringFrom_middle. by apply not_blank_app.
Qed.

Lemma lineStep_good (t pre line rest : text) (st st' : DetectState) :
  t = pre ++ line ++ rest -> currentOffset st = length pre ->
  openOk t st -> Forall (goodSection t) (sections st) ->
  lineStep t st line = Some st' ->
  Forall (goodSection t) (sections st').
Proof.
  intros Ht Hoff Hopen Hgood. unfold lineStep.
  destruct (matchHeading line) as [|headingTitle|]; [| |done].
  - by intros [= <-].
  - intros [= <-]. cbn [sections].
    destruct (currentSection st) as [cur|] eqn:Hcur.
    + rewrite (closeSection_open t st cur Hcur Hopen).
      destruct (open_bounds t st cur Hcur Hopen) as (Hs & Hst & Hnb & _).
      apply Forall_app. split; [done|]. constructor; [|done].
      assert (Hlen : length pre <= length t).
      { rewrite Ht. unfold length. rewrite length_app. lia. }
      split; [|done]. unfold sectionOf; cbn. repeat split; lia.
    + unfold closeSection. by rewrite Hcur.
Qed.

Lemma lineLoop_good (t : text) (lines : list text) (pre : text)
    (st st' : DetectState) :
  lines <> [] -> t = pre ++ join [newline] lines ->
  currentOffset st = length pre ->
  chainOk (sections st) -> openOk t st ->
  Forall (goodSection t) (sections st) ->
  lineLoop t st lines = Some st' ->
  Forall (goodSection t) (sections st').
Proof.
  revert pre st. induction lines as [|line lines IH]; [done|].
  intros pre st _ Ht Hoff Hchain Hopen Hgood. simpl.
  destruct (lineStep t st line) as [st1|] eqn:Hstep; [|done].
  destruct lines as [|line2 lines].
  - simpl. intros [= <-].
    apply (lineStep_good t pre line [] st st1); try done.
    by rewrite app_nil_r.
  - destruct (lineStep_inv t pre line ([newline] ++ join [newline] (line2 :: lines))
                st st1) as (Hc1 & Ho1 & Hoff1); try done.
    apply (IH (pre ++ line ++ [newline]) st1); try done.
    + rewrite Ht. cbn [join]. by rewrite <- !app_assoc.
    + rewrite Hoff1. unfold length. rewrite !length_app. simpl. lia.
    + by apply (lineStep_good t pre line
                  ([newline] ++ join [newline] (line2 :: lines)) st st1).
Qed.

Lemma detectSections_good (t : text) (secs : list DocumentSection) :
  detectSections t = Ok secs ->
  Forall (sectionOf t) secs
  /\ (trim t <> [] -> Forall (fun sec => content sec <> []) secs).
Proof.
  unfold detectSections.
  destruct (lineLoop t _ _) as [st|] eqn:Hloop; [|done]. intros [= <-].
  destruct (lineLoop_inv t (splitLines t) [] (mkDetect [] None 0) st)
    as [Hchain Hopen]; try done.
  { apply splitLines_not_nil. }
  { by rewrite join_splitLines. }
  assert (Hgood : Forall (goodSection t) (sections st)).
  { apply (lineLoop_good t (splitLines t) [] (mkDetect [] None 0) st);
      try done; [apply splitLines_not_nil|by rewrite join_splitLines]. }
  pose proof (length_nonneg t) as Hlen.
  assert (Hdoc : sectionOf t (mkSection (of_string "Document") (trim t) 0 (length t))).
  { unfold sectionOf; cbn. rewrite substring_all. repeat split; lia. }
  unfold finish. cbv zeta.
  destruct (currentSection st) as [cur|] eqn:Hcur.
  - destruct (open_bounds t st cur Hcur Hopen) as (Hs & Hst & _ & Hnb).
    unfold openOk in Hopen. rewrite Hcur in Hopen. destruct Hopen as (He & _).
    pose proof Hnb as Hne. rewrite <- length_nil_iff in Hne.
    pose proof (length_nonneg (trim (substringFrom t (startOffset cur)))).
    destruct (0 <? _) eqn:E; [|apply Z.ltb_ge in E; lia].
    set (closed := mkSection _ _ _ _).
    assert (Hall : Forall (goodSection t) (sections st ++ [closed])).
    { apply Forall_app. split; [done|]. constructor; [|done].
      split; [|done]. unfold sectionOf, closed; cbn.
      rewrite He, <- substringFrom_substring by lia. repeat split; lia. }
    destruct (sections st ++ [closed]) as [|x l] eqn:Hx;
      [by destruct (sections st)|].
    split; [|intros _]; eapply Forall_impl; try exact Hall; by intros ? [? ?].
  - unfold openOk in Hopen. rewrite Hcur in Hopen. rewrite Hopen.
    split; [by constructor|]. intros Hnb. by constructor.
Qed.

(** X10. Whenever [detectSections] returns, it returns at least one
    section; each section ends where the next one starts and the last one
    ends at the end of the text; the span of every section lies inside the
    text and its content is the trimmed piece of the text between its
    offsets; and unless the text is blank no section has an empty
    content. *)
Theorem detectSections_sections (t : text) (secs : list DocumentSection) :
  detectSections t = Ok secs ->
  contiguousTo (length t) secs = true
  /\ Forall (sectionOf t) secs
  /\ (trim t <> [] -> Forall (fun sec => content sec <> []) secs).
Proof.
  intros Hd. split; [by apply detectSections_contiguous|].
  by apply detectSections_good.
Qed.

Lemma detectSections_sections_witness :
  contiguousTo (length threeParts)
    [mkSection (of_string "One")
       (of_string "# One" ++ [newline] ++ of_string "alpha beta. gamma delta.")
       6 37;
     mkSection (of_string "Two")
       (of_string "# Two" ++ [newline] ++ of_string "epsilon zeta. eta theta.")
       37 67] = true
  /\ Forall (sectionOf threeParts)
       [mkSection (of_string "One")
          (of_string "# One" ++ [newline] ++ of_string "alpha beta. gamma delta.")
          6 37;
        mkSection (of_string "Two")
          (of_string "# Two" ++ [newline] ++ of_string "epsilon zeta. eta theta.")
          37 67]
  /\ (trim threeParts <> [] ->
      Forall (fun sec => content sec <> [])
        [mkSection (of_string "One")
           (of_string "# One" ++ [newline] ++ of_string "alpha beta. gamma delta.")
           6 37;
         mkSection (of_string "Two")
           (of_string "# Two" ++ [newline] ++ of_string "epsilon zeta. eta theta.")
           37 67]).
Proof. apply detectSections_sections. vm_compute. reflexivity. Defined.

Lemma lineLoop_plain (t : text) (lines : list text) (offset : Z) :
  Forall (fun line => matchHeading line = NoHeading) lines ->
  exists offset',
    lineLoop t (mkDetect [] None offset) lines
    = Some (mkDetect [] None offset').
Proof.
  revert offset. induction lines as [|line lines IH]; intros offset Hall.
  - by eexists.
  - apply Forall_cons in Hall as [Hline Hall]. simpl. unfold lineStep.
    rewrite Hline. cbn. apply IH, Hall.
Qed.

(** X11. A text none of whose lines is a heading is one section, titled
    ['Document'], that spans the whole text and holds the trimmed text. *)
Theorem detectSections_no_heading (t : text) :
  noHeading t ->
  detectSections t
  = Ok [mkSection (of_string "Document") (trim t) 0 (length t)].
Proof.
  intros Hplain. unfold detectSections.
  by destruct (lineLoop_plain t (splitLines t) 0 Hplain) as [offset' ->].
Qed.

Lemma detectSections_no_heading_witness :
  detectSections twoPlainLines
  = Ok [mkSection (of_string "Document") (trim twoPlainLines) 0
          (length twoPlainLines)].
Proof.
  apply detectSections_no_heading. unfold noHeading.
  repeat constructor; by vm_compute.
Defined.

(** *** The chunks of a document, section by section *)

Lemma rebase_cons (sec : DocumentSection) (k : Z) (c : Chunker.TextChunk)
    (cs : list Chunker.TextChunk) :
  rebase sec k (c :: cs)
  = Chunker.mkChunk (Chunker.content c) k
      (startOffset sec + Chunker.startOffset c)
      (startOffset sec + Chunker.endOffset c) (Some (title sec))
    :: rebase sec (k + 1) cs.
Proof.
  unfold rebase. simpl. rewrite Z.add_0_r. f_equal.
  apply imap_ext. intros i x _. simpl. f_equal. lia.
Qed.

Lemma rebase_index (sec : DocumentSection) (n : nat)
    (cs : list Chunker.TextChunk) :
  map Chunker.chunkIndex (rebase sec (Z.of_nat n) cs)
  = map Z.of_nat (seq n (List.length cs)).
Proof.
  revert n. induction cs as [|c cs IH]; intros n; [done|].
  rewrite rebase_cons. simpl. f_equal.
  replace (Z.of_nat n + 1) with (Z.of_nat (S n)) by lia. apply IH.
Qed.

Lemma rebase_Forall (P : Chunker.TextChunk -> Prop) (sec : DocumentSection)
    (k : Z) (cs : list Chunker.TextChunk) :
  Forall (fun c => forall i,
            P (Chunker.mkChunk (Chunker.content c) i
                 (startOffset sec + Chunker.startOffset c)
                 (startOffset sec + Chunker.endOffset c) (Some (title sec))))
    cs ->
  Forall P (rebase sec k cs).
Proof.
  revert k. induction cs as [|c cs IH]; intros k Hall; [constructor|].
  apply Forall_cons in Hall as [Hc Hall]. rewrite rebase_cons.
  constructor; [apply Hc|by apply IH].
Qed.

Lemma chunkIn_cons (maxChunkSize : Z) (sec : DocumentSection)
    (secs : list DocumentSection) (c : Chunker.TextChunk) :
  chunkIn maxChunkSize secs c -> chunkIn maxChunkSize (sec :: secs) c.
Proof.
  intros (? & ? & sec' & Hin & ?). repeat split; try done.
  exists sec'. split; [by right|done].
Qed.

Section Document.

Variables (t : text) (maxChunkSize overlapSize : Z).
Hypothesis Hmax : 2 <= maxChunkSize.
Hypothesis Hov : 0 <= overlapSize.

Local Abbreviation chunkable := (chunkable t).

(** The chunks of one section. *)
Lemma section_chunks (sec : DocumentSection) (secs : list DocumentSection)
    (n : nat) :
  chunkable sec ->
  exists cs,
    (forall fuel, (List.length t <= fuel)%nat ->
       Chunker.chunkText fuel (content sec) maxChunkSize overlapSize = Some cs)
    /\ cs <> []
    /\ Forall (chunkIn maxChunkSize (sec :: secs)) (rebase sec (Z.of_nat n) cs).
Proof.
  intros [Hnb Hlen].
  destruct (ChunkerFacts.chunkText_total (content sec) maxChunkSize overlapSize
              Hmax Hov Hnb) as (cs & Hcs & Hof & Hcov & _).
  exists cs. split; [|split].
  - intros fuel Hfuel. apply Hcs. unfold length in Hlen. lia.
  - by destruct cs.
  - destruct (ChunkShapeFacts.chunkText_shape (List.length (content sec))
                (content sec) maxChunkSize overlapSize cs Hmax Hov)
      as [Hw _]; [by apply Hcs|].
    pose proof (ChunkerFacts.length_cleanText_le (content sec)) as Hclean.
    apply rebase_Forall. apply Forall_forall. intros c Hc i.
    rewrite Forall_forall in Hof, Hw.
    destruct (Hof c Hc) as (Hspan & Hend & _).
    destruct (Hw c Hc) as (Hne & _ & Hl & Hm & _).
    unfold chunkIn; cbn. repeat split; [done|lia|].
    exists sec. split; [by left|]. repeat split; lia.
Qed.

Lemma chunkSections_spec (secs : list DocumentSection)
    (allChunks : list Chunker.TextChunk) :
  Forall chunkable secs ->
  exists out,
    (forall fuel, (List.length t <= fuel)%nat ->
       chunkSections fuel maxChunkSize overlapSize secs allChunks
       = Some (allChunks ++ out))
    /\ map Chunker.chunkIndex out
       = map Z.of_nat (seq (List.length allChunks) (List.length out))
    /\ Forall (chunkIn maxChunkSize secs) out
    /\ Forall (fun sec => exists c, c ∈ out
                                    /\ Chunker.section c = Some (title sec))
         secs.
Proof.
  intros Hsecs. revert allChunks.
  induction Hsecs as [|sec secs Hsec _ IH]; intros allChunks.
  - exists []. split; [|done]. intros fuel _. simpl. by rewrite app_nil_r.
  - destruct (section_chunks sec secs (List.length allChunks) Hsec)
      as (cs & Hcs & Hne & Hin).
    set (mine := rebase sec (Z.of_nat (List.length allChunks)) cs) in *.
    destruct (IH (allChunks ++ mine)) as (out & Hout & Hidx & Hall & Hevery).
    assert (Hlen : List.length mine = List.length cs)
      by apply length_imap.
    exists (mine ++ out). split; [|split; [|split]].
    + intros fuel Hfuel. simpl. rewrite (Hcs fuel Hfuel).
      fold mine. rewrite (Hout fuel Hfuel). by rewrite app_assoc.
    + rewrite map_app, length_app, seq_app, map_app. f_equal.
      * rewrite Hlen. apply rebase_index.
      * rewrite Hidx. by rewrite length_app.
    + apply Forall_app. split; [done|].
      eapply Forall_impl; [exact Hall|]. intros c. apply chunkIn_cons.
    + constructor.
      * destruct mine as [|c mine'] eqn:Hm; [by destruct cs|].
        apply Forall_cons in Hin as [(_ & _ & sec' & _ & Hs & _) _].
        exists c. split; [by left|].
        unfold mine in Hm. destruct cs as [|c0 cs]; [done|].
        rewrite rebase_cons in Hm. by injection Hm as <- _.
      * eapply Forall_impl; [exact Hevery|]. intros sec' (c & Hc & Hs).
        exists c. split; [|done]. apply elem_of_app. by right.
Qed.

Lemma rebase_Forall2 (sec : DocumentSection) (k : Z)
    (cs : list Chunker.TextChunk) :
  Forall2 (fun c o =>
             Chunker.content c = Chunker.content o
             /\ Chunker.startOffset c = startOffset sec + Chunker.startOffset o
             /\ Chunker.endOffset c = startOffset sec + Chunker.endOffset o
             /\ Chunker.section c = Some (title sec))
    (rebase sec k cs) cs.
Proof.
  revert k. induction cs as [|c cs IH]; intros k; [constructor|].
  rewrite rebase_cons. constructor; [done|apply IH].
Qed.

(** The chunks of the sections, group by group. *)
Lemma chunkSections_groups (secs : list DocumentSection)
    (allChunks : list Chunker.TextChunk) :
  Forall chunkable secs ->
  exists groups,
    (forall fuel, (List.length t <= fuel)%nat ->
       chunkSections fuel maxChunkSize overlapSize secs allChunks
       = Some (allChunks ++ concat groups))
    /\ map Chunker.chunkIndex (concat groups)
       = map Z.of_nat (seq (List.length allChunks)
                         (List.length (concat groups)))
    /\ Forall2 (sectionGroup t maxChunkSize overlapSize) secs groups.
Proof.
  intros Hsecs. revert allChunks.
  induction Hsecs as [|sec secs Hsec _ IH]; intros allChunks.
  - exists []. split; [|split; [done|constructor]].
    intros fuel _. simpl. by rewrite app_nil_r.
  - destruct (section_chunks sec [] (List.length allChunks) Hsec)
      as (cs & Hcs & Hne & Hin).
    set (mine := rebase sec (Z.of_nat (List.length allChunks)) cs) in *.
    destruct (IH (allChunks ++ mine)) as (groups & Hout & Hidx & Hall).
    assert (Hlen : List.length mine = List.length cs)
      by apply length_imap.
    exists (mine :: groups). split; [|split].
    + intros fuel Hfuel. simpl. rewrite (Hcs fuel Hfuel).
      fold mine. rewrite (Hout fuel Hfuel). by rewrite app_assoc.
    + cbn [concat]. rewrite map_app, length_app, seq_app, map_app. f_equal.
      * rewrite Hlen. apply rebase_index.
      * rewrite Hidx. by rewrite length_app.
    + constructor; [|done]. split; [|split; [done|]].
      * intros Hnil. rewrite Hnil in Hlen. by destruct cs.
      * exists cs. split; [done|]. apply rebase_Forall2.
Qed.

End Document.

(** The sections of a text that is not blank can be chunked. *)
Lemma detectSections_chunkable (t : text) (secs : list DocumentSection) :
  trim t <> [] -> detectSections t = Ok secs -> Forall (chunkable t) secs.
Proof.
  intros Hnb Hd.
  destruct (detectSections_good t secs Hd) as [Hof Hne].
  pose proof (detectSections_short t secs Hd) as Hshort.
  unfold shortSections in Hshort.
  specialize (Hne Hnb). rewrite Forall_forall in *. intros sec Hsec.
  split; [|by apply Hshort].
  destruct (Hof sec Hsec) as (_ & _ & Hc). rewrite Hc, trim_idempotent.
  rewrite <- Hc. by apply Hne.
Qed.

(** X12. With a window of two or more characters and a non-negative
    overlap, for a text that is longer than the window and not blank and
    whose sections [detectSections] finds, [chunkDocument] returns, within
    as many iterations of each [chunkText] loop as the text has characters.
    Its chunks are numbered 0, 1, 2, ... through all sections and come
    section by section, in the order of the sections: for every section
    one group of chunks, not empty, which holds the chunks that [chunkText]
    cuts from the content of that section, each with its offsets moved by
    the start of the section and tagged with the title of the section;
    every chunk is not empty and no longer than the window and its span
    starts inside its section. *)
Theorem chunkDocument_by_section (t : text) (maxChunkSize overlapSize : Z)
    (secs : list DocumentSection) :
  2 <= maxChunkSize -> 0 <= overlapSize ->
  maxChunkSize < length t -> trim t <> [] ->
  detectSections t = Ok secs ->
  exists groups,
    (forall fuel, (List.length t <= fuel)%nat ->
       chunkDocument fuel t maxChunkSize overlapSize true
       = Some (Ok (concat groups)))
    /\ map Chunker.chunkIndex (concat groups)
       = map Z.of_nat (seq 0 (List.length (concat groups)))
    /\ Forall2 (sectionGroup t maxChunkSize overlapSize) secs groups.
Proof.
  intros Hmax Hov Hlong Hnb Hd.
  pose proof (detectSections_chunkable t secs Hnb Hd) as Hsecs.
  destruct (chunkSections_groups t maxChunkSize overlapSize Hmax Hov secs []
              Hsecs) as (groups & Hout & Hidx & Hall).
  exists groups. split; [|done].
  intros fuel Hfuel. unfold chunkDocument.
  destruct (length (trim t) =? 0) eqn:E;
    [by apply Z.eqb_eq, length_nil_iff in E|].
  destruct (length t <=? maxChunkSize) eqn:E2; [apply Z.leb_le in E2; lia|].
  by rewrite Hd, (Hout fuel Hfuel).
Qed.

Lemma chunkDocument_by_section_witness :
  exists groups,
    (forall fuel, (List.length threeParts <= fuel)%nat ->
       chunkDocument fuel threeParts 20 5 true = Some (Ok (concat groups)))
    /\ map Chunker.chunkIndex (concat groups)
       = map Z.of_nat (seq 0 (List.length (concat groups)))
    /\ Forall2 (sectionGroup threeParts 20 5)
         [mkSection (of_string "One")
            (of_string "# One" ++ [newline]
             ++ of_string "alpha beta. gamma delta.") 6 37;
          mkSection (of_string "Two")
            (of_string "# Two" ++ [newline]
             ++ of_string "epsilon zeta. eta theta.") 37 67]
         groups.
Proof.
  apply chunkDocument_by_section; [lia|lia|by vm_compute| |].
  - vm_compute. discriminate.
  - vm_compute. reflexivity.
Defined.

End SectionShapeFacts.

(** ** Facts about the repository *)

Module QueriesFacts.
Import Js Repository Queries Samples.


Lemma update_unknown (now : Z) (id : text) (data : ContentPatch.t) (db : Db) :
  findById id db = None -> update now id data db = (None, db).
Proof.
  unfold findById, update. intros H. rewrite H, alter_id' by done.
  by destruct db.
Qed.

Lemma updateStatus_unknown (now : Z) (id : text) (status : ContentStatus)
    (errorMessage : option text) (db : Db) :
  findById id db = None -> updateStatus now id status errorMessage db = Ok db.
Proof. unfold findById, updateStatus. by intros ->. Qed.

(** X14. [update] returns the row as it is stored after the update, and
    null exactly for an unknown id; it never creates a row: on an unknown
    id it changes nothing, and so does [updateStatus]. On a known id the row
    keeps its id and has the current time as [updatedAt]; the other rows and
    the chunks are as before. *)
Theorem update_row (now : Z) (id : text) (data : ContentPatch.t)
    (status : ContentStatus) (errorMessage : option text) (db : Db) :
  (update now id data db).1 = findById id (update now id data db).2
  /\ ((update now id data db).1 = None <-> findById id db = None)
  /\ (findById id db = None ->
      (update now id data db).2 = db
      /\ updateStatus now id status errorMessage db = Ok db)
  /\ (forall c, (update now id data db).1 = Some c ->
        Content.updatedAt c = now
        /\ exists c0, findById id db = Some c0 /\ Content.id c = Content.id c0)
  /\ (forall id', id' <> id ->
        findById id' (update now id data db).2 = findById id' db)
  /\ contentChunks (update now id data db).2 = contentChunks db.
Proof.
  split; [|split; [|split; [|split; [|split]]]].
  - unfold update, findById; cbn. by rewrite lookup_alter_eq.
  - unfold update, findById; cbn. by destruct (contents db !! id).
  - intros H. split; [by rewrite update_unknown|by apply updateStatus_unknown].
  - unfold update, findById; cbn. intros c Hc.
    destruct (contents db !! id) as [c0|]; [|done].
    injection Hc as <-. split; [done|]. by exists c0.
  - intros id' Hne. unfold update, findById; cbn.
    by rewrite lookup_alter_ne.
  - done.
Qed.

(** *** The constraints are kept *)

Lemma chunkRows_rowOf (now : Z) (contentId : text) (chunkData : list ChunkData.t) :
  chunkRows now contentId chunkData = imap (rowOf now contentId) chunkData.
Proof. done. Qed.

Lemma chunkRows_ids (now : Z) (contentId : text) (chunkData : list ChunkData.t) :
  map ContentChunk.id (chunkRows now contentId chunkData)
  = map (fun index => (contentId, index)) (seq 0 (List.length chunkData)).
Proof.
  rewrite chunkRows_rowOf.
  change (map ContentChunk.id) with (fmap (M:=list) ContentChunk.id).
  rewrite fmap_imap.
  rewrite (imap_ext _ (fun index _ => (contentId, index))) by done.
  apply (imap_seq_0 chunkData (fun index => (contentId, index))).
Qed.

Lemma chunkRows_contentId (now : Z) (contentId : text)
    (chunkData : list ChunkData.t) :
  Forall (fun r => ContentChunk.contentId r = contentId
                   /\ (ContentChunk.id r).1 = contentId)
    (chunkRows now contentId chunkData).
Proof.
  rewrite chunkRows_rowOf. apply Forall_forall.
  intros r (i & d & -> & _)%elem_of_lookup_imap. done.
Qed.

Lemma createChunks_Ok (now : Z) (contentId : text)
    (chunkData : list ChunkData.t) (db db' : Db) (rows : list ContentChunk.t) :
  createChunks now contentId chunkData db = Ok (rows, db') ->
  chunkData = [] /\ rows = [] /\ db' = db
  \/ rows = chunkRows now contentId chunkData
     /\ db' = mkDb (contents db) (contentChunks db ++ rows)
     /\ is_Some (contents db !! contentId)
     /\ Forall (fun r => ContentChunk.id r
                         ∉ map ContentChunk.id (contentChunks db)) rows.
Proof.
  unfold createChunks. destruct chunkData as [|d chunkData].
  - intros [= <- <-]. by left.
  - set (rows' := chunkRows now contentId (d :: chunkData)).
    destruct (bool_decide _) eqn:Hfk; [done|].
    destruct (existsb _ _) eqn:Hex; [done|].
    intros [= <- <-]. right. repeat split.
    + apply bool_decide_eq_false in Hfk.
      by destruct (contents db !! contentId).
    + apply Forall_forall. intros r Hr Hin.
      assert (Htrue : existsb
                (fun r => bool_decide
                   (ContentChunk.id r ∈ map ContentChunk.id (contentChunks db)))
                rows' = true); [|by rewrite Htrue in Hex].
      apply existsb_exists. exists r.
      split; [by apply list_elem_of_In|by apply bool_decide_eq_true].
Qed.

(** X15. Every write of the repository keeps the constraints of the
    schema: after [create], [update], [updateStatus], [deleteChunks] and
    [createChunks] on a consistent database, the key of every content row is
    its id, every chunk refers to a content row and has an id built from
    its [content_id], and no two chunks share an id. *)
Theorem writes_keep_consistent (now : Z) (db : Db) :
  consistent db ->
  (forall data row db', create now data db = Ok (row, db') -> consistent db')
  /\ (forall id data, consistent (update now id data db).2)
  /\ (forall id status errorMessage db',
        updateStatus now id status errorMessage db = Ok db' -> consistent db')
  /\ (forall id, consistent (deleteChunks id db))
  /\ (forall id chunkData rows db',
        createChunks now id chunkData db = Ok (rows, db') -> consistent db').
Proof.
  intros (Hkey & Hfk & Hnd).
  assert (Halter : forall (f : Content.t -> Content.t) id,
            (forall c, Content.id (f c) = Content.id c) ->
            consistent (mkDb (alter f id (contents db)) (contentChunks db))).
  { intros f id Hf. split; [|split]; cbn; [| |done].
    - intros k c Hc. destruct (decide (k = id)) as [->|Hne].
      + rewrite lookup_alter_eq in Hc.
        destruct (contents db !! id) as [c0|] eqn:Hc0; [|done].
        injection Hc as <-. rewrite Hf. by apply (Hkey id).
      + rewrite lookup_alter_ne in Hc by done. by apply (Hkey k).
    - eapply Forall_impl; [exact Hfk|]. intros r [[c Hc] Hid].
      split; [|done].
      destruct (decide (ContentChunk.contentId r = id)) as [Heq|Hne].
      + rewrite <- Heq, lookup_alter_eq, Hc. by eexists.
      + rewrite lookup_alter_ne by done. by eexists. }
  split; [|split; [|split; [|split]]].
  - intros data row db'. unfold create.
    destruct (contents db !! NewContent.id data) eqn:Hfree; [done|].
    intros [= <- <-]. split; [|split]; cbn; [| |done].
    + apply map_Forall_insert_2; [done|done].
    + eapply Forall_impl; [exact Hfk|]. intros r [[c Hc] Hid].
      split; [|done].
      destruct (decide (ContentChunk.contentId r = NewContent.id data))
        as [Heq|Hne]; [by rewrite Heq, Hfree in Hc|].
      rewrite lookup_insert_ne by done. by eexists.
  - intros id data. by apply Halter.
  - intros id status errorMessage db'
      (Hchunks & _ & Hrow)%RepositoryFacts.updateStatus_inv.
    destruct (contents db !! id) as [c|] eqn:Hc; [|by subst db'].
    destruct Hrow as (c' & Hset & Hd').
    apply RepositoryFacts.setStatus_inv in Hset as (_ & Hid & _).
    split; [|split]; rewrite ?Hd', ?Hchunks; [| |done].
    + apply map_Forall_insert_2; [|done]. rewrite Hid. by apply (Hkey id).
    + eapply Forall_impl; [exact Hfk|]. intros r [[c0 Hc0] Hrid].
      split; [|done].
      destruct (decide (ContentChunk.contentId r = id)) as [Heq|Hne].
      * rewrite Heq, lookup_insert_eq. by eexists.
      * rewrite lookup_insert_ne by done. by eexists.
  - intros id. split; [done|]. split; cbn.
    + apply Forall_forall. intros r [_ Hr]%list_elem_of_filter.
      rewrite Forall_forall in Hfk. by apply Hfk.
    + eapply sublist_NoDup; [exact Hnd|]. apply fmap_sublist, sublist_filter.
  - intros id chunkData rows db' Hc.
    apply createChunks_Ok in Hc as [(_ & _ & ->)|(-> & -> & Hsome & Hfresh)];
      [done|].
    split; [done|]. split; cbn.
    + apply Forall_app. split; [done|].
      eapply Forall_impl; [apply chunkRows_contentId|].
      intros r [-> Hid]. done.
    + rewrite map_app. apply NoDup_app. split; [done|]. split.
      * intros x Hx Hin. apply list_elem_of_fmap in Hin as (r & -> & Hr).
        rewrite Forall_forall in Hfresh. by apply (Hfresh r Hr).
      * rewrite chunkRows_ids. apply NoDup_fmap_2; [|apply NoDup_seq].
        by intros ? ? [=].
Qed.

Lemma library_consistent : consistent library.
Proof.
  split; [|split].
  - unfold library; cbn.
    repeat (apply map_Forall_insert_2; [done|]).
    apply map_Forall_empty.
  - apply Forall_forall. intros r Hr. cbn in Hr.
    repeat (apply elem_of_cons in Hr as [->|Hr];
            [split; [eexists; vm_compute; reflexivity|done]|]).
    by apply elem_of_nil in Hr.
  - apply (bool_decide_unpack _). by vm_compute.
Qed.

Lemma oneFailedPage_consistent : consistent oneFailedPage.
Proof.
  split; [|split].
  - unfold oneFailedPage. cbn [contents]. by apply map_Forall_singleton.
  - constructor.
  - constructor.
Qed.

Lemma writes_keep_consistent_witness :
  (forall data row db', create 20 data library = Ok (row, db') -> consistent db')
  /\ (forall id data, consistent (update 20 id data library).2)
  /\ (forall id status errorMessage db',
        updateStatus 20 id status errorMessage library = Ok db' ->
        consistent db')
  /\ (forall id, consistent (deleteChunks id library))
  /\ (forall id chunkData rows db',
        createChunks 20 id chunkData library = Ok (rows, db') -> consistent db').
Proof. apply writes_keep_consistent. apply library_consistent. Defined.

(** [createChunks] takes the rows of a content that exists and has no
    chunk. *)
Lemma createChunks_fresh (now : Z) (id : text) (chunkData : list ChunkData.t)
    (d : Db) :
  is_Some (contents d !! id) ->
  Forall (fun r => (ContentChunk.id r).1 <> id) (contentChunks d) ->
  createChunks now id chunkData d
  = Ok (chunkRows now id chunkData,
        mkDb (contents d) (contentChunks d ++ chunkRows now id chunkData)).
Proof.
  intros Hsome Hfree. unfold createChunks.
  destruct chunkData as [|x rest] eqn:Hdata.
  { cbn. rewrite app_nil_r. by destruct d. }
  rewrite <- Hdata.
  rewrite bool_decide_eq_false_2
    by (intros Hn; rewrite Hn in Hsome; by destruct Hsome).
  replace (existsb _ _) with false; [done|].
  symmetry. apply not_true_iff_false. intros Hex.
  apply existsb_exists in Hex as (r & Hr & Hin).
  apply bool_decide_eq_true in Hin. apply list_elem_of_In in Hr.
  apply list_elem_of_fmap in Hin as (r' & Hid & Hr').
  rewrite Forall_forall in Hfree. apply (Hfree r' Hr'). rewrite <- Hid.
  pose proof (chunkRows_contentId now id chunkData) as Hall.
  rewrite Forall_forall in Hall. by destruct (Hall r Hr).
Qed.

(** *** Replacing the chunks of a content *)

#[local] Instance byChunkIndex_trans : Transitive byChunkIndex.
Proof. unfold byChunkIndex. intros a b c ? ?. lia. Qed.

#[local] Instance byChunkIndex_total : Total byChunkIndex.
Proof. unfold byChunkIndex. intros a b. lia. Qed.

Lemma filter_none {A : Type} (P : A -> Prop) `{!forall x, Decision (P x)}
    (l : list A) :
  Forall (fun x => ~ P x) l -> filter P l = [].
Proof.
  induction 1 as [|x l Hx _ IH]; [done|].
  rewrite filter_cons. by destruct (decide (P x)).
Qed.

Lemma filter_all {A : Type} (P : A -> Prop) `{!forall x, Decision (P x)}
    (l : list A) :
  Forall P l -> filter P l = l.
Proof.
  induction 1 as [|x l Hx _ IH]; [done|].
  rewrite filter_cons. destruct (decide (P x)); [by f_equal|done].
Qed.

Lemma filter_filter_weaker {A : Type} (P Q : A -> Prop)
    `{!forall x, Decision (P x)} `{!forall x, Decision (Q x)} (l : list A) :
  (forall x, P x -> Q x) -> filter P (filter Q l) = filter P l.
Proof.
  intros HPQ. induction l as [|x l IH]; [done|].
  rewrite !(filter_cons _ x). destruct (decide (Q x)) as [HQ|HQ].
  - rewrite filter_cons. destruct (decide (P x)); [by f_equal|done].
  - destruct (decide (P x)) as [HP|HP]; [by apply HPQ in HP|done].
Qed.



(** *** Chunk ids *)

Lemma digits_inj (d1 d2 : Decimal.uint) : digits d1 = digits d2 -> d1 = d2.
Proof.
  revert d2. induction d1; destruct d2; simpl; try discriminate;
    try done; intros [= H]; f_equal; auto.
Qed.

Lemma digits_no_underscore (d : Decimal.uint) : underscore ∉ digits d.
Proof.
  induction d; simpl; [apply not_elem_of_nil|..];
    (apply not_elem_of_cons; split; [discriminate|done]).
Qed.

Lemma decimal_inj (n m : nat) : decimal n = decimal m -> n = m.
Proof.
  unfold decimal. intros H%digits_inj.
  by rewrite <- (Unsigned.of_to n), <- (Unsigned.of_to m), H.
Qed.

Lemma elem_of_rev {A : Type} (x : A) (l : list A) : x ∈ rev l <-> x ∈ l.
Proof. rewrite !list_elem_of_In. symmetry. apply in_rev. Qed.

(** Two texts that agree are cut alike at their first separator. *)
Lemma first_separator {A : Type} (x : A) (l1 l2 r1 r2 : list A) :
  x ∉ l1 -> x ∉ l2 -> l1 ++ x :: r1 = l2 ++ x :: r2 -> l1 = l2 /\ r1 = r2.
Proof.
  revert l2. induction l1 as [|a l1 IH]; intros [|b l2] H1 H2; simpl.
  - by intros [= ->].
  - intros [= -> _]. exfalso. apply H2. by left.
  - intros [= -> _]. exfalso. apply H1. by left.
  - intros [= -> H]. apply not_elem_of_cons in H1 as [_ H1].
    apply not_elem_of_cons in H2 as [_ H2].
    destruct (IH l2 H1 H2 H) as [-> ->]. done.
Qed.

(** X17. The text of a chunk id, ['chunk_' + contentId + '_' + index],
    tells the content and the index apart: chunks of different contents, or
    at different positions, never get the same id, also when a content id
    itself holds underscores and digits. *)
Theorem chunkId_distinct (a b : text * nat) :
  a <> b -> chunkId a <> chunkId b.
Proof.
  intros Hne Heq. apply Hne. unfold chunkId in Heq.
  apply app_inv_head in Heq.
  apply (f_equal (@rev N)) in Heq.
  rewrite !rev_app_distr in Heq. simpl in Heq.
  rewrite <- !app_assoc in Heq. simpl in Heq.
  apply first_separator in Heq as [Hd Hc].
  - apply (f_equal (@rev N)) in Hd, Hc. rewrite !rev_involutive in Hd, Hc.
    apply decimal_inj in Hd. destruct a, b; simpl in *. by subst.
  - rewrite elem_of_rev. apply digits_no_underscore.
  - rewrite elem_of_rev. apply digits_no_underscore.
Qed.

Lemma chunkId_distinct_witness :
  chunkId (of_string "a", 10%nat) <> chunkId (of_string "a_1", 0%nat).
Proof. apply chunkId_distinct. discriminate. Defined.


End QueriesFacts.

(** ** Facts about the pipelines and the retry handler *)

Module RoutesFacts.
Import Js JsFacts Repository Service Samples Queries Routes.

(** *** The end of the pipelines *)

Lemma chunkFullText_world (t : text) (w : World) : (chunkFullText t w).2 = w.
Proof.
  unfold chunkFullText. destruct (5000 <? length t); [|done].
  by destruct (chunkDocumentDefault t).
Qed.

Lemma toChunkData_length (vs : list Vector) (cs : list Chunker.TextChunk) :
  List.length (toChunkData vs cs) = List.length cs.
Proof. apply length_imap. Qed.

Lemma chunkRows_length (now : Z) (id : text) (chunkData : list ChunkData.t) :
  List.length (chunkRows now id chunkData) = List.length chunkData.
Proof. apply length_imap. Qed.

(** When the end of a pipeline returns, the chunks of the text have been
    embedded in one call and their rows have been added to the table. *)
Lemma chunkEmbedStore_Ok {B : Type} (env : Env) (id t : text)
    (k : list Chunker.TextChunk -> B) (w w' : World) (b : B) :
  chunkEmbedStore env id t k w = (Ok b, w') ->
  exists cs vs,
    (chunkFullText t w).1 = Ok cs
    /\ embedMany env (map Chunker.content cs) 5 = Ok vs
    /\ b = k cs
    /\ contents (db w') = contents (db w)
    /\ contentChunks (db w')
       = contentChunks (db w) ++ chunkRows (now env) id (toChunkData vs cs).
Proof.
  unfold chunkEmbedStore, bind.
  pose proof (chunkFullText_world t w) as Hw.
  destruct (chunkFullText t w) as [[cs|e] w1]; [|done]. simpl in Hw. subst w1.
  unfold generateEmbeddings, tryCatch, call.
  destruct (embedMany env (map Chunker.content cs) 5) as [vs|e] eqn:Hvs; [|done].
  set (w2 := mkWorld _ _ _).
  destruct (createChunksM env id (toChunkData vs cs) w2) as [[rows|e] w3] eqn:Hc;
    [|done].
  intros [= <- <-]. exists cs, vs. split; [done|]. split; [done|].
  split; [done|]. unfold createChunksM in Hc.
  destruct (toChunkData vs cs) as [|d cd] eqn:Hcd.
  { injection Hc as <- <-. cbn. by rewrite app_nil_r. }
  rewrite <- Hcd in *. unfold statement in Hc.
  destruct (dbFault env (statements w2)); [done|].
  destruct (createChunks (now env) id (toChunkData vs cs) (db w2))
    as [[rows' d']|e] eqn:Hcreate; [|done].
  injection Hc as <- <-. cbn [db].
  apply QueriesFacts.createChunks_Ok in Hcreate
    as [(Hnil & _)|(-> & -> & _)]; [by rewrite Hcd in Hnil|done].
Qed.

Lemma keepsContents_chunkEmbedStore {B : Type} (env : Env) (id t : text)
    (k : list Chunker.TextChunk -> B) :
  ServiceFacts.keepsContents (chunkEmbedStore env id t k).
Proof.
  unfold chunkEmbedStore.
  apply ServiceFacts.keepsContents_bind;
    [apply ServiceFacts.keepsContents_chunkFullText|intros cs].
  apply ServiceFacts.keepsContents_bind;
    [apply ServiceFacts.keepsContents_generateEmbeddings|intros vs].
  apply ServiceFacts.keepsContents_bind;
    [apply ServiceFacts.keepsContents_createChunksM|intros rows].
  apply ServiceFacts.keepsContents_ret.
Qed.

(** *** The chunks that are embedded *)

Lemma chunkTextDefault_embeddable (t : text) :
  Forall embeddable (chunkTextDefault t)
  /\ map Chunker.chunkIndex (chunkTextDefault t)
     = map Z.of_nat (seq 0 (List.length (chunkTextDefault t)))
  /\ (chunkTextDefault t = [] <-> trim t = []).
Proof.
  pose proof (ServiceFacts.chunkTextDefault_spec t) as Hspec.
  destruct (decide (trim t = [])) as [Hb|Hnb].
  - rewrite ChunkerFacts.chunkText_blank in Hspec by done.
    injection Hspec as <-. by repeat split.
  - destruct (ChunkerFacts.chunkText_total t Chunker.defaultMaxChunkSize
                Chunker.defaultOverlapSize ltac:(done) ltac:(done) Hnb)
      as (cs & Hcs & _ & Hcov & Hidx).
    rewrite Hcs in Hspec by (unfold fuelFor; lia). injection Hspec as <-.
    destruct (ChunkShapeFacts.chunkText_shape (fuelFor t) t
                Chunker.defaultMaxChunkSize Chunker.defaultOverlapSize cs)
      as [Hw _]; [done|done|by apply Hcs; unfold fuelFor; lia|].
    split; [|split; [done|]].
    + eapply Forall_impl; [exact Hw|].
      intros c (? & _ & ? & ? & _). unfold Chunker.defaultMaxChunkSize in *.
      split; [done|lia].
    + split; [|done]. intros ->. done.
Qed.

Lemma chunkDocumentDefault_embeddable (t : text) :
  5000 < length t ->
  match chunkDocumentDefault t with
  | Ok cs =>
      Forall embeddable cs
      /\ map Chunker.chunkIndex cs = map Z.of_nat (seq 0 (List.length cs))
      /\ (cs = [] <-> trim t = [])
  | Err e => e = Sections.typeError
  end.
Proof.
  intros Hlong. pose proof (ServiceFacts.chunkDocumentDefault_spec t) as Hspec.
  unfold Sections.chunkDocument in Hspec.
  destruct (length (trim t) =? 0) eqn:Hblank.
  { injection Hspec as <-. apply Z.eqb_eq, length_nil_iff in Hblank.
    by repeat split. }
  assert (Hnb : trim t <> []).
  { intros Hb. rewrite Hb in Hblank. done. }
  unfold Sections.defaultDocumentChunkSize in Hspec.
  destruct (length t <=? 2000) eqn:Hshort; [apply Z.leb_le in Hshort; lia|].
  destruct (Sections.detectSections t) as [secs|e] eqn:Hd.
  2:{ injection Hspec as <-. unfold Sections.detectSections in Hd.
      destruct (Sections.lineLoop _ _ _); [done|]. by injection Hd as <-. }
  pose proof (SectionShapeFacts.detectSections_chunkable t secs Hnb Hd) as Hsecs.
  destruct (SectionShapeFacts.chunkSections_spec t 2000
              Sections.defaultDocumentOverlap ltac:(done) ltac:(done) secs []
              Hsecs) as (out & Hout & Hidx & Hall & Hevery).
  rewrite (Hout (fuelFor t)) in Hspec by (unfold fuelFor; lia).
  injection Hspec as <-. split; [|split; [done|]].
  - eapply Forall_impl; [exact Hall|]. by intros c (? & ? & _).
  - split; [|done]. intros ->.
    pose proof (SectionsFacts.detectSections_not_nil t secs Hd) as Hne.
    destruct secs as [|sec secs]; [done|].
    apply Forall_cons in Hevery as [(c & Hc & _) _].
    by apply elem_of_nil in Hc.
Qed.

Lemma chunkFullText_embeddable (t : text) (w : World)
    (cs : list Chunker.TextChunk) :
  (chunkFullText t w).1 = Ok cs -> Forall embeddable cs.
Proof.
  unfold chunkFullText. destruct (5000 <? length t) eqn:Hlong.
  - apply Z.ltb_lt in Hlong.
    pose proof (chunkDocumentDefault_embeddable t Hlong) as H.
    destruct (chunkDocumentDefault t) as [cs'|]; [|done].
    intros [= <-]. by destruct H.
  - intros [= <-]. apply chunkTextDefault_embeddable.
Qed.

(** X18. What the service hands to the embedding model: [chunkFullText]
    changes nothing outside; it throws only the [TypeError] of
    [detectSections], and only on a text of more than 5000 characters;
    the chunks it returns are numbered 0, 1, 2, ..., none of them is empty
    and none has more than 2000 characters; and it returns no chunk exactly
    when the text is blank. *)
Theorem chunkFullText_chunks (t : text) (w : World) :
  (chunkFullText t w).2 = w
  /\ match (chunkFullText t w).1 with
     | Ok cs =>
         Forall embeddable cs
         /\ map Chunker.chunkIndex cs = map Z.of_nat (seq 0 (List.length cs))
         /\ (cs = [] <-> trim t = [])
     | Err e => e = Sections.typeError /\ 5000 < length t
     end.
Proof.
  split; [apply chunkFullText_world|]. unfold chunkFullText.
  destruct (5000 <? length t) eqn:Hlong.
  - apply Z.ltb_lt in Hlong.
    pose proof (chunkDocumentDefault_embeddable t Hlong) as H.
    destruct (chunkDocumentDefault t); [done|]. by split.
  - apply chunkTextDefault_embeddable.
Qed.


(** *** A retry, step by step *)

Lemma statement_Ok {A : Type} (env : Env) (ev : Event)
    (run : Db -> Result (A * Db)) (w w' : World) (a : A) :
  statement env ev run w = (Ok a, w') -> run (db w) = Ok (a, db w').
Proof.
  unfold statement. destruct (dbFault env (statements w)); [done|].
  destruct (run (db w)) as [[a' d']|e]; [|done]. by intros [= <- <-].
Qed.

Lemma statement_Ok_world {A : Type} (env : Env) (ev : Event)
    (run : Db -> Result (A * Db)) (w w' : World) (a : A) :
  statement env ev run w = (Ok a, w') ->
  statements w' = S (statements w) /\ log w' = log w ++ [ev].
Proof.
  unfold statement. destruct (dbFault env (statements w)); [done|].
  destruct (run (db w)) as [[a' d']|e]; [|done]. by intros [= <- <-].
Qed.

Lemma statement_Err_db {A : Type} (env : Env) (ev : Event)
    (run : Db -> Result (A * Db)) (w w' : World) (e : text) :
  statement env ev run w = (Err e, w') -> db w' = db w.
Proof.
  unfold statement. destruct (dbFault env (statements w)); [by intros [= _ <-]|].
  destruct (run (db w)) as [[a' d']|e']; [done|]. by intros [= _ <-].
Qed.

Lemma chunkFullText_fst (t : text) (w w0 : World) :
  (chunkFullText t w).1 = (chunkFullText t w0).1.
Proof.
  unfold chunkFullText. destruct (5000 <? length t); [|done].
  by destruct (chunkDocumentDefault t).
Qed.

Lemma extractContent_run (env : Env) (url : text) (w : World) :
  extractContent env (isYouTubeUrl url) url w
  = (extraction env url,
     mkWorld (db w) (statements w) (log w ++ [extractionEvent url])).
Proof.
  unfold extractContent, extraction, extractionEvent, call.
  by destruct (isYouTubeUrl url).
Qed.

(** The end of a pipeline, with the calls it makes. *)
Lemma chunkEmbedStore_calls {B : Type} (env : Env) (id t : text)
    (k : list Chunker.TextChunk -> B) (w w' : World) (b : B) :
  chunkEmbedStore env id t k w = (Ok b, w') ->
  exists cs,
    (chunkFullText t w).1 = Ok cs
    /\ log w' = log w ++ EvEmbedMany (map Chunker.content cs) :: storeCalls id cs.
Proof.
  unfold chunkEmbedStore, bind.
  pose proof (chunkFullText_world t w) as Hw.
  destruct (chunkFullText t w) as [[cs|e] w1]; [|done]. simpl in Hw. subst w1.
  unfold generateEmbeddings, tryCatch, call.
  destruct (embedMany env (map Chunker.content cs) 5) as [vs|e] eqn:Hvs; [|done].
  set (w2 := mkWorld _ _ _).
  destruct (createChunksM env id (toChunkData vs cs) w2) as [[rows|e] w3] eqn:Hc;
    [|done].
  intros [= <- <-]. exists cs. split; [done|]. unfold createChunksM in Hc.
  destruct cs as [|c cs].
  { cbn in Hc. by injection Hc as <- <-. }
  cbn [toChunkData imap] in Hc.
  apply statement_Ok_world in Hc as [_ ->]. cbn. by rewrite <- app_assoc.
Qed.

(** The end of a pipeline goes through when the text can be chunked, the
    provider answers, and the database takes the rows: the content exists
    and has no chunk. *)
Lemma chunkEmbedStore_runs {B : Type} (env : Env) (id t : text)
    (k : list Chunker.TextChunk -> B) (w : World)
    (cs : list Chunker.TextChunk) (vs : list Vector) :
  (chunkFullText t w).1 = Ok cs ->
  embedMany env (map Chunker.content cs) 5 = Ok vs ->
  dbFault env (statements w) = None ->
  is_Some (contents (db w) !! id) ->
  Forall (fun r => (ContentChunk.id r).1 <> id) (contentChunks (db w)) ->
  exists w', chunkEmbedStore env id t k w = (Ok (k cs), w').
Proof.
  intros Hcs Hvs Hf Hsome Hfree. unfold chunkEmbedStore, bind.
  pose proof (chunkFullText_world t w) as Hw.
  destruct (chunkFullText t w) as [[cs'|e] w1]; [|done].
  simpl in Hw, Hcs. subst w1. injection Hcs as ->.
  unfold generateEmbeddings, tryCatch, call. rewrite Hvs.
  unfold createChunksM. destruct (toChunkData vs cs) as [|x rest] eqn:Hdata.
  { by eexists. }
  rewrite <- Hdata.
  erewrite ServiceFacts.statement_accepted;
    [by eexists|done|by apply QueriesFacts.createChunks_fresh].
Qed.

Lemma retryPipeline_unfold (env : Env) (id url : text) :
  retryPipeline env id url
  = bind (extractContent env (isYouTubeUrl url) url)
      (fun extracted =>
         bind (updateM env id (retryPatch extracted))
           (fun _ =>
              bind (deleteChunksM env id)
                (fun _ =>
                   chunkEmbedStore env id (retryText extracted)
                     (fun textChunks => Z.of_nat (List.length textChunks))))).
Proof. reflexivity. Qed.

(** What the pipeline of a retry leaves: when it returns, the content was
    extracted, the row is patched and the chunks of the item are those of
    the text; when it throws, the row is as before or patched. *)
Lemma retryPipeline_outcome (env : Env) (id url : text) (w w' : World)
    (r : Result Z) :
  retryPipeline env id url w = (r, w') ->
  match r with
  | Ok n =>
      exists extracted cs vs,
        extraction env url = Ok extracted
        /\ (forall w0, (chunkFullText (retryText extracted) w0).1 = Ok cs)
        /\ embedMany env (map Chunker.content cs) 5 = Ok vs
        /\ n = Z.of_nat (List.length cs)
        /\ contents (db w')
           = alter (applyPatch (now env) (retryPatch extracted)) id
               (contents (db w))
        /\ contentChunks (db w')
           = filter (fun r => ContentChunk.contentId r <> id) (contentChunks (db w))
             ++ chunkRows (now env) id (toChunkData vs cs)
        /\ log w'
           = log w ++ [extractionEvent url; EvUpdate id; EvDeleteChunks id;
                       EvEmbedMany (map Chunker.content cs)]
             ++ storeCalls id cs
  | Err e =>
      contents (db w') = contents (db w)
      \/ exists extracted,
           contents (db w')
           = alter (applyPatch (now env) (retryPatch extracted)) id
               (contents (db w))
  end.
Proof.
  rewrite retryPipeline_unfold. unfold bind at 1. rewrite extractContent_run.
  destruct (extraction env url) as [x|e] eqn:Hx.
  2:{ intros [= <- <-]. by left. }
  set (wa := mkWorld _ _ _).
  unfold bind at 1.
  destruct (updateM env id (retryPatch x) wa) as [[u|e] wb] eqn:Hu.
  2:{ intros [= <- <-]. left. apply statement_Err_db in Hu. by rewrite Hu. }
  pose proof (statement_Ok_world _ _ _ _ _ _ Hu) as [_ Hlogb].
  apply statement_Ok in Hu. injection Hu as _ Hwb.
  unfold bind at 1.
  destruct (deleteChunksM env id wb) as [[[]|e] wc] eqn:Hdel.
  2:{ intros [= <- <-]. right. exists x. apply statement_Err_db in Hdel.
      by rewrite Hdel, <- Hwb. }
  pose proof (statement_Ok_world _ _ _ _ _ _ Hdel) as [_ Hlogc].
  apply statement_Ok in Hdel. injection Hdel as Hwc.
  set (k := fun textChunks : list Chunker.TextChunk => _).
  pose proof (keepsContents_chunkEmbedStore env id (retryText x) k wc) as Hkeep.
  destruct (chunkEmbedStore env id (retryText x) k wc) as [[n|e] wd] eqn:Hs;
    intros [= <- <-].
  - pose proof (chunkEmbedStore_calls _ _ _ _ _ _ _ Hs) as (cs' & Hcs' & Hlogd).
    apply chunkEmbedStore_Ok in Hs as (cs & vs & Hcs & Hvs & -> & Hc & Hr).
    rewrite Hcs in Hcs'. injection Hcs' as <-.
    exists x, cs, vs. rewrite Hc, Hr, <- Hwc, <- Hwb, Hlogd, Hlogc, Hlogb.
    repeat split; try done.
    + intros w0. rewrite <- Hcs. apply chunkFullText_fst.
    + unfold wa. cbn [log]. by rewrite <- !app_assoc.
  - right. exists x. cbn in Hkeep. by rewrite Hkeep, <- Hwc, <- Hwb.
Qed.

(** The pipeline of a retry goes through when the content can be
    extracted, its text chunked and embedded, and the database takes every
    statement. *)
Lemma retryPipeline_runs (env : Env) (id url : text) (w : World)
    (extracted : ExtractedContent) (cs : list Chunker.TextChunk)
    (vs : list Vector) :
  dbUp env ->
  is_Some (contents (db w) !! id) ->
  Forall (fun r => (ContentChunk.id r).1 = ContentChunk.contentId r)
    (contentChunks (db w)) ->
  extraction env url = Ok extracted ->
  (chunkFullText (retryText extracted) w).1 = Ok cs ->
  embedMany env (map Chunker.content cs) 5 = Ok vs ->
  exists w',
    retryPipeline env id url w = (Ok (Z.of_nat (List.length cs)), w').
Proof.
  intros Hup Hsome Hids Hx Hcs Hvs.
  rewrite retryPipeline_unfold. unfold bind at 1.
  rewrite extractContent_run, Hx. set (wa := mkWorld _ _ _).
  unfold bind at 1, updateM.
  erewrite ServiceFacts.statement_accepted; [|apply Hup|done].
  set (wb := mkWorld _ _ _).
  unfold bind at 1, deleteChunksM.
  erewrite ServiceFacts.statement_accepted; [|apply Hup|done].
  set (wc := mkWorld _ _ _).
  apply (chunkEmbedStore_runs env id (retryText extracted)
           (fun textChunks => Z.of_nat (List.length textChunks)) wc cs vs).
  - rewrite <- Hcs. apply chunkFullText_fst.
  - done.
  - apply Hup.
  - unfold wc, wb, wa, update, deleteChunks; cbn.
    rewrite lookup_alter_eq. destruct Hsome as [c ->]. by eexists.
  - unfold wc, wb, wa, update, deleteChunks; cbn.
    apply Forall_forall. intros r [Hne Hr]%list_elem_of_filter.
    rewrite Forall_forall in Hids. by rewrite (Hids r Hr).
Qed.

Lemma retryFailed_throws (env : Env) (id e : text) (w : World) :
  exists e', (retryFailed env id e w).1 = Err e'.
Proof.
  unfold retryFailed, bind.
  destruct (updateStatusM env id Failed _ w) as [[[]|e'] w1]; by eexists.
Qed.

Lemma retryFound_permitted (env : Env) (id : text) (c : Content.t) (w : World) :
  retryPermitted (Some c) = true ->
  exists url,
    sourceUrl c = Some url
    /\ retryFound env id (Some c) w
       = bind (updateStatusM env id Processing None)
           (fun _ => tryCatch (retryPipeline env id url) (retryFailed env id)) w.
Proof.
  intros (Hs & Ht & url & Hu)%ServiceFacts.retryPermitted_Some.
  exists url. split; [done|]. unfold retryFound.
  by rewrite (bool_decide_eq_true_2 _ Hs), (bool_decide_eq_false_2 _ Ht), Hu.
Qed.

Lemma retryFound_Ok (env : Env) (id : text) (found : option Content.t)
    (w w' : World) (n : Z) :
  retryFound env id found w = (Ok n, w') ->
  exists c, found = Some c /\ retryPermitted (Some c) = true.
Proof.
  unfold retryFound. destruct found as [c|]; [|done]. intros H.
  exists c. split; [done|]. apply ServiceFacts.retryPermitted_Some.
  destruct (bool_decide (Content.status c = Failed)) eqn:Hs; [|done].
  apply bool_decide_eq_true in Hs.
  destruct (bool_decide (Content.type c = Image)) eqn:Ht; [done|].
  apply bool_decide_eq_false in Ht.
  destruct (sourceUrl c) as [url|]; [|done]. eauto.
Qed.

(** A retry that is turned down throws, calls nothing but the lookup and
    leaves the database as it was. *)
Lemma retryFound_rejected (env : Env) (id : text) (found : option Content.t)
    (w : World) :
  retryPermitted found = false ->
  retryFound env id found w = (Err (rejection found), w).
Proof.
  intros Hp. unfold retryFound, rejection.
  destruct found as [c|]; [|done].
  destruct (decide (Content.status c = Failed)) as [Hs|Hs].
  - rewrite !(bool_decide_eq_true_2 _ Hs). cbn [negb].
    destruct (bool_decide (Content.type c = Image)) eqn:Ht; [done|].
    apply bool_decide_eq_false in Ht.
    destruct (sourceUrl c) as [url|] eqn:Hu; [|done].
    assert (Htrue : retryPermitted (Some c) = true)
      by (apply ServiceFacts.retryPermitted_Some; eauto).
    by rewrite Hp in Htrue.
  - by rewrite !(bool_decide_eq_false_2 _ Hs).
Qed.

(** A retry that is permitted, once the status write is taken, is the
    pipeline under its [catch] block. *)
Lemma retryFound_started (env : Env) (id url : text) (c : Content.t)
    (w : World) :
  retryPermitted (Some c) = true -> sourceUrl c = Some url ->
  contents (db w) !! id = Some c ->
  dbFault env (statements w) = None ->
  Content.processingAttempts c < int4Max ->
  exists c1,
    setStatus (now env) Processing None c = Ok c1
    /\ retryFound env id (Some c) w
       = tryCatch (retryPipeline env id url) (retryFailed env id)
           (mkWorld (mkDb (<[id := c1]> (contents (db w))) (contentChunks (db w)))
              (S (statements w)) (log w ++ [EvUpdateStatus id Processing])).
Proof.
  intros Hp Hu Hc Hf Hroom.
  destruct (retryFound_permitted env id c w Hp) as (url' & Hu' & ->).
  assert (url' = url) as -> by congruence.
  destruct (ServiceFacts.updateStatusM_accepted env id Processing None w c
              Hf Hc Hroom) as (c1 & Hset & Hupd).
  exists c1. split; [done|]. unfold bind. by rewrite Hupd.
Qed.

(** What a retry that returns has done. *)
Lemma retry_done (env : Env) (id : text) (w w' : World) (n : Z) :
  retryFailedContent env id w = (Ok n, w') ->
  exists c url,
    contents (db w) !! id = Some c
    /\ retryPermitted (Some c) = true
    /\ sourceUrl c = Some url
    /\ retried env id url c w w' n.
Proof.
  unfold retryFailedContent, bind.
  destruct (findByIdM env id w) as [[found|e] w1] eqn:Hfind; [|done].
  pose proof (statement_Ok_world _ _ _ _ _ _ Hfind) as [_ Hlog1].
  apply statement_Ok in Hfind. injection Hfind as Hfound Hw1.
  intros Hrun. pose proof Hrun as Hperm.
  apply retryFound_Ok in Hperm as (c & -> & Hp).
  destruct (retryFound_permitted env id c w1 Hp) as (url & Hu & Heq).
  rewrite Heq in Hrun. clear Heq. unfold bind in Hrun.
  destruct (updateStatusM env id Processing None w1) as [[[]|e] w2] eqn:Hst;
    [|done].
  pose proof (statement_Ok_world _ _ _ _ _ _ Hst) as [_ Hlog2].
  apply statement_Ok in Hst.
  destruct (updateStatus (now env) id Processing None (db w1)) as [d2|e]
    eqn:Hupd; [|done].
  injection Hst as Hw2.
  apply RepositoryFacts.updateStatus_inv in Hupd as (Hchunks2 & _ & Hrow).
  rewrite <- Hw1 in Hrow, Hchunks2. unfold findById in Hfound.
  rewrite Hfound in Hrow. destruct Hrow as (c1 & Hset & Hcontents2).
  unfold tryCatch in Hrun.
  destruct (retryPipeline env id url w2) as [[m|e] w3] eqn:Hpipe.
  2:{ destruct (retryFailed_throws env id e w3) as [e' He'].
      by rewrite Hrun in He'. }
  pose proof (retryPipeline_outcome env id url w2 w3 _ Hpipe) as Hout.
  injection Hrun as <- <-.
  destruct Hout as (x & cs & vs & Hx & Hcs & Hvs & -> & Hrow3 & Hchunks3 & Hlog3).
  exists c, url. split; [done|]. split; [done|]. split; [done|].
  exists c1, x, cs, vs. repeat split; try done.
  - apply ServiceFacts.newEvents_app. rewrite Hlog3, Hlog2, Hlog1.
    unfold retryCalls. by rewrite <- !app_assoc.
  - rewrite Hrow3, <- Hw2, Hcontents2. apply alter_insert_eq.
  - by rewrite Hchunks3, <- Hw2, Hchunks2.
Qed.

(** A retry that is permitted goes through when the counter has room, the
    content can be extracted, its text chunked and embedded, and the
    database, consistent, takes every statement. *)
Lemma retry_runs (env : Env) (id url : text) (c : Content.t) (w : World)
    (extracted : ExtractedContent) (cs : list Chunker.TextChunk)
    (vs : list Vector) :
  dbUp env -> consistent (db w) ->
  contents (db w) !! id = Some c ->
  retryPermitted (Some c) = true -> sourceUrl c = Some url ->
  Content.processingAttempts c < int4Max ->
  extraction env url = Ok extracted ->
  (chunkFullText (retryText extracted) w).1 = Ok cs ->
  embedMany env (map Chunker.content cs) 5 = Ok vs ->
  exists w',
    retryFailedContent env id w = (Ok (Z.of_nat (List.length cs)), w').
Proof.
  intros Hup (_ & Hfk & _) Hc Hp Hu Hroom Hx Hcs Hvs.
  rewrite ServiceFacts.retryFailedContent_found by apply Hup. rewrite Hc.
  set (w1 := mkWorld _ _ _).
  destruct (retryFound_started env id url c w1 Hp Hu Hc ltac:(apply Hup) Hroom)
    as (c1 & _ & ->).
  set (w2 := mkWorld _ _ _).
  destruct (retryPipeline_runs env id url w2 extracted cs vs Hup) as [w3 Hrun];
    try done.
  - unfold w2; cbn. rewrite lookup_insert_eq. by eexists.
  - unfold w2, w1; cbn. eapply Forall_impl; [exact Hfk|]. by intros r [_ ?].
  - rewrite <- Hcs. apply chunkFullText_fst.
  - exists w3. unfold tryCatch. by rewrite Hrun.
Qed.

(** The calls with which a retry that is permitted begins. *)
Lemma retry_begins (env : Env) (id url : text) (c : Content.t) (w : World) :
  dbFault env (statements w) = None ->
  dbFault env (S (statements w)) = None ->
  contents (db w) !! id = Some c ->
  retryPermitted (Some c) = true -> sourceUrl c = Some url ->
  Content.processingAttempts c < int4Max ->
  exists l,
    newEvents w (retryFailedContent env id w).2
    = [EvFindById id; EvUpdateStatus id Processing; extractionEvent url] ++ l.
Proof.
  intros Hf0 Hf1 Hc Hp Hu Hroom.
  rewrite ServiceFacts.retryFailedContent_found by done. rewrite Hc.
  set (w1 := mkWorld _ _ _).
  destruct (retryFound_started env id url c w1 Hp Hu Hc Hf1 Hroom)
    as (c1 & _ & ->).
  set (w2 := mkWorld _ _ _).
  destruct (ServiceFacts.retryPipeline_fetches env id url)
    as (ev & -> & _ & Hpipe).
  assert (Hb : ServiceFacts.begins (extractionEvent url)
                 (tryCatch (retryPipeline env id url) (retryFailed env id))).
  { apply ServiceFacts.begins_tryCatch;
      [done|apply ServiceFacts.extends_retryFailed]. }
  destruct (Hb w2) as [l Hl]. exists l.
  apply ServiceFacts.newEvents_app. rewrite Hl. unfold w2, w1; cbn.
  by rewrite <- !app_assoc.
Qed.

(** C9. Provided the database takes the lookup, [retryFailedContent]
    re-processes an item exactly when the item exists, its status is
    failed, it is not an image and it has a source URL. In every other case
    it throws (['Content not found'] for an unknown id, ['Content is not in
    failed state'] for an item that is not failed, ['Image content requires
    re-upload to retry'] for an image or an item without URL), calls
    nothing but the lookup and leaves the database as it was. Whenever it
    returns, the item was one that may be retried and it was re-processed:
    the content was extracted again from the URL of the item, the row was
    set from what was extracted, the chunks of the item were deleted, the
    text was chunked and embedded again and exactly its chunks were stored,
    with these calls in this order and no other. For an item that may be
    retried and whose attempt counter has room: once the status write is
    taken the content is extracted again from its URL; and the retry
    returns, with the number of chunks, whenever the content can be
    extracted, its text chunked and embedded, and the database, consistent,
    takes every statement. *)
Theorem retryFailedContent_guard (env : Env) (id : text) (w : World) :
  dbFault env (statements w) = None ->
  (retryPermitted (contents (db w) !! id) = false ->
   (retryFailedContent env id w).1 = Err (rejection (contents (db w) !! id))
   /\ db (retryFailedContent env id w).2 = db w
   /\ newEvents w (retryFailedContent env id w).2 = [EvFindById id])
  /\ (forall n w',
        retryFailedContent env id w = (Ok n, w') ->
        exists c url,
          contents (db w) !! id = Some c
          /\ retryPermitted (Some c) = true
          /\ sourceUrl c = Some url
          /\ retried env id url c w w' n)
  /\ (forall c url,
        contents (db w) !! id = Some c ->
        retryPermitted (Some c) = true -> sourceUrl c = Some url ->
        Content.processingAttempts c < int4Max ->
        (dbFault env (S (statements w)) = None ->
         exists l,
           newEvents w (retryFailedContent env id w).2
           = [EvFindById id; EvUpdateStatus id Processing; extractionEvent url]
             ++ l)
        /\ (forall extracted cs vs,
              dbUp env -> consistent (db w) ->
              extraction env url = Ok extracted ->
              (chunkFullText (retryText extracted) w).1 = Ok cs ->
              embedMany env (map Chunker.content cs) 5 = Ok vs ->
              exists w',
                retryFailedContent env id w
                = (Ok (Z.of_nat (List.length cs)), w'))).
Proof.
  intros Hf. split; [|split].
  - intros Hp. rewrite ServiceFacts.retryFailedContent_found by done.
    rewrite retryFound_rejected by done. cbn.
    split; [done|]. split; [done|]. by apply ServiceFacts.newEvents_app.
  - intros n w'. apply retry_done.
  - intros c url Hc Hp Hu Hroom. split.
    + intros Hf1. by apply (retry_begins env id url c).
    + intros extracted cs vs Hup Hcons Hx Hcs Hvs.
      by apply (retry_runs env id url c w extracted cs vs).
Qed.

Lemma retryFailedContent_guard_witness :
  exists w',
    retryFailedContent fairWeather (of_string "url_1") worldWithFailedPage
    = (Ok 1, w').
Proof.
  destruct (retryFailedContent_guard fairWeather (of_string "url_1")
              worldWithFailedPage eq_refl) as (_ & _ & Hrun).
  destruct (Hrun failedPage (of_string "https://example.com/a")
              eq_refl eq_refl eq_refl ltac:(by vm_compute)) as [_ Hgo].
  edestruct (Hgo page) as [w' Hw'].
  - by intros n.
  - apply QueriesFacts.oneFailedPage_consistent.
  - reflexivity.
  - vm_compute. reflexivity.
  - vm_compute. reflexivity.
  - exists w'. exact Hw'.
Defined.

(** The errors of a retry that is permitted, on a database that takes
    every statement. *)
Lemma retryFound_errors (env : Env) (id : text) (c : Content.t)
    (w w' : World) (e : text) :
  dbUp env -> retryPermitted (Some c) = true ->
  retryFound env id (Some c) w = (Err e, w') ->
  e = integerOutOfRange
  \/ exists cause,
       e = of_string "Failed to retry content: " ++ getErrorMessage cause.
Proof.
  intros Hup Hp.
  destruct (retryFound_permitted env id c w Hp) as (url & _ & ->).
  assert (Hstatus : forall status message w0 w1 e0,
            updateStatusM env id status message w0 = (Err e0, w1) ->
            e0 = integerOutOfRange).
  { intros status message w0 w1 e0. unfold updateStatusM, statement.
    rewrite Hup. unfold updateStatus.
    destruct (contents (db w0) !! id) as [c0|]; [|done].
    unfold setStatus. destruct (int4Max <? _); [|done]. by intros [= <- _]. }
  unfold bind.
  destruct (updateStatusM env id Processing None w) as [[[]|e1] w1] eqn:Hst.
  2:{ intros [= <- <-]. left. by eapply Hstatus. }
  unfold tryCatch.
  destruct (retryPipeline env id url w1) as [[m|e0] w3]; [done|].
  unfold retryFailed, bind.
  destruct (updateStatusM env id Failed _ w3) as [[[]|e2] w4] eqn:Hst2.
  - intros [= <- <-]. right. by exists e0.
  - intros [= <- <-]. left. by eapply Hstatus.
Qed.

(** X19. A retry of an item that may be retried and whose attempt counter
    can take two more attempts, on a database that takes every statement,
    leaves the row of the item (its id unchanged) in one of two states.
    When the retry returns, the status is ['completed'], the error message
    is cleared and the attempt counter is one more than before. When it
    throws, it throws ['Failed to retry content: '] followed by the cause
    (cut at 500 characters), the status is ['failed'], the stored message
    is the cause and the attempt counter is two more than before: one for
    the move to ['processing'], one for the move back to ['failed']. In
    both states [completedAt] is null. *)
Theorem retry_outcome (env : Env) (id : text) (w : World) (c : Content.t) :
  dbUp env ->
  contents (db w) !! id = Some c ->
  retryPermitted (Some c) = true ->
  Content.processingAttempts c + 1 < int4Max ->
  exists c',
    contents (db (retryFailedContent env id w).2) !! id = Some c'
    /\ Content.id c' = Content.id c
    /\ Content.completedAt c' = None
    /\ match (retryFailedContent env id w).1 with
       | Ok n =>
           Content.status c' = Completed
           /\ Content.errorMessage c' = None
           /\ Content.processingAttempts c' = Content.processingAttempts c + 1
       | Err e =>
           exists cause,
             e = of_string "Failed to retry content: " ++ getErrorMessage cause
             /\ Content.status c' = Failed
             /\ Content.errorMessage c' = orNull (Some (getErrorMessage cause))
             /\ Content.processingAttempts c' = Content.processingAttempts c + 2
       end.
Proof.
  intros Hup Hc Hp Hroom.
  rewrite ServiceFacts.retryFailedContent_found by apply Hup.
  rewrite Hc. set (w1 := mkWorld _ _ _).
  destruct (proj1 (ServiceFacts.retryPermitted_Some c) Hp)
    as (_ & _ & url & Hu).
  destruct (retryFound_started env id url c w1 Hp Hu Hc ltac:(apply Hup)
              ltac:(lia)) as (c2 & Hset & ->).
  apply RepositoryFacts.setStatus_inv in Hset
    as (_ & Hid2 & _ & Hatt2 & _ & Hdone2).
  set (w2 := mkWorld _ _ _).
  assert (Hc2 : contents (db w2) !! id = Some c2).
  { unfold w2; cbn. by rewrite lookup_insert_eq. }
  unfold tryCatch.
  destruct (retryPipeline env id url w2) as [[n|e] w3] eqn:Hpipe;
    pose proof (retryPipeline_outcome env id url w2 w3 _ Hpipe) as Hout.
  - destruct Hout as (x & cs & vs & _ & _ & _ & _ & Hrow & _). cbn [fst snd].
    exists (applyPatch (now env) (retryPatch x) c2).
    rewrite Hrow, lookup_alter_eq, Hc2. cbn. by repeat split.
  - assert (Hc3 : exists c3, contents (db w3) !! id = Some c3
                             /\ Content.id c3 = Content.id c
                             /\ Content.processingAttempts c3
                                = Content.processingAttempts c + 1).
    { destruct Hout as [Hrow|[x Hrow]]; rewrite Hrow.
      - exists c2. by rewrite Hc2.
      - exists (applyPatch (now env) (retryPatch x) c2).
        by rewrite lookup_alter_eq, Hc2. }
    destruct Hc3 as (c3 & Hc3 & Hid & Hatt).
    unfold retryFailed, bind.
    destruct (ServiceFacts.updateStatusM_accepted env id Failed
                (Some (getErrorMessage e)) w3 c3 ltac:(apply Hup) Hc3
                ltac:(lia)) as (c4 & Hset4 & ->).
    apply RepositoryFacts.setStatus_inv in Hset4
      as (_ & Hid4 & Hs4 & Hatt4 & He4 & Hdone4).
    unfold throw. cbn [fst snd db contents]. rewrite lookup_insert_eq.
    exists c4. split; [done|]. split; [congruence|]. split; [done|].
    exists e. repeat split; try done. lia.
Qed.

Lemma retry_outcome_witness :
  exists c',
    contents (db (retryFailedContent providerDown (of_string "url_1")
                    worldWithFailedPage).2) !! of_string "url_1" = Some c'
    /\ Content.id c' = Content.id failedPage
    /\ Content.completedAt c' = None
    /\ match (retryFailedContent providerDown (of_string "url_1")
                worldWithFailedPage).1 with
       | Ok n =>
           Content.status c' = Completed
           /\ Content.errorMessage c' = None
           /\ Content.processingAttempts c'
              = Content.processingAttempts failedPage + 1
       | Err e =>
           exists cause,
             e = of_string "Failed to retry content: " ++ getErrorMessage cause
             /\ Content.status c' = Failed
             /\ Content.errorMessage c' = orNull (Some (getErrorMessage cause))
             /\ Content.processingAttempts c'
                = Content.processingAttempts failedPage + 2
       end.
Proof.
  apply retry_outcome;
    [by intros n|by vm_compute|by vm_compute|by vm_compute].
Defined.

(** The rows of one content among the rows of a table from which they were
    deleted and to which new ones were added. *)
Lemma replaced_rows (id : text) (old rows : list ContentChunk.t) :
  Forall (fun r => ContentChunk.contentId r = id) rows ->
  filter (fun r => ContentChunk.contentId r = id)
    (filter (fun r => ContentChunk.contentId r <> id) old ++ rows) = rows
  /\ forall id', id' <> id ->
       filter (fun r => ContentChunk.contentId r = id')
         (filter (fun r => ContentChunk.contentId r <> id) old ++ rows)
       = filter (fun r => ContentChunk.contentId r = id') old.
Proof.
  intros Hrows. split.
  - rewrite filter_app, (QueriesFacts.filter_none _ (filter _ _)).
    + by rewrite (QueriesFacts.filter_all _ rows).
    + apply Forall_forall. by intros r [Hne _]%list_elem_of_filter.
  - intros id' Hne. rewrite filter_app, (QueriesFacts.filter_none _ rows).
    + rewrite app_nil_r.
      apply QueriesFacts.filter_filter_weaker. intros r Hr. by rewrite Hr.
    + eapply Forall_impl; [exact Hrows|]. intros r Hr Hr'.
      by rewrite Hr in Hr'.
Qed.

(** X20. When a retry returns, the item has exactly the chunks of the text
    that was extracted again from its URL (title, description and content,
    one per line), as many as the retry reports: the older chunks of the
    item are gone, each new row holds the content of one chunk with the
    embedding at the same position of the provider's single answer, no
    chunk is empty, and the chunks of the other items are as before. *)
Theorem retry_replaces_chunks (env : Env) (id : text) (w w' : World) (n : Z) :
  retryFailedContent env id w = (Ok n, w') ->
  exists c url extracted cs vs,
    contents (db w) !! id = Some c
    /\ sourceUrl c = Some url
    /\ extraction env url = Ok extracted
    /\ (chunkFullText (retryText extracted) w).1 = Ok cs
    /\ embedMany env (map Chunker.content cs) 5 = Ok vs
    /\ findChunksByContentId id (db w')
       ≡ₚ chunkRows (now env) id (toChunkData vs cs)
    /\ n = Z.of_nat (List.length cs)
    /\ Z.of_nat (List.length (findChunksByContentId id (db w'))) = n
    /\ Forall embeddable cs
    /\ (forall id', id' <> id ->
          findChunksByContentId id' (db w') = findChunksByContentId id' (db w)).
Proof.
  intros (c & url & Hc & _ & Hu & c1 & x & cs & vs & _ & Hx & Hcs & Hvs & ->
          & _ & _ & Hchunks)%retry_done.
  set (rows := chunkRows (now env) id (toChunkData vs cs)) in *.
  assert (Hrows : Forall (fun r => ContentChunk.contentId r = id) rows).
  { eapply Forall_impl; [apply QueriesFacts.chunkRows_contentId|].
    by intros r [? _]. }
  destruct (replaced_rows id (contentChunks (db w)) rows Hrows)
    as [Hmine Hothers].
  assert (Hperm : findChunksByContentId id (db w') ≡ₚ rows).
  { unfold findChunksByContentId. rewrite Hchunks, Hmine.
    apply merge_sort_Permutation. }
  exists c, url, x, cs, vs. repeat split; try done.
  - rewrite Hperm. unfold rows.
    by rewrite chunkRows_length, toChunkData_length.
  - by apply (chunkFullText_embeddable (retryText x) w).
  - intros id' Hne. unfold findChunksByContentId.
    by rewrite Hchunks, Hothers.
Qed.

Lemma retry_replaces_chunks_witness :
  exists c url extracted cs vs,
    contents (db worldWithFailedPage) !! of_string "url_1" = Some c
    /\ sourceUrl c = Some url
    /\ extraction fairWeather url = Ok extracted
    /\ (chunkFullText (retryText extracted) worldWithFailedPage).1 = Ok cs
    /\ embedMany fairWeather (map Chunker.content cs) 5 = Ok vs
    /\ findChunksByContentId (of_string "url_1")
         (db (retryFailedContent fairWeather (of_string "url_1")
                worldWithFailedPage).2)
       ≡ₚ chunkRows (now fairWeather) (of_string "url_1") (toChunkData vs cs)
    /\ 1 = Z.of_nat (List.length cs)
    /\ Z.of_nat
         (List.length
            (findChunksByContentId (of_string "url_1")
               (db (retryFailedContent fairWeather (of_string "url_1")
                      worldWithFailedPage).2))) = 1
    /\ Forall embeddable cs
    /\ (forall id', id' <> of_string "url_1" ->
          findChunksByContentId id'
            (db (retryFailedContent fairWeather (of_string "url_1")
                   worldWithFailedPage).2)
          = findChunksByContentId id' (db worldWithFailedPage)).
Proof.
  apply (retry_replaces_chunks fairWeather (of_string "url_1")
           worldWithFailedPage).
  vm_compute. reflexivity.
Defined.

(** *** A new page *)

(** X21. When [processUrl] returns on a consistent database, the id it
    reports was not in use before, and the item has exactly the chunks of
    the text of the page that was extracted from the URL given (the note of
    the user, when there is one, then title, description and content, one
    per line), as many as [chunksCreated] says: each row holds the content
    of one chunk with the embedding at the same position of the provider's
    single answer, no chunk is empty, and the chunks of the other items
    are as before. *)
Theorem processUrl_stores_chunks (env : Env) (input : ProcessUrlInput)
    (w w' : World) (out : ProcessUrlOutput) :
  consistent (db w) ->
  processUrl env input w = (Ok out, w') ->
  exists extracted cs vs,
    extraction env (inputUrl input) = Ok extracted
    /\ (chunkFullText (pageText input extracted) w).1 = Ok cs
    /\ embedMany env (map Chunker.content cs) 5 = Ok vs
    /\ findById (newUrlId env) (db w) = None
    /\ urlContentId out = newUrlId env
    /\ findChunksByContentId (newUrlId env) (db w')
       ≡ₚ chunkRows (now env) (newUrlId env) (toChunkData vs cs)
    /\ chunksCreated out = Z.of_nat (List.length cs)
    /\ Forall embeddable cs
    /\ (forall id', id' <> newUrlId env ->
          findChunksByContentId id' (db w') = findChunksByContentId id' (db w)).
Proof.
  intros (_ & Hfk & _). unfold processUrl, tryCatch.
  destruct (processUrlSteps env input w) as [[out1|e] w1] eqn:Hsteps.
  2:{ unfold bind. by destruct (recordFailure env _ w1) as [[[]|e'] w2]. }
  intros [= <- <-]. unfold processUrlSteps, bind in Hsteps.
  rewrite extractContent_run in Hsteps.
  destruct (extraction env (inputUrl input)) as [x|e] eqn:Hx; [|done].
  set (wa := mkWorld _ _ _) in Hsteps.
  destruct (createM env _ wa) as [[content|e] wb] eqn:Hcreate; [|done].
  apply ServiceFacts.createM_accepted in Hcreate.
  pose proof (RepositoryFacts.create_row_id _ _ _ _ _ Hcreate) as Hid.
  cbn [NewContent.id] in Hid.
  assert (Hfree : contents (db wa) !! newUrlId env = None
                  /\ contentChunks (db wb) = contentChunks (db wa)).
  { unfold create in Hcreate. cbn [NewContent.id] in Hcreate.
    destruct (contents (db wa) !! newUrlId env); [done|].
    by injection Hcreate as _ <-. }
  destruct Hfree as [Hfree Hsame]. unfold wa in Hfree, Hsame. cbn [db] in *.
  assert (Hs : chunkEmbedStore env (newUrlId env) (pageText input x)
                 (fun textChunks =>
                    mkUrlOutput (Content.id content) (Content.type content)
                      (Content.title content) (Content.description content)
                      (Content.url content) (Content.imageUrl content)
                      (Z.of_nat (List.length textChunks))) wb
               = (Ok out1, w1)) by exact Hsteps.
  apply chunkEmbedStore_Ok in Hs as (cs & vs & Hcs & Hvs & -> & _ & Hchunks).
  rewrite Hsame in Hchunks.
  set (rows := chunkRows (now env) (newUrlId env) (toChunkData vs cs)) in *.
  assert (Hrows : Forall (fun r => ContentChunk.contentId r = newUrlId env) rows).
  { eapply Forall_impl; [apply QueriesFacts.chunkRows_contentId|].
    by intros r [? _]. }
  assert (Hold : Forall (fun r => ContentChunk.contentId r <> newUrlId env)
                   (contentChunks (db w))).
  { eapply Forall_impl; [exact Hfk|]. intros r [[c Hc] _] Heq.
    by rewrite Heq, Hfree in Hc. }
  exists x, cs, vs. split; [done|].
  split; [rewrite <- Hcs; apply chunkFullText_fst|].
  split; [done|]. split; [done|]. split; [done|].
  split; [|split; [|split]].
  - unfold findChunksByContentId. rewrite Hchunks, filter_app.
    rewrite (QueriesFacts.filter_none _ (contentChunks (db w))).
    + rewrite (QueriesFacts.filter_all _ rows) by done.
      apply merge_sort_Permutation.
    + eapply Forall_impl; [exact Hold|]. by intros r Hne Heq.
  - done.
  - by apply (chunkFullText_embeddable _ wb _ Hcs).
  - intros id' Hne. unfold findChunksByContentId. rewrite Hchunks, filter_app.
    rewrite (QueriesFacts.filter_none _ rows); [by rewrite app_nil_r|].
    eapply Forall_impl; [exact Hrows|]. intros r Hr Hr'. by rewrite Hr in Hr'.
Qed.

Lemma processUrl_stores_chunks_witness :
  exists extracted cs vs,
    extraction fairWeather (inputUrl examplePage) = Ok extracted
    /\ (chunkFullText (pageText examplePage extracted) worldWithFailedPage).1
       = Ok cs
    /\ embedMany fairWeather (map Chunker.content cs) 5 = Ok vs
    /\ findById (newUrlId fairWeather) (db worldWithFailedPage) = None
    /\ urlContentId (mkUrlOutput (of_string "url_abc") Webpage
                       (of_string "A page") (of_string "About things")
                       (Some (of_string "https://example.com/a")) None 1)
       = newUrlId fairWeather
    /\ findChunksByContentId (newUrlId fairWeather)
         (db (processUrl fairWeather examplePage worldWithFailedPage).2)
       ≡ₚ chunkRows (now fairWeather) (newUrlId fairWeather) (toChunkData vs cs)
    /\ chunksCreated (mkUrlOutput (of_string "url_abc") Webpage
                        (of_string "A page") (of_string "About things")
                        (Some (of_string "https://example.com/a")) None 1)
       = Z.of_nat (List.length cs)
    /\ Forall embeddable cs
    /\ (forall id', id' <> newUrlId fairWeather ->
          findChunksByContentId id'
            (db (processUrl fairWeather examplePage worldWithFailedPage).2)
          = findChunksByContentId id' (db worldWithFailedPage)).
Proof.
  apply (processUrl_stores_chunks fairWeather examplePage worldWithFailedPage).
  - apply QueriesFacts.oneFailedPage_consistent.
  - vm_compute. reflexivity.
Defined.

(** *** The retry handler *)

Lemma special_messages (e : text) :
  e = integerOutOfRange
  \/ (exists cause,
        e = of_string "Failed to retry content: " ++ getErrorMessage cause) ->
  e <> of_string "Content not found"
  /\ e <> of_string "Content is not in failed state"
  /\ e <> of_string "Image content requires re-upload to retry".
Proof. intros [->|[cause ->]]; repeat split; discriminate. Qed.

(** X22. [handleRetryUrl] always answers. On a database that takes every
    statement it answers 404 with ['Content not found'] for an unknown id,
    400 with the reason for an item that may not be retried (not failed, an
    image, or without URL), 200 with the number of chunks when the retry
    returns, and 500 with the safe form of the error when the retry
    throws. *)
Theorem handleRetryUrl_status (env : Env) (id : text) (w : World) :
  exists r,
    (handleRetryUrl env id w).1 = Ok r
    /\ (dbUp env ->
        match contents (db w) !! id with
        | None =>
            r = mkResponse 404 (Err (of_string "Content not found"))
        | Some c =>
            if retryPermitted (Some c) then
              match (retryFailedContent env id w).1 with
              | Ok n => r = mkResponse 200 (Ok n)
              | Err e => r = mkResponse 500 (Err (getSafeErrorMessage e))
              end
            else r = mkResponse 400 (Err (rejection (Some c)))
        end).
Proof.
  unfold handleRetryUrl, tryCatch, bind.
  destruct (retryFailedContent env id w) as [[n|e] w1] eqn:Hrun.
  { eexists. split; [done|]. intros Hup.
    rewrite ServiceFacts.retryFailedContent_found in Hrun by apply Hup.
    apply retryFound_Ok in Hrun as (c & -> & ->). done. }
  set (answer := if bool_decide (e = of_string "Content not found") then _ else _).
  assert (Hanswer : exists r, answer w1 = (Ok r, w1)).
  { unfold answer. destruct (bool_decide _); [by eexists|].
    destruct (_ || _); by eexists. }
  destruct Hanswer as [r Hr]. exists r. rewrite Hr. split; [done|].
  intros Hup. rewrite ServiceFacts.retryFailedContent_found in Hrun by apply Hup.
  set (w0 := mkWorld _ _ _) in Hrun.
  destruct (contents (db w) !! id) as [c|] eqn:Hc.
  2:{ injection Hrun as <- <-. by injection Hr as <-. }
  destruct (retryPermitted (Some c)) eqn:Hp.
  - apply (retryFound_errors env id c w0 w1 e Hup Hp) in Hrun.
    destruct (special_messages e Hrun) as (H1 & H2 & H3).
    unfold answer in Hr.
    rewrite (bool_decide_eq_false_2 _ H1), (bool_decide_eq_false_2 _ H2),
      (bool_decide_eq_false_2 _ H3) in Hr.
    by injection Hr as <-.
  - rewrite retryFound_rejected in Hrun by done.
    injection Hrun as <- <-. unfold answer, rejection in *.
    destruct (bool_decide (Content.status c = Failed)).
    + by injection Hr as <-.
    + by injection Hr as <-.
Qed.


End RoutesFacts.

(** ** Facts about the matcher *)

Module MatchingFacts.
Import Js Regex Matching.

Lemma run_Rep (a : re) (lo : nat) (hi : option nat) (st : MState)
    (k : MState -> option MState) :
  run (Rep a lo hi) st k = iterOf a lo hi k (S (List.length (rest st))) 0 st.
Proof. reflexivity. Qed.

Lemma iterOf_S (a : re) (lo : nat) (hi : option nat)
    (k : MState -> option MState) (fuel n : nat) (st : MState) :
  iterOf a lo hi k (S fuel) n st
  = if underMax hi n then
      match run a st (fun st' =>
              if Nat.ltb (List.length (rest st')) (List.length (rest st))
              then iterOf a lo hi k fuel (S n) st' else None) with
      | Some m => Some m
      | None => if Nat.leb lo n then k st else None
      end
    else if Nat.leb lo n then k st else None.
Proof. reflexivity. Qed.

Lemma iterOf_0 (a : re) (lo : nat) (hi : option nat)
    (k : MState -> option MState) (n : nat) (st : MState) :
  iterOf a lo hi k 0 n st = if Nat.leb lo n then k st else None.
Proof. reflexivity. Qed.

Lemma run_Seq (a b : re) (st : MState) (k : MState -> option MState) :
  run (Seq a b) st k = run a st (fun st' => run b st' k).
Proof. reflexivity. Qed.

(** A match is a match at some position of the subject. *)
Lemma execFrom_sound (r : re) (s : text) (prev : option N) (m : MState) :
  execFrom r prev s = Some m ->
  exists pre suf prev',
    s = pre ++ suf /\ run r (mkM prev' suf (fun _ => None)) Some = Some m.
Proof.
  revert prev. induction s as [|c s IH]; intros prev; simpl.
  - destruct (run r _ Some) as [m'|] eqn:Hrun; [|done].
    intros [= <-]. by exists [], [], prev.
  - destruct (run r _ Some) as [m'|] eqn:Hrun.
    + intros [= <-]. by exists [], (c :: s), prev.
    + intros (pre & suf & prev' & -> & Hm)%IH.
      by exists (c :: pre), suf, prev'.
Qed.

(** A match at a later position is found unless an earlier one is. *)
Lemma execFrom_complete (r : re) (pre s : text) (prev : option N) :
  (forall prev', run r (mkM prev' s (fun _ => None)) Some <> None) ->
  execFrom r prev (pre ++ s) <> None.
Proof.
  intros Hrun. revert prev. induction pre as [|c pre IH]; intros prev.
  - specialize (Hrun prev). destruct s; simpl; by destruct (run r _ Some).
  - simpl. destruct (run r _ Some); [done|]. apply IH.
Qed.

Lemma exec_None (r : re) (s : text) :
  exec r s = None -> execFrom r None s = None.
Proof. unfold exec. by destruct (execFrom r None s). Qed.

End MatchingFacts.

(** ** Facts about the error messages *)

Module SanitizerFacts.
Import Js JsFacts Regex Matching MatchingFacts Service Sanitizer.

(** *** The matcher finds a word wherever it stands *)

Lemma run_iword (l : list Ascii.ascii) (st : MState)
    (k : MState -> option MState) (mid post : text) :
  rest st = mid ++ post -> sameLetters mid (map code l) ->
  exists b, run (iword_aux l) st k = k (mkM b post (caps st)).
Proof.
  revert st mid. induction l as [|a l IH]; intros [b0 r0 c0] mid; cbn [rest caps].
  - intros -> Hm. destruct mid; [|done]. by exists b0.
  - intros -> Hm. destruct mid as [|c mid]; [done|].
    injection Hm as Hc Hm.
    assert (Hstep : forall k',
              run (ichar a) (mkM b0 ((c :: mid) ++ post) c0) k'
              = k' (mkM (Some c) (mid ++ post) c0)).
    { intros k'. cbn. by rewrite Hc, N.eqb_refl. }
    destruct l as [|a2 l].
    + destruct mid; [|done]. exists (Some c). apply Hstep.
    + change (iword_aux (a :: a2 :: l))
        with (Seq (ichar a) (iword_aux (a2 :: l))).
      cbn [run]. rewrite Hstep.
      destruct (IH (mkM (Some c) (mid ++ post) c0) mid eq_refl Hm) as [b Hb].
      exists b. by rewrite Hb.
Qed.

Lemma exec_word (w : string) (s : text) :
  exec (iword w) s = None -> ~ holds s w.
Proof.
  intros Hex%exec_None (pre & mid & post & -> & Hm).
  revert Hex. apply execFrom_complete. intros prev'.
  destruct (run_iword (String.list_ascii_of_string w)
              (mkM prev' (mid ++ post) (fun _ => None)) Some mid post)
    as [b Hb]; [done|done|].
  unfold iword. by rewrite Hb.
Qed.

(** The greedy [.*] gives back as much as the rest of the pattern needs. *)
Lemma iterOf_star_dot (mid post : text) (before0 : option N)
    (caps0 : nat -> option text) (k : MState -> option MState)
    (fuel n : nat) :
  Forall (fun c => isLineTerminator c = false) mid ->
  (forall b, k (mkM b post caps0) <> None) ->
  (List.length mid < fuel)%nat ->
  iterOf dot 0 None k fuel n (mkM before0 (mid ++ post) caps0) <> None.
Proof.
  intros Hmid Hk. revert before0 fuel n.
  induction Hmid as [|c mid Hc _ IH]; intros before0 fuel n Hfuel.
  - destruct fuel as [|fuel]; [simpl in Hfuel; lia|].
    rewrite iterOf_S. cbn [underMax Nat.leb].
    destruct (run dot _ _); [done|apply Hk].
  - destruct fuel as [|fuel]; [simpl in Hfuel; lia|].
    rewrite iterOf_S. cbn [underMax Nat.leb]. cbn [run dot rest app].
    rewrite Hc. cbn [negb rest caps List.length].
    rewrite (proj2 (Nat.ltb_lt _ _)) by lia.
    specialize (IH (Some c) fuel (S n) ltac:(simpl in Hfuel; lia)).
    by destruct (iterOf _ _ _ _ _ _ _).
Qed.

Lemma exec_words_apart (a b : string) (s : text) :
  exec (Seq (iword a) (Seq (star dot) (iword b))) s = None ->
  ~ holdsThen s a b.
Proof.
  intros Hex%exec_None (pre & wa & mid & wb & post & -> & Ha & Hb & Hmid).
  revert Hex. apply execFrom_complete. intros prev'. cbn [run].
  destruct (run_iword (String.list_ascii_of_string a)
              (mkM prev' (wa ++ mid ++ wb ++ post) (fun _ => None))
              (fun st' => run (star dot) st'
                            (fun st'' => run (iword b) st'' Some))
              wa (mid ++ wb ++ post)) as [b1 Hb1]; [done|done|].
  unfold iword at 1. rewrite Hb1. unfold star. rewrite run_Rep.
  apply iterOf_star_dot; [done| |cbn; rewrite length_app; lia].
  intros b2. cbn [caps].
  destruct (run_iword (String.list_ascii_of_string b)
              (mkM b2 (wb ++ post) (fun _ => None)) Some wb post)
    as [b3 Hb3]; [done|done|].
  unfold iword. by rewrite Hb3.
Qed.

Lemma length_getErrorMessage (m : text) : length (getErrorMessage m) <= 503.
Proof.
  unfold getErrorMessage. destruct (500 <? length m) eqn:E.
  - apply Z.ltb_lt in E. unfold length at 1. rewrite length_app.
    pose proof (length_substring m 0 500 ltac:(lia) ltac:(lia)) as Hl.
    unfold length in Hl at 1. simpl. lia.
  - apply Z.ltb_ge in E. lia.
Qed.

Lemma unmatched_clean (s : text) :
  existsb (fun pattern => bool_decide (is_Some (exec pattern s)))
    SENSITIVE_PATTERNS = false ->
  clean s.
Proof.
  intros Hex.
  assert (Hall : Forall (fun pattern => exec pattern s = None) SENSITIVE_PATTERNS).
  { apply Forall_forall. intros p Hp.
    destruct (exec p s) as [m|] eqn:Hm; [|done].
    assert (Htrue : existsb (fun pattern =>
                               bool_decide (is_Some (exec pattern s)))
                      SENSITIVE_PATTERNS = true); [|by rewrite Htrue in Hex].
    apply existsb_exists. exists p. split; [by apply list_elem_of_In|].
    apply bool_decide_eq_true. by rewrite Hm. }
  unfold SENSITIVE_PATTERNS in Hall.
  repeat match goal with
         | H : Forall _ (_ :: _) |- _ => apply Forall_cons in H as [? H]
         end.
  split; [|split].
  - unfold sensitiveWords. repeat constructor; by apply exec_word.
  - by apply exec_words_apart.
  - by apply exec_words_apart.
Qed.

(** X23. The message that [getSafeErrorMessage] returns is either the
    generic message or the message of the error cut at 500 characters; it
    has at most 503 characters; it holds, in no letter case, none of
    ['failed query:'], ['insert into'], ['delete from'], ['params:'],
    ['postgresql'], ['pg_'], ['connection refused'], ['econnrefused'], and
    on no line ['select '] followed by [' from'] or ['update '] followed by
    [' set']. *)
Theorem getSafeErrorMessage_hides (message : text) :
  (getSafeErrorMessage message = genericMessage
   \/ getSafeErrorMessage message = getErrorMessage message)
  /\ length (getSafeErrorMessage message) <= 503
  /\ Forall (fun w => ~ holds (getSafeErrorMessage message) w) sensitiveWords
  /\ ~ holdsThen (getSafeErrorMessage message) "select " " from"
  /\ ~ holdsThen (getSafeErrorMessage message) "update " " set".
Proof.
  unfold getSafeErrorMessage.
  destruct (existsb _ SENSITIVE_PATTERNS) eqn:Hex.
  - split; [by left|]. split; [by vm_compute|].
    apply (unmatched_clean genericMessage). by vm_compute.
  - split; [by right|]. split; [apply length_getErrorMessage|].
    by apply unmatched_clean.
Qed.

End SanitizerFacts.

(** ** Facts about the video ids *)

Module YoutubeFacts.
Import Js JsFacts Regex Matching MatchingFacts Youtube.

(** A word as it stands matches where it stands, and nowhere else. *)
Lemma run_lit (l : list Ascii.ascii) (st : MState)
    (k : MState -> option MState) (post : text) :
  rest st = map code l ++ post ->
  exists b, run (lit_aux l) st k = k (mkM b post (caps st)).
Proof.
  revert st. induction l as [|a l IH]; intros [b0 r0 c0]; cbn [rest caps].
  - intros ->. by exists b0.
  - intros ->.
    assert (Hstep : forall k',
              run (lchar a) (mkM b0 (map code (a :: l) ++ post) c0) k'
              = k' (mkM (Some (code a)) (map code l ++ post) c0)).
    { intros k'. cbn. by rewrite N.eqb_refl. }
    destruct l as [|a2 l].
    + exists (Some (code a)). apply Hstep.
    + change (lit_aux (a :: a2 :: l))
        with (Seq (lchar a) (lit_aux (a2 :: l))).
      cbn [run]. rewrite Hstep.
      destruct (IH (mkM (Some (code a)) (map code (a2 :: l) ++ post) c0)
                  eq_refl) as [b Hb].
      exists b. by rewrite Hb.
Qed.

Lemma run_lchar_inv (a : Ascii.ascii) (st : MState)
    (k : MState -> option MState) (m : MState) :
  run (lchar a) st k = Some m ->
  exists post, rest st = code a :: post
               /\ k (mkM (Some (code a)) post (caps st)) = Some m.
Proof.
  cbn. destruct (rest st) as [|c s']; [done|].
  destruct (N.eqb (code a) c) eqn:E; [|done].
  apply N.eqb_eq in E as <-. intros Hk. by exists s'.
Qed.

Lemma run_lit_inv (l : list Ascii.ascii) (st : MState)
    (k : MState -> option MState) (m : MState) :
  run (lit_aux l) st k = Some m ->
  exists post b, rest st = map code l ++ post
                 /\ k (mkM b post (caps st)) = Some m.
Proof.
  revert st k. induction l as [|a l IH]; intros st k.
  - cbn. intros Hk. exists (rest st), (before st). split; [done|].
    by destruct st.
  - destruct l as [|a2 l].
    + intros (post & Hr & Hk)%run_lchar_inv. by exists post, (Some (code a)).
    + change (lit_aux (a :: a2 :: l))
        with (Seq (lchar a) (lit_aux (a2 :: l))).
      cbn [run]. intros (post & Hr & Hk)%run_lchar_inv.
      apply IH in Hk as (post' & b & Hr' & Hk). cbn [rest caps] in Hr', Hk.
      exists post', b. split; [|done]. rewrite Hr, Hr'. done.
Qed.

(** The characters at the head of [s] that [p] accepts, and what follows
    them. *)
Lemma span_by (p : N -> bool) (s : text) :
  exists mid post,
    s = mid ++ post /\ Forall (fun c => p c = true) mid
    /\ (forall c, head post = Some c -> p c = false).
Proof.
  induction s as [|c s (mid & post & -> & Hmid & Hpost)].
  - by exists [], [].
  - destruct (p c) eqn:E.
    + exists (c :: mid), post. split; [done|]. split; [by constructor|done].
    + exists [], (c :: mid ++ post). split; [done|]. split; [done|].
      by intros c' [= <-].
Qed.

(** A greedy repetition of one character class followed by something that
    matches anywhere takes every character that the class accepts. *)
Lemma iterOf_greedy (p : N -> bool) (lo : nat) (mid post : text)
    (before0 : option N) (caps0 : nat -> option text)
    (k : MState -> option MState) (fuel n : nat) :
  Forall (fun c => p c = true) mid ->
  (forall c, head post = Some c -> p c = false) ->
  (forall b, k (mkM b post caps0) <> None) ->
  (List.length mid < fuel)%nat ->
  (lo <= n + List.length mid)%nat ->
  exists b,
    iterOf (Chr p) lo None k fuel n (mkM before0 (mid ++ post) caps0)
    = k (mkM b post caps0).
Proof.
  intros Hmid Hpost Hk. revert before0 fuel n.
  induction Hmid as [|c mid Hc _ IH]; intros before0 fuel n Hfuel Hlo.
  - destruct fuel as [|fuel]; [simpl in Hfuel; lia|].
    rewrite iterOf_S. cbn [underMax]. cbn [run rest app].
    rewrite (proj2 (Nat.leb_le lo n)) by (simpl in Hlo; lia).
    exists before0. destruct post as [|c post]; [done|].
    by rewrite (Hpost c eq_refl).
  - destruct fuel as [|fuel]; [simpl in Hfuel; lia|].
    rewrite iterOf_S. cbn [underMax]. cbn [run rest app].
    rewrite Hc. cbn [rest caps List.length].
    rewrite (proj2 (Nat.ltb_lt _ _)) by lia.
    destruct (IH (Some c) fuel (S n)) as [b Hb];
      [simpl in Hfuel; lia|simpl in Hlo; lia|].
    exists b. rewrite Hb. specialize (Hk b).
    by destruct (k _).
Qed.

(** The group of a pattern: [([^&\n?#]+)]. *)
Lemma run_id (st : MState) (k : MState -> option MState)
    (mid post : text) :
  rest st = mid ++ post ->
  Forall (fun c => idChar c = true) mid ->
  (forall c, head post = Some c -> idChar c = false) ->
  (forall b c, k (mkM b post c) <> None) ->
  if decide (mid = []) then
    run (Group 1 (plus (Chr idChar))) st k = None
  else
    exists b,
      run (Group 1 (plus (Chr idChar))) st k
      = k (mkM b post (fun j => if Nat.eqb 1 j then Some mid else caps st j)).
Proof.
  destruct st as [b0 r0 c0]. cbn [rest caps]. intros -> Hmid Hpost Hk.
  cbn [run]. unfold plus. rewrite run_Rep. cbn [rest].
  destruct (decide (mid = [])) as [->|Hne].
  - rewrite iterOf_S. cbn [underMax run rest app Nat.leb].
    destruct post as [|c post]; [done|]. by rewrite (Hpost c eq_refl).
  - destruct (iterOf_greedy idChar 1 mid post b0 c0
                (fun st' => k (setCap 1 (consumed (mkM b0 (mid ++ post) c0) st')
                                 st'))
                (S (List.length (mid ++ post))) 0 Hmid Hpost) as [b Hb].
    + intros b. unfold setCap. cbn [before rest caps]. apply Hk.
    + rewrite length_app. lia.
    + destruct mid; [done|]. simpl. lia.
    + exists b. rewrite Hb. unfold setCap, consumed. cbn [before rest caps].
      rewrite !length_app.
      replace (List.length mid + List.length post - List.length post)%nat
        with (List.length mid) by lia.
      by rewrite take_app_length.
Qed.

(** What a pattern made of a marker and the group matches. *)
Lemma run_marker_id (marker : string) (st : MState) (m : MState) :
  run (Seq (lit marker) (Group 1 (plus (Chr idChar)))) st Some = Some m ->
  exists id post,
    rest st = of_string marker ++ id ++ post
    /\ id <> [] /\ Forall (fun c => idChar c = true) id
    /\ (forall c, head post = Some c -> idChar c = false)
    /\ caps m 1%nat = Some id.
Proof.
  rewrite run_Seq. unfold lit.
  intros (post0 & b & Hr & Hk)%run_lit_inv. cbn beta in Hk.
  destruct (span_by idChar post0) as (mid & post & -> & Hmid & Hpost).
  pose proof (run_id (mkM b (mid ++ post) (caps st)) Some mid post eq_refl
                Hmid Hpost ltac:(done)) as Hid.
  destruct (decide (mid = [])) as [->|Hne].
  - by rewrite Hid in Hk.
  - destruct Hid as [b' Hid]. rewrite Hid in Hk. injection Hk as <-.
    exists mid, post. by cbn.
Qed.

Lemma run_marker_id_complete (marker : string) (st : MState)
    (c : N) (post : text) :
  rest st = of_string marker ++ c :: post -> idChar c = true ->
  run (Seq (lit marker) (Group 1 (plus (Chr idChar)))) st Some <> None.
Proof.
  intros Hr Hc. rewrite run_Seq. unfold lit.
  destruct (run_lit (String.list_ascii_of_string marker) st
              (fun st' => run (Group 1 (plus (Chr idChar))) st' Some)
              (c :: post) Hr) as [b ->].
  destruct (span_by idChar post) as (mid & post' & -> & Hmid & Hpost).
  pose proof (run_id (mkM b (c :: mid ++ post') (caps st)) Some (c :: mid)
                post' eq_refl ltac:(by constructor) Hpost ltac:(done)) as Hid.
  destruct (decide (c :: mid = [])) as [|_]; [done|].
  destruct Hid as [b' ->]. done.
Qed.

Lemma run_Alt_Seq (a b c : re) (st : MState) (k : MState -> option MState) :
  run (Seq (Alt a b) c) st k
  = match run (Seq a c) st k with
    | Some m => Some m
    | None => run (Seq b c) st k
    end.
Proof. reflexivity. Qed.

Lemma pattern_sound (pattern : re) (st m : MState) :
  pattern ∈ patterns -> run pattern st Some = Some m ->
  exists marker id post,
    marker ∈ markers /\ rest st = marker ++ id ++ post
    /\ id <> [] /\ Forall (fun c => idChar c = true) id
    /\ (forall c, head post = Some c -> idChar c = false)
    /\ caps m 1%nat = Some id.
Proof.
  unfold patterns. rewrite !elem_of_cons, elem_of_nil.
  intros [->|[->|[->|[]]]].
  - rewrite run_Alt_Seq.
    destruct (run (Seq (lit "youtube.com/watch?v=") _) st Some) as [m'|] eqn:E.
    + intros [= <-]. apply run_marker_id in E as (id & post & H).
      exists (of_string "youtube.com/watch?v="), id, post.
      split; [|done]. unfold markers. repeat constructor.
    + intros (id & post & H)%run_marker_id.
      exists (of_string "youtu.be/"), id, post.
      split; [|done]. unfold markers. repeat constructor.
  - intros (id & post & H)%run_marker_id.
    exists (of_string "youtube.com/embed/"), id, post.
    split; [|done]. unfold markers. repeat constructor.
  - intros (id & post & H)%run_marker_id.
    exists (of_string "youtube.com/v/"), id, post.
    split; [|done]. unfold markers. repeat constructor.
Qed.

Lemma pattern_complete (marker : text) :
  marker ∈ markers ->
  exists pattern,
    pattern ∈ patterns
    /\ forall st c post,
         rest st = marker ++ c :: post -> idChar c = true ->
         run pattern st Some <> None.
Proof.
  unfold markers. rewrite !elem_of_cons, elem_of_nil.
  intros [->|[->|[->|[->|[]]]]].
  - eexists. split; [unfold patterns; apply list_elem_of_here|].
    intros st c post Hr Hc. rewrite run_Alt_Seq.
    pose proof (run_marker_id_complete _ st c post Hr Hc) as H.
    by destruct (run (Seq (lit "youtube.com/watch?v=") _) st Some).
  - eexists. split; [unfold patterns; apply list_elem_of_here|].
    intros st c post Hr Hc. rewrite run_Alt_Seq.
    pose proof (run_marker_id_complete _ st c post Hr Hc) as H.
    by destruct (run (Seq (lit "youtube.com/watch?v=") _) st Some).
  - eexists. split;
      [unfold patterns; apply list_elem_of_further, list_elem_of_here|].
    intros st c post Hr Hc. by apply (run_marker_id_complete _ st c post).
  - eexists. split;
      [unfold patterns;
       do 2 apply list_elem_of_further; apply list_elem_of_here|].
    intros st c post Hr Hc. by apply (run_marker_id_complete _ st c post).
Qed.

Lemma firstId_sound (ps : list re) (url id : text) :
  firstId ps url = Some id ->
  exists pattern m,
    pattern ∈ ps /\ exec pattern url = Some m /\ id = default [] (m 1%nat).
Proof.
  induction ps as [|p ps IH]; [done|]. simpl.
  destruct (exec p url) as [m|] eqn:E.
  - intros [= <-]. exists p, m. split; [apply list_elem_of_here|done].
  - intros (p' & m & Hin & H)%IH. exists p', m.
    split; [by apply list_elem_of_further|done].
Qed.

Lemma firstId_complete (ps : list re) (url : text) (pattern : re) :
  pattern ∈ ps -> exec pattern url <> None -> firstId ps url <> None.
Proof.
  induction ps as [|p ps IH]; [by intros ?%elem_of_nil|].
  intros [->|Hin]%elem_of_cons Hex; simpl.
  - by destruct (exec p url).
  - destruct (exec p url); [done|]. by apply IH.
Qed.

(** X24. [extractYouTubeId] returns the characters that follow a place
    where one of ['youtube.com/watch?v='], ['youtu.be/'],
    ['youtube.com/embed/'], ['youtube.com/v/'] is followed by a character
    other than [&], [?], [#] and the line feed, up to the next one of
    these four characters or the end of the URL: the id is not empty and
    holds none of the four. It throws ['Invalid YouTube URL'] exactly when
    the URL has no such place. *)
Theorem extractYouTubeId_id (url : text) :
  match extractYouTubeId url with
  | Ok id =>
      id <> [] /\ Forall (fun c => idChar c = true) id
      /\ exists pre marker post,
           url = pre ++ marker ++ id ++ post /\ marker ∈ markers
           /\ (forall c, head post = Some c -> idChar c = false)
  | Err e => e = of_string "Invalid YouTube URL" /\ ~ hasVideoId url
  end.
Proof.
  unfold extractYouTubeId. destruct (firstId patterns url) as [id|] eqn:Hf.
  - apply firstId_sound in Hf as (p & m & Hin & Hex & ->).
    unfold exec in Hex.
    destruct (execFrom p None url) as [ms|] eqn:Hms; [|done].
    injection Hex as <-.
    apply execFrom_sound in Hms as (pre & suf & prev' & -> & Hrun).
    apply (pattern_sound _ _ _ Hin) in Hrun
      as (marker & id & post & Hm & Hr & Hne & Hid & Hpost & Hcap).
    cbn [rest] in Hr. subst suf. rewrite Hcap. cbn [default].
    split; [done|]. split; [done|]. by exists pre, marker, post.
  - split; [done|]. intros (pre & marker & c & post & -> & Hm & Hc).
    destruct (pattern_complete marker Hm) as (p & Hin & Hp).
    revert Hf. apply (firstId_complete _ _ p Hin).
    unfold exec.
    assert (Hex : execFrom p None (pre ++ marker ++ c :: post) <> None).
    { apply execFrom_complete. intros prev'. by eapply Hp. }
    by destruct (execFrom p None _).
Qed.

End YoutubeFacts.
